(** * margo [mg] package: key/value stores and the IPC agent

    A shallow embedding of [src/mg/db.go]: the [KVStore] family
    ([KVStores], [KVMap] with its lazy [kvRef] boxes) and the
    protocol agent ([NewAgent], [Agent.Run], [Agent.communicate],
    [Agent.shutdown], [agentRes.finalize]).

    Go values are modelled as follows.
    - [interface{}] as handed in and out by clients is [option V]
      ([None] is Go's [nil]); the dynamic type probe for a [kvRef] pointer is
      a match on [slot].
    - [*KVMap] and [*kvRef] are locations into two heaps held by the
      [World]; a nil pointer is [None].  A location that is absent from
      a heap denotes the zero value of the struct ([KVMap{}] with a nil
      table, [kvRef{}] with a nil [val]).
    - a run-time panic (nil dereference, write to a nil map, method call
      on a nil interface) is the [None] outcome of the [M] monad. *)

From stdpp Require Import gmap strings list fin_maps sorting.

(** ** Part I: the program *)

(** *** Run-time model *)

Definition loc := nat.

Section World.
Context {K : Type} `{Countable K} {V : Type}.

(** A client-visible [interface{}]: [None] is [nil]. *)
Definition value : Type := option V.

(** What [KVMap.vals] holds under a key: a plain value (possibly nil),
    or a pointer to a [kvRef] box. *)
Inductive slot : Type :=
| Raw (v : value)
| Boxed (r : loc).

(** [maps !! p = None] says that [p.vals == nil]; [boxes !! r] is
    [r.val]; [calls] logs the identities of the initialisers invoked so
    far, oldest first. *)
Record World : Type := mkWorld {
  maps : gmap loc (gmap K slot);
  boxes : gmap loc value;
  calls : list nat
}.

Definition new_world : World :=
  {| maps := ∅; boxes := ∅; calls := [] |}.

(** A [func() interface{}]: the closure may be stateful, so its result
    is a function of the invocations made before it. *)
Record Init : Type := mkInit {
  fn_id : nat;
  fn_res : list nat -> value
}.

Definition M (A : Type) : Type := World -> option (A * World).

Definition ret {A} (a : A) : M A := fun w => Some (a, w).

Definition bind {A B} (c : M A) (f : A -> M B) : M B :=
  fun w => match c w with
           | Some (a, w') => f a w'
           | None => None
           end.

Definition panic {A} : M A := fun _ => None.

(** [m.vals] for a receiver [m]; dereferencing nil panics. *)
Definition load_vals (m : option loc) : M (option (gmap K slot)) :=
  match m with
  | None => panic
  | Some p => fun w => Some (maps w !! p, w)
  end.

Definition store_vals (m : option loc) (t : option (gmap K slot)) : M unit :=
  match m with
  | None => panic
  | Some p => fun w =>
      Some (tt, {| maps := match t with
                           | Some t' => <[p:=t']> (maps w)
                           | None => delete p (maps w)
                           end;
                   boxes := boxes w; calls := calls w |})
  end.

(** [t[k]]: indexing a nil or a non-nil map yields the zero value when
    the key is missing. *)
Definition map_index (t : option (gmap K slot)) (k : K) : slot :=
  match t with
  | Some t' => default (Raw None) (t' !! k)
  | None => Raw None
  end.

(** [ref.val] *)
Definition load_box (r : loc) : M value :=
  fun w => Some (default None (boxes w !! r), w).

(** [ref.val = v] *)
Definition store_box (r : loc) (v : value) : M unit :=
  fun w => Some (tt, {| maps := maps w; boxes := <[r:=v]> (boxes w);
                        calls := calls w |}).

(** [&kvRef{val: v}] *)
Definition alloc_box (v : value) : M loc :=
  fun w => let r := fresh (dom (boxes w)) in
           Some (r, {| maps := maps w; boxes := <[r:=v]> (boxes w);
                       calls := calls w |}).

(** [new()] *)
Definition call (new : Init) : M value :=
  fun w => Some (fn_res new (calls w),
                 {| maps := maps w; boxes := boxes w;
                    calls := calls w ++ [fn_id new] |}).
End World.

Arguments value V : clear implicits.
Arguments slot V : clear implicits.
Arguments World K {_ _} V.
Arguments Init V : clear implicits.
Arguments M K {_ _} V A.

Declare Scope go_scope.
Delimit Scope go_scope with go.
Notation "x <- c1 ;; c2" := (bind c1 (fun x => c2))
  (at level 100, c1 at next level, right associativity) : go_scope.
Notation "c1 ;; c2" := (bind c1 (fun _ => c2))
  (at level 100, right associativity) : go_scope.
Open Scope go_scope.

(** *** [KVMap] *)

Module KVMap.
Section defs.
Context {K : Type} `{Countable K} {V : Type}.
Implicit Types (m : option loc) (k : K) (v : value V).

(** [func (m *KVMap) put(k, v)]; the stored [interface{}] is a [slot]. *)
Definition put m k (s : slot V) : M K V unit :=
  t <- load_vals m ;;
  match t with
  | None => store_vals m (Some ∅)
  | Some _ => ret tt
  end ;;
  t <- load_vals m ;;
  match t with
  | None => panic
  | Some t' => store_vals m (Some (<[k:=s]> t'))
  end.

Definition Put m k v : M K V unit :=
  match m with
  | None => ret tt
  | Some _ => put m k (Raw v)
  end.

Definition unref (s : slot V) : M K V (value V) :=
  match s with
  | Raw v => ret v
  | Boxed r => load_box r
  end.

Definition Get m k : M K V (value V) :=
  match m with
  | None => ret None
  | Some _ =>
      t <- load_vals m ;;
      unref (map_index t k)
  end.

(** The two halves of [func (m *KVMap) ref(k)]: the read of
    [m.vals[k]], and the probe that wraps a plain value in a new box. *)
Definition ref_wrap m k (s : slot V) : M K V loc :=
  match s with
  | Boxed r => ret r
  | Raw v =>
      r <- alloc_box v ;;
      put m k (Boxed r) ;;
      ret r
  end.

Definition ref m k : M K V loc :=
  t <- load_vals m ;;
  ref_wrap m k (map_index t k).

(** The section of [Ref] that runs under the box's lock. *)
Definition box_is_nil (r : loc) : M K V bool :=
  v <- load_box r ;;
  ret (match v with None => true | Some _ => false end).

Definition box_init (r : loc) (new : Init V) : M K V unit :=
  v <- call new ;;
  store_box r v.

Definition Ref m k (new : Init V) : M K V (value V) :=
  match m with
  | None => call new
  | Some _ =>
      r <- ref m k ;;
      b <- box_is_nil r ;;
      (if b then box_init r new else ret tt) ;;
      load_box r
  end.

Definition Del m k : M K V unit :=
  match m with
  | None => ret tt
  | Some _ =>
      t <- load_vals m ;;
      match t with
      | None => ret tt
      | Some t' => store_vals m (Some (delete k t'))
      end
  end.

Definition Clear m : M K V unit :=
  match m with
  | None => ret tt
  | Some _ => store_vals m None
  end.

(** [Values] returns a map ([None] is the nil map); the copy keeps the
    entries whose unwrapped value is not nil. *)
Definition Values m : M K V (option (gmap K (value V))) :=
  match m with
  | None => ret None
  | Some _ =>
      t <- load_vals m ;;
      vals <- map_fold
        (fun k s acc =>
           vals <- acc ;;
           v <- unref s ;;
           ret (match v with
                | Some _ => <[k:=v]> vals
                | None => vals
                end))
        (ret ∅) (default ∅ t) ;;
      ret (Some vals)
  end.
End defs.
End KVMap.

(** *** The [KVStore] interface and [KVStores] *)

(** A value of interface type [KVStore].  [KNil] is the nil interface;
    the implementations are the pointer type [*KVMap] (whose pointer may
    itself be nil inside a non-nil interface) and the slice type
    [KVStores] (whose slice may be nil).  The third implementation named
    by the source, [*Store], is declared outside this file. *)
#[warnings="-register-all"]
Inductive KVStore : Type :=
| KNil
| KMapPtr (m : option loc)
| KList (kvl : option (list KVStore)).

(** [kvs == nil] on an interface value *)
Definition is_nil (kvs : KVStore) : bool :=
  match kvs with
  | KNil => true
  | _ => false
  end.

(** The elements a [range] over a slice visits: none for the nil slice. *)
Definition elems (kvl : option (list KVStore)) : list KVStore :=
  default [] kvl.

Module KVStores.
Section defs.
Context {K : Type} `{Countable K} {V : Type}.
Implicit Types (k : K) (v : value V).

(** [for _, kvs := range kvl { if kvs == nil { continue }; body(kvs) }] *)
Fixpoint each (body : KVStore -> M K V unit) (l : list KVStore) : M K V unit :=
  match l with
  | [] => ret tt
  | kvs :: rest =>
      (if is_nil kvs then ret tt else body kvs) ;;
      each body rest
  end.

(** The loop of [Get], which returns at the first non-nil value. *)
Fixpoint first (body : KVStore -> M K V (value V)) (l : list KVStore)
  : M K V (value V) :=
  match l with
  | [] => ret None
  | kvs :: rest =>
      if is_nil kvs then first body rest
      else
        v <- body kvs ;;
        match v with
        | Some _ => ret v
        | None => first body rest
        end
  end.

(** Method calls through the interface; on a nil interface they panic. *)
Fixpoint iPut (kvs : KVStore) k v : M K V unit :=
  match kvs with
  | KNil => panic
  | KMapPtr m => KVMap.Put m k v
  | KList None => ret tt
  | KList (Some l) => each (fun s => iPut s k v) l
  end.

Fixpoint iGet (kvs : KVStore) k : M K V (value V) :=
  match kvs with
  | KNil => panic
  | KMapPtr m => KVMap.Get m k
  | KList None => ret None
  | KList (Some l) => first (fun s => iGet s k) l
  end.

Fixpoint iDel (kvs : KVStore) k : M K V unit :=
  match kvs with
  | KNil => panic
  | KMapPtr m => KVMap.Del m k
  | KList None => ret tt
  | KList (Some l) => each (fun s => iDel s k) l
  end.

Definition Put (kvl : option (list KVStore)) k v : M K V unit :=
  each (fun s => iPut s k v) (elems kvl).

Definition Get (kvl : option (list KVStore)) k : M K V (value V) :=
  first (fun s => iGet s k) (elems kvl).

Definition Del (kvl : option (list KVStore)) k : M K V unit :=
  each (fun s => iDel s k) (elems kvl).
End defs.
End KVStores.

(** The [KVMap] objects a store writes through to, in scan order. *)
Fixpoint leaves (kvs : KVStore) : list loc :=
  match kvs with
  | KNil => []
  | KMapPtr None => []
  | KMapPtr (Some p) => [p]
  | KList None => []
  | KList (Some l) => List.concat (List.map leaves l)
  end.

(** *** Mutexes

    A [sync.Mutex] is the flag [f]; [h] picks out the goroutines that
    are inside its critical section.  At most one is inside, and the flag
    is set exactly when one is. *)
Definition mutex {A : Type} (f : bool) (h : A -> bool) (ths : list A) : Prop :=
  (forall i j ci cj, ths !! i = Some ci -> ths !! j = Some cj ->
                     h ci = true -> h cj = true -> i = j) /\
  (forall i ci, ths !! i = Some ci -> h ci = true -> f = true) /\
  (f = true -> exists i ci, ths !! i = Some ci /\ h ci = true).

(** *** Concurrent callers of [KVMap.Ref]

    [n] goroutines call [m.Ref(k, new)] on one non-nil map [m].  A
    goroutine advances by one action at a time: the acquisition or the
    release of a mutex, or one access to the shared memory ([m.vals],
    [ref.val], the call of [new] with the assignment of its result).  A
    [sync.Mutex] is a flag; [Lock] on a held mutex does not proceed. *)

Module Race.
Section defs.
Context {K : Type} `{Countable K} {V : Type}.
Variable p : loc.
Variable k : K.
Variable new : Init V.

(** Where a goroutine stands in [Ref]. *)
Inductive pc : Type :=
| AtStart                            (* before [m.mu.Lock()] *)
| MuHeld                             (* in [m.ref], before [v := m.vals[k]] *)
| Loaded (s : slot V)                (* before the probe of [v] *)
| Wrapped (r : loc)                  (* before [m.mu.Unlock()] *)
| HasRef (r : loc)                   (* before [ref.Lock()] *)
| BoxHeld (r : loc)                  (* before the test [ref.val == nil] *)
| Tested (r : loc)                   (* the test held: before [ref.val = new()] *)
| Ready (r : loc)                    (* before the read of [return ref.val] *)
| Returning (r : loc) (v : value V)  (* before the deferred [ref.Unlock()] *)
| Done (v : value V).                (* returned [v] *)

Record Machine : Type := mkMachine {
  world : World K V;
  mu : bool;                (* [m.mu] is held *)
  locked : gset loc;        (* the boxes whose mutex is held *)
  threads : list pc
}.

Definition start (n : nat) (w : World K V) : Machine :=
  {| world := w; mu := false; locked := ∅; threads := replicate n AtStart |}.

(** Thread [i] moves to [c] and the shared memory becomes [w]. *)
Definition moved (s : Machine) (i : nat) (c : pc) (w : World K V) : Machine :=
  {| world := w; mu := mu s; locked := locked s; threads := <[i:=c]> (threads s) |}.

(** Thread [i] runs the memory action [act] and continues as [next] says. *)
Definition action {A} (s : Machine) (i : nat) (act : M K V A) (next : A -> pc)
  : option Machine :=
  match act (world s) with
  | Some (a, w) => Some (moved s i (next a) w)
  | None => None
  end.

(** One action of thread [i]; [None] when there is no such thread, when
    it has returned, when it waits for a mutex, or when the action panics. *)
Definition step (i : nat) (s : Machine) : option Machine :=
  match threads s !! i with
  | None => None
  | Some AtStart =>
      if mu s then None
      else Some {| world := world s; mu := true; locked := locked s;
                   threads := <[i:=MuHeld]> (threads s) |}
  | Some MuHeld =>
      action s i (t <- load_vals (Some p) ;; ret (map_index t k)) Loaded
  | Some (Loaded v) =>
      action s i (KVMap.ref_wrap (Some p) k v) Wrapped
  | Some (Wrapped r) =>
      Some {| world := world s; mu := false; locked := locked s;
              threads := <[i:=HasRef r]> (threads s) |}
  | Some (HasRef r) =>
      if decide (r ∈ locked s) then None
      else Some {| world := world s; mu := mu s; locked := {[r]} ∪ locked s;
                   threads := <[i:=BoxHeld r]> (threads s) |}
  | Some (BoxHeld r) =>
      action s i (KVMap.box_is_nil r) (fun b => if b then Tested r else Ready r)
  | Some (Tested r) =>
      action s i (KVMap.box_init r new) (fun _ => Ready r)
  | Some (Ready r) =>
      action s i (load_box r) (Returning r)
  | Some (Returning r v) =>
      Some {| world := world s; mu := mu s; locked := locked s ∖ {[r]};
              threads := <[i:=Done v]> (threads s) |}
  | Some (Done _) => None
  end.

(** A schedule names the thread that moves next; a thread that cannot
    move when it is named leaves the machine as it is. *)
Fixpoint run (sched : list nat) (s : Machine) : Machine :=
  match sched with
  | [] => s
  | i :: rest => run rest (default s (step i s))
  end.

Definition is_done (c : pc) : bool :=
  match c with
  | Done _ => true
  | _ => false
  end.

Definition all_done (s : Machine) : Prop :=
  Forall (fun c => is_done c = true) (threads s).

(** The actions a goroutine still has before it returns. *)
Definition todo (c : pc) : nat :=
  match c with
  | AtStart => 9
  | MuHeld => 8
  | Loaded _ => 7
  | Wrapped _ => 6
  | HasRef _ => 5
  | BoxHeld _ => 4
  | Tested _ => 3
  | Ready _ => 2
  | Returning _ _ => 1
  | Done _ => 0
  end.

Definition total_todo (s : Machine) : nat :=
  sum_list (todo <$> threads s).

Definition holds_mu (c : pc) : bool :=
  match c with
  | MuHeld | Loaded _ | Wrapped _ => true
  | _ => false
  end.

Definition holds_box (r : loc) (c : pc) : bool :=
  match c with
  | BoxHeld r' | Tested r' | Ready r' | Returning r' _ => bool_decide (r' = r)
  | _ => false
  end.

(** What a goroutine at [c] knows, given the slot [sl] of the key and the
    value [bv] of its box. *)
Definition fits (sl : slot V) (bv : value V) (c : pc) : Prop :=
  match sl with
  | Raw v =>
      v = None /\
      match c with
      | AtStart | MuHeld => True
      | Loaded s' => s' = Raw None
      | _ => False
      end
  | Boxed r0 =>
      match c with
      | AtStart | MuHeld => True
      | Loaded s' => s' = Boxed r0
      | Wrapped r | HasRef r | BoxHeld r => r = r0
      | Tested r => r = r0 /\ bv = None
      | Ready r => r = r0 /\ bv <> None
      | Returning r v => r = r0 /\ v = bv /\ bv <> None
      | Done v => v = bv /\ bv <> None
      end
  end.

Definition key_slot (s : Machine) : slot V :=
  map_index (maps (world s) !! p) k.

Definition box_value (s : Machine) : value V :=
  match key_slot s with
  | Raw _ => None
  | Boxed r0 => default None (boxes (world s) !! r0)
  end.

(** The invariant of the machine started with the call log [c0]. *)
Definition inv (c0 : list nat) (s : Machine) : Prop :=
  mutex (mu s) holds_mu (threads s) /\
  (forall r, mutex (bool_decide (r ∈ locked s)) (holds_box r) (threads s)) /\
  (forall i ci, threads s !! i = Some ci -> fits (key_slot s) (box_value s) ci) /\
  (box_value s = None -> calls (world s) = c0) /\
  (box_value s <> None ->
     calls (world s) = c0 ++ [fn_id new] /\ box_value s = fn_res new c0).
End defs.
End Race.

(** *** Codecs *)

(** The [codec.Handle] values of the registry. *)
Inductive Handle : Type :=
| CborHandle
| JsonHandle (Indent : Z) (TermWhitespace : bool)
| MsgpackHandle.

Definition DefaultCodec : string := "json".

(** [m[name]] on a [map[string]codec.Handle]: nil for a missing key. *)
Definition handle_of (m : gmap string (option Handle)) (name : string)
  : option Handle :=
  default None (m !! name).

Definition codecHandles : gmap string (option Handle) :=
  let m := <["msgpack" := Some MsgpackHandle]>
             (<["json" := Some (JsonHandle 2 true)]>
                (<["cbor" := Some CborHandle]> ∅)) in
  <["" := handle_of m DefaultCodec]> m.

(** The body of [CodecNames] for the order [keys] in which [range]
    yields the keys of the registry: Go leaves that order open. *)
Definition names_in (keys : list string) : list string :=
  merge_sort String.le (filter (fun k => k <> "") keys).

Definition CodecNames : list string :=
  names_in (map_to_list codecHandles).*1.

(** The body of [CodecNamesStr]; slicing with a negative bound panics. *)
Definition names_str (names : list string) : option string :=
  let i := (Z.of_nat (length names) - 1)%Z in
  if (i <? 0)%Z then None
  else match names !! Z.to_nat i with
       | Some last =>
           Some (String.concat ", " (take (Z.to_nat i) names)
                 +:+ " or " +:+ last)
       | None => None
       end.

Definition CodecNamesStr : option string := names_str CodecNames.

(** *** Requests, states and responses *)

Record agentReqAction : Type := {
  Name : string;
  Data : string
}.

(** Modelled from the spec: [clientProps] is declared outside this file;
    a request carries it as an opaque blob. *)
Record agentReq : Type := {
  req_Cookie : string;
  Actions : list agentReqAction;
  Props : string
}.

(** Modelled from the spec: [ReducerProfile] is declared outside this
    file.  A profiling entry has a subject, a start time and an end time;
    the subject is kept as the name of its dynamic type, [None] being the
    nil interface, and a time as nanoseconds. *)
Record ReducerProfile : Type := {
  Action : option string;
  Start : Z;
  End_ : Z
}.

(** Modelled from the spec: [View] is declared outside this file; its
    [changed] field counts the changes made since the previous send. *)
Record View : Type := {
  changed : Z;
  content : string
}.

(** Modelled from the spec: [State] is declared outside this file: a
    list of errors, the client actions, the profiling entries, a pointer
    to the view and an editor configuration, nil when [None]. *)
Record State : Type := {
  Errors : list string;
  clientActions : list string;
  Profiles : list ReducerProfile;
  st_View : option View;
  Config : option string
}.

Record agentRes : Type := {
  Cookie : string;
  Error : string;
  res_State : option State
}.

(** The local type [_ReducerProfile] of [finalize]. *)
Record ReducerProfile' : Type := {
  profile : ReducerProfile;
  out_Action : string;
  out_Start : string;
  out_End : string
}.

(** The anonymous struct that [finalize] returns: [agentRes] with its
    error filled in, the copied state, and the three added fields. *)
Record wire : Type := {
  out_Cookie : string;
  out_Error : string;
  out_State : State;
  out_Config : option string;
  out_ClientActions : list string;
  out_Profiles : list ReducerProfile'
}.

(** The separator of [strings.Join(errors, ...)]: a line feed. *)
Definition newline : string :=
  String (Ascii.Ascii false true false true false false false false) EmptyString.

Module agentRes.
Section defs.
(** [time.Time.Format(time.RFC3339Nano)] and [EditorConfig()] belong to
    other packages. *)
Variable Format : Z -> string.
Variable EditorConfig : string -> string.

Definition profile_out (p : ReducerProfile) : ReducerProfile' :=
  {| profile := p;
     out_Action := match Action p with
                   | Some t => t
                   | None => "mg.Render"
                   end;
     out_Start := Format (Start p);
     out_End := Format (End_ p) |}.

(** [func (rs agentRes) finalize() interface{}]; [None] is the panic of a
    nil dereference, of [rs.State] or of the view. *)
Definition finalize (rs : agentRes) : option wire :=
  match res_State rs with
  | None => None
  | Some st =>
      match st_View st with
      | None => None
      | Some vw =>
          Some {| out_Cookie := Cookie rs;
                  out_Error := if String.eqb (Error rs) ""
                               then String.concat newline (Errors st)
                               else Error rs;
                  out_State :=
                    {| Errors := Errors st;
                       clientActions := clientActions st;
                       Profiles := Profiles st;
                       st_View := if (changed vw =? 0)%Z then None else Some vw;
                       Config := Config st |};
                  out_Config := EditorConfig <$> Config st;
                  out_ClientActions := clientActions st;
                  out_Profiles := profile_out <$> Profiles st |}
      end
  end.
End defs.
End agentRes.

(** *** The agent *)

Inductive Stream : Type :=
| OsStdin
| OsStdout
| OsStderr
| Given (id : nat).

(** Modelled from the spec: [mgutil.IOWrapper] is declared outside this
    file; it makes a raw stream safe for concurrent [Read], [Write] and
    [Close]. *)
Record IOWrapper : Type := {
  Reader : option Stream;
  Writer : option Stream;
  Closer : option Stream
}.

Record AgentConfig : Type := {
  AgentName : string;
  Codec : string;
  Stdin : option Stream;
  Stdout : option Stream;
  Stderr : option Stream
}.

(** The five deferred calls of [shutdown]. *)
Inductive Step : Type :=
| StdinClose          (* [ag.stdin.Close()] *)
| WgWait              (* [ag.wg.Wait()] *)
| DispatchShutdown    (* [ag.Store.dispatch(Shutdown{})] *)
| StdoutClose         (* [ag.stdout.Close()] *)
| CloseDone.          (* [close(sd.done)] *)

(** How a call into another package ends: a deferred call's returned
    error is dropped, and a panic does not keep the calls deferred before
    it from running. *)
Inductive Outcome : Type :=
| Fine
| Erred
| Panicked.

(** What the agent does to the world outside this file. *)
Inductive Event : Type :=
| LogPrintln (msg : string)
| DispatchStarted
| StoreReady
| PropsFinalize (rq : agentReq)
| SyncRq (rq : agentReq)
| Encode (out : wire)
| Flush
| GoShutdown
| Did (st : Step) (o : Outcome).

(** [Agent]: the fields set by [NewAgent], the counter of [wg], the flag
    [sd.closed], and the events so far.  [build_error] is the status that
    the reducer added for [MARGO_BUILD_ERROR] reports. *)
Record Agent : Type := mkAgent {
  ag_Name : string;
  stdin : IOWrapper;
  stdout : IOWrapper;
  stderr : IOWrapper;
  handle : option Handle;
  enc : IOWrapper * option Handle;
  dec : IOWrapper * option Handle;
  build_error : option string;
  wg : nat;
  sd_closed : bool;
  trace : list Event
}.

Definition emit (es : list Event) (ag : Agent) : Agent :=
  mkAgent (ag_Name ag) (stdin ag) (stdout ag) (stderr ag) (handle ag)
    (enc ag) (dec ag) (build_error ag) (wg ag) (sd_closed ag) (trace ag ++ es).

Definition set_wg (n : nat) (ag : Agent) : Agent :=
  mkAgent (ag_Name ag) (stdin ag) (stdout ag) (stderr ag) (handle ag)
    (enc ag) (dec ag) (build_error ag) n (sd_closed ag) (trace ag).

Definition set_closed (b : bool) (ag : Agent) : Agent :=
  mkAgent (ag_Name ag) (stdin ag) (stdout ag) (stderr ag) (handle ag)
    (enc ag) (dec ag) (build_error ag) (wg ag) b (trace ag).

(** [func NewAgent(cfg AgentConfig)]: [getenv] is the value of
    [MARGO_BUILD_ERROR]; the result is [None] when the package could not
    be initialised because [CodecNamesStr] panicked. *)
Definition NewAgent (getenv : string) (cfg : AgentConfig)
  : option (Agent * option string) :=
  match CodecNamesStr with
  | None => None
  | Some expected =>
      let h := handle_of codecHandles (Codec cfg) in
      let i := default OsStdin (Stdin cfg) in
      let o := default OsStdout (Stdout cfg) in
      let e := default OsStderr (Stderr cfg) in
      let wi := {| Reader := Some i; Writer := None; Closer := Some i |} in
      let wo := {| Reader := None; Writer := Some o; Closer := Some o |} in
      let we := {| Reader := None; Writer := Some e; Closer := None |} in
      let err := match h with
                 | None => Some ("Invalid codec '" +:+ Codec cfg
                                 +:+ "'. Expected " +:+ expected)
                 | Some _ => None
                 end in
      let h' := match h with
                | None => handle_of codecHandles DefaultCodec
                | Some _ => h
                end in
      Some (mkAgent (AgentName cfg) wi wo we h' (wo, h') (wi, h')
              (if String.eqb getenv "" then None else Some getenv)
              0 false [],
            err)
  end.

(** The [error] values a decoder returns: [io.EOF], or another one. *)
Inductive error : Type :=
| EOF
| Other (msg : string).

Definition is_EOF (e : error) : bool :=
  match e with
  | EOF => true
  | Other _ => false
  end.

(** [err.Error()] *)
Definition message (e : error) : string :=
  match e with
  | EOF => "EOF"
  | Other msg => msg
  end.

(** What one call of [ag.dec.Decode(rq)] yields. *)
Inductive Decoded : Type :=
| Req (rq : agentReq)
| Fail (e : error).

(** How a call of [Run] or of [communicate] stands: it has not returned
    (it waits for input, or for the wait group), it has returned an
    [error] (nil when [None]), or it has panicked. *)
Inductive Result : Type :=
| Pending
| Returned (err : option string)
| Panic.

Module Agent.
Section defs.
(** The outcome of each deferred call of [shutdown]. *)
Variable env : Step -> Outcome.

(** [func (ag *Agent) handleReq(rq)] *)
Definition handleReq (rq : agentReq) (ag : Agent) : Agent :=
  let ag := set_wg (S (wg ag)) ag in
  let ag := emit [SyncRq rq] ag in
  set_wg (pred (wg ag)) ag.

(** The loop of [communicate] over the results of the successive calls of
    [Decode].  When they run out the loop is inside the next [Decode]. *)
Fixpoint loop (ins : list Decoded) (ag : Agent) : Result * Agent :=
  match ins with
  | [] => (Pending, ag)
  | Fail e :: _ =>
      (Returned (if is_EOF e then None
                 else Some ("ipc.decode: " +:+ message e)), ag)
  | Req rq :: rest =>
      loop rest (handleReq rq (emit [PropsFinalize rq] ag))
  end.

(** [func (ag *Agent) communicate() error] *)
Definition communicate (ins : list Decoded) (ag : Agent) : Result * Agent :=
  loop ins (emit [LogPrintln "started"; DispatchStarted; StoreReady] ag).

(** The [defer] statements of [shutdown] below [sd.closed = true], in the
    order in which they are written. *)
Definition deferred : list Step :=
  [CloseDone; StdoutClose; DispatchShutdown; WgWait; StdinClose].

(** Deferred calls run last in, first out. *)
Definition unwinding : list Step := rev deferred.

(** One deferred call; [None] when [wg.Wait()] cannot return yet. *)
Definition exec (st : Step) (ag : Agent) : option Agent :=
  match st with
  | WgWait => if Nat.eqb (wg ag) 0 then Some (emit [Did st (env st)] ag) else None
  | _ => Some (emit [Did st (env st)] ag)
  end.

(** The deferred calls [todo], run in order; [false] when one of them
    does not return. *)
Fixpoint unwind (todo : list Step) (ag : Agent) : bool * Agent :=
  match todo with
  | [] => (true, ag)
  | st :: rest =>
      match exec st ag with
      | Some ag' => unwind rest ag'
      | None => (false, ag)
      end
  end.

(** [func (ag *Agent) shutdown()], called by one goroutine at a time. *)
Definition shutdown (ag : Agent) : bool * Agent :=
  if sd_closed ag then (true, ag)
  else unwind unwinding (set_closed true ag).

Definition is_panic (e : Event) : bool :=
  match e with
  | Did _ Panicked => true
  | _ => false
  end.

(** [func (ag *Agent) Run() error]: [communicate], then the deferred
    [shutdown]; a panic of a deferred call takes the place of the result. *)
Definition Run (ins : list Decoded) (ag : Agent) : Result * Agent :=
  match communicate ins ag with
  | (Returned err, ag1) =>
      match shutdown ag1 with
      | (true, ag2) =>
          (if existsb is_panic (drop (length (trace ag1)) (trace ag2))
           then Panic else Returned err, ag2)
      | (false, ag2) => (Pending, ag2)
      end
  | (r, ag1) => (r, ag1)
  end.

(** [func (ag *Agent) send(res agentRes) error]: [encoded] is what
    [ag.enc.Encode] returns; [None] is the panic of [finalize]. *)
Definition send (Format : Z -> string) (EditorConfig : string -> string)
    (encoded : option string) (res : agentRes) (ag : Agent)
  : option (option string * Agent) :=
  match agentRes.finalize Format EditorConfig res with
  | None => None
  | Some out => Some (encoded, emit [Encode out; Flush] ag)
  end.

(** [func (ag *Agent) listener(st *State)] *)
Definition listener (Format : Z -> string) (EditorConfig : string -> string)
    (encoded : option string) (st : option State) (ag : Agent) : option Agent :=
  match send Format EditorConfig encoded
          {| Cookie := ""; Error := ""; res_State := st |} ag with
  | None => None
  | Some (None, ag') => Some ag'
  | Some (Some err, ag') =>
      Some (emit [LogPrintln ("agent.send failed. shutting down ipc: " +:+ err);
                  GoShutdown] ag')
  end.

(** The events of the five deferred calls, in the order they are made,
    and whether one of them panics. *)
Definition shutdown_events : list Event :=
  (fun st => Did st (env st)) <$> unwinding.

Definition panics : bool := existsb is_panic shutdown_events.

(** The deferred calls of [shutdown] that the events record. *)
Definition steps_of (es : list Event) : list Step :=
  omap (fun e => match e with Did st _ => Some st | _ => None end) es.
End defs.
End Agent.

(** *** Concurrent callers of [Agent.shutdown]

    Some goroutines call [ag.shutdown()] while others are inside
    [ag.handleReq(rq)].  As for [Ref], a goroutine advances by one action
    at a time; [sd.mu] is a flag, and [wg.Wait()] proceeds only when the
    counter is zero.  A goroutine whose deferred call panics goes on with
    the calls deferred before it, as every Go function does. *)

Module Halt.
Section defs.
Variable env : Step -> Outcome.

Inductive pc : Type :=
| SStart                     (* before [sd.mu.Lock()] *)
| SLocked                    (* before the test [if sd.closed] *)
| SMark                      (* the test failed: before [sd.closed = true] *)
| SUnwind (todo : list Step) (* the deferred calls still to run *)
| SUnlock                    (* before the deferred [sd.mu.Unlock()] *)
| SDone                      (* [shutdown] has returned *)
| HStart (rq : agentReq)     (* before [ag.wg.Add(1)] *)
| HAdded (rq : agentReq)     (* before [ag.Store.syncRq(ag, rq)] *)
| HSynced                    (* before the deferred [ag.wg.Done()] *)
| HDone.                     (* [handleReq] has returned *)

Record Machine : Type := mkMachine {
  agent : Agent;
  sd_mu : bool;
  threads : list pc
}.

(** [callers] goroutines about to call [shutdown], and one goroutine
    about to call [handleReq] for each of [rqs]. *)
Definition start (callers : nat) (rqs : list agentReq) (ag : Agent) : Machine :=
  {| agent := ag; sd_mu := false;
     threads := replicate callers SStart ++ (HStart <$> rqs) |}.

Definition moved (s : Machine) (i : nat) (c : pc) (ag : Agent) : Machine :=
  {| agent := ag; sd_mu := sd_mu s; threads := <[i:=c]> (threads s) |}.

(** One action of thread [i]; [None] when there is no such thread, when
    it has returned, or when it waits for [sd.mu] or for the wait group. *)
Definition step (i : nat) (s : Machine) : option Machine :=
  match threads s !! i with
  | None => None
  | Some SStart =>
      if sd_mu s then None
      else Some {| agent := agent s; sd_mu := true;
                   threads := <[i:=SLocked]> (threads s) |}
  | Some SLocked =>
      Some (moved s i (if sd_closed (agent s) then SUnlock else SMark) (agent s))
  | Some SMark =>
      Some (moved s i (SUnwind (Agent.unwinding)) (set_closed true (agent s)))
  | Some (SUnwind []) =>
      Some (moved s i SUnlock (agent s))
  | Some (SUnwind (st :: rest)) =>
      match Agent.exec env st (agent s) with
      | Some ag => Some (moved s i (SUnwind rest) ag)
      | None => None
      end
  | Some SUnlock =>
      Some {| agent := agent s; sd_mu := false;
              threads := <[i:=SDone]> (threads s) |}
  | Some SDone => None
  | Some (HStart rq) =>
      Some (moved s i (HAdded rq) (set_wg (S (wg (agent s))) (agent s)))
  | Some (HAdded rq) =>
      Some (moved s i HSynced (emit [SyncRq rq] (agent s)))
  | Some HSynced =>
      Some (moved s i HDone (set_wg (pred (wg (agent s))) (agent s)))
  | Some HDone => None
  end.

Fixpoint run (sched : list nat) (s : Machine) : Machine :=
  match sched with
  | [] => s
  | i :: rest => run rest (default s (step i s))
  end.

Definition is_done (c : pc) : bool :=
  match c with
  | SDone | HDone => true
  | _ => false
  end.

Definition all_done (s : Machine) : Prop :=
  Forall (fun c => is_done c = true) (threads s).

Definition todo (c : pc) : nat :=
  match c with
  | SStart => 10
  | SLocked => 9
  | SMark => 8
  | SUnwind l => 2 + length l
  | SUnlock => 1
  | SDone => 0
  | HStart _ => 3
  | HAdded _ => 2
  | HSynced => 1
  | HDone => 0
  end.

Definition total_todo (s : Machine) : nat :=
  sum_list (todo <$> threads s).

Definition holds_mu (c : pc) : bool :=
  match c with
  | SLocked | SMark | SUnwind _ | SUnlock => true
  | _ => false
  end.

(** The goroutines that call [shutdown], as against [handleReq]. *)
Definition is_caller (c : pc) : bool :=
  match c with
  | SStart | SLocked | SMark | SUnwind _ | SUnlock | SDone => true
  | _ => false
  end.

(** The requests a goroutine has added to the wait group and not yet
    taken off it. *)
Definition in_flight (c : pc) : nat :=
  match c with
  | HAdded _ | HSynced => 1
  | _ => 0
  end.

(** What a goroutine at [c] knows of the flag and of the calls made. *)
Definition fits (ag : Agent) (c : pc) : Prop :=
  match c with
  | SMark => sd_closed ag = false
  | SUnwind rest =>
      sd_closed ag = true /\
      Agent.steps_of (trace ag) ++ rest = Agent.unwinding
  | SUnlock | SDone =>
      sd_closed ag = true /\ Agent.steps_of (trace ag) = Agent.unwinding
  | _ => True
  end.

Definition inv (s : Machine) : Prop :=
  mutex (sd_mu s) holds_mu (threads s) /\
  (forall i ci, threads s !! i = Some ci -> fits (agent s) ci) /\
  (sd_closed (agent s) = false -> Agent.steps_of (trace (agent s)) = []) /\
  (sd_closed (agent s) = true ->
     Agent.steps_of (trace (agent s)) = Agent.unwinding \/
     exists i rest, threads s !! i = Some (SUnwind rest)) /\
  wg (agent s) = sum_list (in_flight <$> threads s).
End defs.
End Halt.

(** *** Observations on a world *)

Section observe.
Context {K : Type} `{Countable K} {V : Type}.

(** The world after [p.vals[k] = s], the table being made when it was nil. *)
Definition written (p : loc) (k : K) (s : slot V) (w : World K V) : World K V :=
  {| maps := <[p := <[k:=s]> (default ∅ (maps w !! p))]> (maps w);
     boxes := boxes w; calls := calls w |}.

(** The value behind a slot: a box is read through. *)
Definition peek (w : World K V) (s : slot V) : value V :=
  match s with
  | Raw v => v
  | Boxed r => default None (boxes w !! r)
  end.

(** What the store at [p] holds under [k], as a client can observe it. *)
Definition held (w : World K V) (p : loc) (k : K) : value V :=
  peek w (map_index (maps w !! p) k).
End observe.

(** *** Statement of "the first non-nil value in scan order" *)

Section first_hit.
Context {K : Type} `{Countable K} {V : Type}.

(** [first_hit w k ps r]: among the stores [ps], scanned in order, [r] is
    the value of the first one that holds a non-nil value under [k], and
    nil when none does. *)
Definition first_hit (w : World K V) (k : K) (ps : list loc) (r : value V) : Prop :=
  match r with
  | Some x =>
      exists i p, ps !! i = Some p /\ held w p k = Some x /\
                  forall j q, j < i -> ps !! j = Some q -> held w q k = None
  | None => forall p, In p ps -> held w p k = None
  end.
End first_hit.

(** *** Ownership of the boxes *)

Section ownership.
Context {K : Type} `{Countable K} {V : Type}.

(** The slot of key [k] in the store [p]. *)
Definition slot_at (w : World K V) (p : loc) (k : K) : slot V :=
  map_index (maps w !! p) k.

(** Every box that a slot points to has been allocated, and no two slots
    point to the same box. *)
Definition owned (w : World K V) : Prop :=
  (forall p k r, slot_at w p k = Boxed r -> r ∈ dom (boxes w)) /\
  (forall p k p' k' r, slot_at w p k = Boxed r -> slot_at w p' k' = Boxed r ->
                       p = p' /\ k = k').
End ownership.

(** *** Concurrent callers of [KVMap.Ref], any initialiser *)

Module RaceAny.
Section defs.
Context {K : Type} `{Countable K} {V : Type}.
Variable p : loc.
Variable k : K.

(** The box a goroutine got from [m.ref(k)], once it has one. *)
Definition ref_of (c : Race.pc (V:=V)) : option loc :=
  match c with
  | Race.Wrapped r | Race.HasRef r | Race.BoxHeld r | Race.Tested r
  | Race.Ready r | Race.Returning r _ => Some r
  | _ => None
  end.

(** What a goroutine at [c] knows when the initialiser may return nil:
    a call that returned nil says nothing of the box. *)
Definition fits (sl : slot V) (bv : value V) (c : Race.pc (V:=V)) : Prop :=
  match sl with
  | Raw v =>
      v = None /\
      match c with
      | Race.AtStart | Race.MuHeld => True
      | Race.Loaded s' => s' = Raw None
      | _ => False
      end
  | Boxed r0 =>
      match c with
      | Race.AtStart | Race.MuHeld => True
      | Race.Loaded s' => s' = Boxed r0
      | Race.Wrapped r | Race.HasRef r | Race.BoxHeld r | Race.Ready r => r = r0
      | Race.Tested r => r = r0 /\ bv = None
      | Race.Returning r v => r = r0 /\ v = bv
      | Race.Done v => v = None \/ v = bv
      end
  end.

Definition inv (s : Race.Machine (K:=K) (V:=V)) : Prop :=
  mutex (Race.mu s) Race.holds_mu (Race.threads s) /\
  (forall r, mutex (bool_decide (r ∈ Race.locked s)) (Race.holds_box r)
               (Race.threads s)) /\
  (forall i ci, Race.threads s !! i = Some ci ->
                fits (Race.key_slot p k s) (Race.box_value p k s) ci).
End defs.
End RaceAny.

(** *** Requests in the events *)

(** The requests that [Decode] yields before it first fails. *)
Fixpoint decoded_before (ins : list Decoded) : list agentReq :=
  match ins with
  | Req rq :: rest => rq :: decoded_before rest
  | _ => []
  end.

(** The events of one pass of the loop of [communicate]. *)
Definition handled (rq : agentReq) : list Event :=
  [PropsFinalize rq; SyncRq rq].

(** The requests that the events record as handed to the store. *)
Definition synced (es : list Event) : list agentReq :=
  omap (fun e => match e with SyncRq rq => Some rq | _ => None end) es.

(** The request a goroutine inside [handleReq] has still to hand over. *)
Definition to_sync (c : Halt.pc) : list agentReq :=
  match c with
  | Halt.HStart rq | Halt.HAdded rq => [rq]
  | _ => []
  end.

(** *** Vocabulary of the proofs *)

(** Induction on a store that goes through the elements of a list. *)
Fixpoint KVStore_nested_ind (P : KVStore -> Prop)
    (HNil : P KNil) (HMap : forall m, P (KMapPtr m))
    (HList : forall kvl, Forall P (elems kvl) -> P (KList kvl))
    (s : KVStore) : P s :=
  match s with
  | KNil => HNil
  | KMapPtr m => HMap m
  | KList None => HList None (Forall_nil_2 P)
  | KList (Some l) =>
      HList (Some l)
        ((fix go (l : list KVStore) : Forall P l :=
            match l with
            | [] => Forall_nil_2 P
            | x :: t =>
                Forall_cons_2 P x t
                  (KVStore_nested_ind P HNil HMap HList x) (go t)
            end) l)
  end.

Section vocabulary.
Context {K : Type} `{Countable K} {V : Type}.

(** The computation [c] returns from [w] without a panic, keeps the
    property [Q] at the stores that have it, and establishes it at each
    of the stores [ps]. *)
Definition reaches (Q : World K V -> loc -> Prop) (w : World K V)
    (c : M K V unit) (ps : list loc) : Prop :=
  exists w1, c w = Some (tt, w1) /\
             (forall q, Q w q -> Q w1 q) /\
             forall p, In p ps -> Q w1 p.

(** The computation [c] returns from [w], leaves it as it is, and answers
    with the first hit among the stores [ps]. *)
Definition scans (w : World K V) (k : K) (c : M K V (value V))
    (ps : list loc) : Prop :=
  exists r, c w = Some (r, w) /\ first_hit w k ps r.
End vocabulary.

(** Unfolds one call of [Ref] down to the memory. *)
Ltac run_go :=
  unfold KVMap.Ref, KVMap.ref, KVMap.ref_wrap, KVMap.box_is_nil,
    KVMap.box_init, bind, load_vals, load_box, store_box, alloc_box, call,
    ret; simpl.

(** ** Part II: verification *)

(** *** Running the monad *)

Arguments KVMap.Put : simpl never.
Arguments KVMap.Get : simpl never.
Arguments KVMap.Del : simpl never.
Arguments KVMap.Ref : simpl never.

Section run_lemmas.
Context {K : Type} `{Countable K} {V : Type}.
Implicit Types (w : World K V).

Lemma bind_Some {A B} (c : M K V A) (f : A -> M K V B) w a w1 :
  c w = Some (a, w1) -> bind c f w = f a w1.
Proof. unfold bind. intros ->. reflexivity. Qed.

Lemma bind_ret {A B} (a : A) (f : A -> M K V B) w :
  bind (ret a) f w = f a w.
Proof. reflexivity. Qed.

Lemma bind_assoc {A B C} (c : M K V A) (f : A -> M K V B) (g : B -> M K V C) w :
  bind (bind c f) g w = bind c (fun a => bind (f a) g) w.
Proof. unfold bind. destruct (c w) as [[a w1]|]; reflexivity. Qed.

Lemma put_run p k s w :
  KVMap.put (Some p) k s w = Some (tt, written p k s w).
Proof.
  unfold KVMap.put, bind, load_vals, store_vals, written; simpl.
  destruct (maps w !! p) as [t|] eqn:E; simpl.
  - rewrite E. reflexivity.
  - rewrite lookup_insert_eq. simpl. rewrite insert_insert_eq. reflexivity.
Qed.

Lemma Get_run p k w :
  KVMap.Get (Some p) k w =
  KVMap.unref (map_index (maps w !! p) k) w.
Proof. reflexivity. Qed.

Lemma Get_written p k s w :
  KVMap.Get (Some p) k (written p k s w) = KVMap.unref s (written p k s w).
Proof.
  rewrite Get_run. unfold written at 2; simpl.
  rewrite lookup_insert_eq; simpl. rewrite lookup_insert_eq. reflexivity.
Qed.
End run_lemmas.

(** *** [KVMap]: direct mode *)

Section kvmap_direct.
Context {K : Type} `{Countable K} {V : Type}.
Implicit Types (w : World K V) (k : K) (v u : value V) (p : loc).

Lemma Put_run p k v w :
  KVMap.Put (Some p) k v w = Some (tt, written p k (Raw v) w).
Proof. apply put_run. Qed.

Lemma Del_run p k w :
  exists w1, KVMap.Del (Some p) k w = Some (tt, w1) /\
             map_index (maps w1 !! p) k = Raw None /\
             boxes w1 = boxes w /\ calls w1 = calls w.
Proof.
  unfold KVMap.Del, bind, load_vals, store_vals; simpl.
  destruct (maps w !! p) as [t|] eqn:E; simpl.
  - eexists; split; [reflexivity|]; simpl.
    rewrite lookup_insert_eq; simpl. rewrite lookup_delete_eq. auto.
  - exists w. rewrite E. auto.
Qed.

(** C3. On a non-nil [KVMap], [Get] after [Put k v] returns [v], also
    when [Put] replaces an earlier value; [Get] after [Del k] returns
    nil; and [Get] on a store whose table was never written returns
    nil. *)
Theorem KVMap_Put_Get_Del p k v u w :
  (exists w1, (KVMap.Put (Some p) k v ;; KVMap.Get (Some p) k) w
              = Some (v, w1)) /\
  (exists w1, (KVMap.Put (Some p) k u ;; KVMap.Put (Some p) k v ;;
               KVMap.Get (Some p) k) w = Some (v, w1)) /\
  (exists w1, (KVMap.Put (Some p) k v ;; KVMap.Del (Some p) k ;;
               KVMap.Get (Some p) k) w = Some (None, w1)) /\
  (maps w !! p = None -> KVMap.Get (Some p) k w = Some (None, w)).
Proof.
  repeat split.
  - eexists. erewrite bind_Some by apply Put_run.
    rewrite Get_written. reflexivity.
  - eexists. erewrite bind_Some by apply Put_run.
    erewrite bind_Some by apply Put_run.
    rewrite Get_written. reflexivity.
  - erewrite bind_Some by apply Put_run.
    destruct (Del_run p k (written p k (Raw v) w)) as (w1 & E & Hk & _ & _).
    exists w1. erewrite bind_Some by exact E.
    rewrite Get_run, Hk. reflexivity.
  - intros E. rewrite Get_run, E. reflexivity.
Qed.
End kvmap_direct.

(** A run of C3 on an empty world, with store [7], key [1] and values
    [Some 5] and [Some 9]. *)
Lemma KVMap_Put_Get_Del_witness :
  maps (new_world (K:=nat) (V:=nat)) !! 7 = None /\
  KVMap.Get (Some 7) 1 (new_world (K:=nat) (V:=nat)) = Some (None, new_world).
Proof.
  split; [reflexivity|].
  apply (proj2 (proj2 (proj2
    (KVMap_Put_Get_Del (K:=nat) (V:=nat) 7 1 (Some 5) (Some 9) new_world)))).
  reflexivity.
Defined.

(** *** Nil receivers *)

Section nil_receivers.
Context {K : Type} `{Countable K} {V : Type}.
Implicit Types (w : World K V) (k : K) (v : value V) (p : loc).

Lemma Get_held p k w : KVMap.Get (Some p) k w = Some (held w p k, w).
Proof.
  rewrite Get_run. unfold held.
  destruct (map_index (maps w !! p) k); reflexivity.
Qed.

(** C4. Every operation of [KVMap] and of [KVStores] on a nil receiver
    returns without a panic and leaves the world as it was: [Put], [Del]
    and [Clear] do nothing, [Get] returns nil as on a store that was never
    written, [Values] returns the nil map; [Ref] on a nil [KVMap] calls
    the initialiser once and returns its result. *)
Theorem nil_receiver_noop k v (new : Init V) w :
  KVMap.Put None k v w = Some (tt, w) /\
  KVMap.Get None k w = Some (None, w) /\
  KVMap.Del None k w = Some (tt, w) /\
  KVMap.Clear None w = Some (tt, w) /\
  KVMap.Values None w = Some (None, w) /\
  KVMap.Ref None k new w =
    Some (fn_res new (calls w),
          {| maps := maps w; boxes := boxes w;
             calls := calls w ++ [fn_id new] |}) /\
  KVStores.Put None k v w = Some (tt, w) /\
  KVStores.Get None k w = Some (None, w) /\
  KVStores.Del None k w = Some (tt, w) /\
  (forall p, maps w !! p = None ->
     KVMap.Get (Some p) k w = KVMap.Get None k w /\
     KVStores.Get (Some []) k w = KVStores.Get None k w).
Proof.
  repeat (split; [reflexivity|]).
  intros p E. split; [|reflexivity].
  rewrite Get_held. unfold held. rewrite E. reflexivity.
Qed.
End nil_receivers.

(** C4 at the empty world: store [3] was never written. *)
Lemma nil_receiver_noop_witness :
  KVMap.Get (K:=nat) (V:=nat) (Some 3) 1 new_world = KVMap.Get None 1 new_world.
Proof.
  apply (proj1 (proj2 (proj2 (proj2 (proj2 (proj2 (proj2 (proj2 (proj2 (proj2
    (nil_receiver_noop (K:=nat) (V:=nat) 1 None (mkInit 0 (fun _ => None))
       new_world))))))))) 3 eq_refl)).
Defined.

(** *** [KVMap]: lazy mode, one caller at a time *)

Section kvmap_lazy.
Context {K : Type} `{Countable K} {V : Type}.
Implicit Types (w : World K V) (k : K) (v : value V) (p r : loc).

(** [Ref] on a key whose slot already is the box [r]. *)
Lemma Ref_boxed p k r (new : Init V) w :
  map_index (maps w !! p) k = Boxed r ->
  KVMap.Ref (Some p) k new w =
  match default None (boxes w !! r) with
  | Some x => Some (Some x, w)
  | None =>
      Some (fn_res new (calls w),
            {| maps := maps w;
               boxes := <[r := fn_res new (calls w)]> (boxes w);
               calls := calls w ++ [fn_id new] |})
  end.
Proof.
  intros E. run_go. rewrite E; simpl.
  destruct (boxes w !! r) as [[x|]|] eqn:B; simpl; rewrite ?B; simpl;
    rewrite ?lookup_insert_eq; reflexivity.
Qed.

(** [Ref] on a key whose slot is the plain value [v]: the value moves
    into a new box, and only a nil one is initialised. *)
Lemma Ref_raw p k v (new : Init V) w :
  map_index (maps w !! p) k = Raw v ->
  let r := fresh (dom (boxes w)) in
  let w0 := written p k (Boxed r)
              {| maps := maps w; boxes := <[r:=v]> (boxes w);
                 calls := calls w |} in
  KVMap.Ref (Some p) k new w =
  match v with
  | Some x => Some (Some x, w0)
  | None =>
      Some (fn_res new (calls w),
            {| maps := maps w0;
               boxes := <[r := fn_res new (calls w)]> (boxes w0);
               calls := calls w ++ [fn_id new] |})
  end.
Proof.
  intros E r w0.
  unfold KVMap.Ref, KVMap.ref. rewrite bind_assoc.
  erewrite bind_Some by reflexivity. rewrite E.
  unfold KVMap.ref_wrap. rewrite !bind_assoc.
  erewrite bind_Some by reflexivity. rewrite bind_assoc.
  erewrite bind_Some by apply put_run. fold r. fold w0.
  run_go. rewrite lookup_insert_eq; simpl.
  destruct v as [x|]; simpl; rewrite ?lookup_insert_eq; reflexivity.
Qed.

(** C9. When the key holds nothing and the initialiser returns nil, [Ref]
    returns nil and leaves the key with a box whose value is still nil;
    the next [Ref] on that key invokes the initialiser it is given and
    returns what that one produces. *)
Theorem Ref_nil_not_cached p k (new new2 : Init V) w :
  held w p k = None ->
  fn_res new (calls w) = None ->
  exists w1 r,
    KVMap.Ref (Some p) k new w = Some (None, w1) /\
    calls w1 = calls w ++ [fn_id new] /\
    map_index (maps w1 !! p) k = Boxed r /\
    default None (boxes w1 !! r) = None /\
    exists w2,
      KVMap.Ref (Some p) k new2 w1 = Some (fn_res new2 (calls w1), w2) /\
      calls w2 = calls w ++ [fn_id new; fn_id new2].
Proof.
  intros Hh Hn. unfold held in Hh.
  destruct (map_index (maps w !! p) k) as [v|r] eqn:E; simpl in Hh.
  - subst v. pose proof (Ref_raw p k None new w E) as R.
    cbv beta iota zeta in R. rewrite Hn in R.
    set (r := fresh (dom (boxes w))) in *.
    eexists _, r. split; [exact R|]. unfold written; simpl.
    assert (Hk : map_index (<[p:=<[k:=Boxed r]> (default ∅ (maps w !! p))]>
                              (maps w) !! p) k = Boxed (V:=V) r).
    { rewrite lookup_insert_eq; simpl. rewrite lookup_insert_eq. reflexivity. }
    split; [reflexivity|]. split; [exact Hk|].
    split; [rewrite lookup_insert_eq; reflexivity|].
    eexists. erewrite Ref_boxed by (simpl; exact Hk). simpl.
    rewrite lookup_insert_eq; simpl.
    split; [reflexivity|]. simpl. rewrite <- app_assoc. reflexivity.
  - pose proof (Ref_boxed p k r new w E) as R. rewrite Hh, Hn in R.
    eexists _, r. split; [exact R|]. simpl.
    split; [reflexivity|]. split; [exact E|].
    split; [rewrite lookup_insert_eq; reflexivity|].
    eexists. erewrite Ref_boxed by (simpl; exact E). simpl.
    rewrite lookup_insert_eq; simpl.
    split; [reflexivity|]. simpl. rewrite <- app_assoc. reflexivity.
Qed.
End kvmap_lazy.

(** C9 on the empty world: the first initialiser returns nil, the second
    returns [Some 4]. *)
Lemma Ref_nil_not_cached_witness :
  exists w1 r,
    KVMap.Ref (K:=nat) (V:=nat) (Some 0) 1 (mkInit 0 (fun _ => None)) new_world
      = Some (None, w1) /\
    calls w1 = [0] /\
    map_index (maps w1 !! 0) 1 = Boxed r /\
    default None (boxes w1 !! r) = None /\
    exists w2,
      KVMap.Ref (Some 0) 1 (mkInit 1 (fun _ => Some 4)) w1 = Some (Some 4, w2) /\
      calls w2 = [0; 1].
Proof.
  exact (Ref_nil_not_cached (K:=nat) (V:=nat) 0 1 (mkInit 0 (fun _ => None))
           (mkInit 1 (fun _ => Some 4)) new_world eq_refl eq_refl).
Defined.

(** *** [KVStores] *)

Section fan_out.
Context {K : Type} `{Countable K} {V : Type}.
Implicit Types (w : World K V) (p q : loc).

(** A method [iop] that a list hands on to each of its elements, [op]
    being what it does on a [KVMap]: [Q w p] is what [op] establishes at
    the store [p]. *)
Variable op : option loc -> M K V unit.
Variable iop : KVStore -> M K V unit.
Variable Q : World K V -> loc -> Prop.
Hypothesis iop_map : forall m, iop (KMapPtr m) = op m.
Hypothesis iop_list : forall kvl, iop (KList kvl) = KVStores.each iop (elems kvl).
Hypothesis op_nil : forall w, op None w = Some (tt, w).
Hypothesis op_some :
  forall p w, exists w1, op (Some p) w = Some (tt, w1) /\ Q w1 p /\
                         forall q, Q w q -> Q w1 q.

Lemma each_reaches l :
  Forall (fun s => is_nil s = false -> forall w, reaches Q w (iop s) (leaves s)) l ->
  forall w, reaches Q w (KVStores.each iop l) (List.concat (List.map leaves l)).
Proof.
  unfold reaches.
  induction 1 as [|s l Hs _ IH]; intros w.
  - exists w. repeat split; auto. intros p [].
  - simpl. destruct (is_nil s) eqn:Es.
    + rewrite bind_ret. destruct s; try discriminate. simpl. apply IH.
    + destruct (Hs eq_refl w) as (w1 & E1 & Hk1 & Hl1).
      destruct (IH w1) as (w2 & E2 & Hk2 & Hl2).
      exists w2. erewrite bind_Some by exact E1.
      split; [exact E2|]. split; [auto|].
      intros p Hp. apply in_app_or in Hp as [Hp|Hp]; auto.
Qed.

Lemma iop_reaches s :
  is_nil s = false -> forall w, reaches Q w (iop s) (leaves s).
Proof.
  induction s as [|m|kvl IH] using KVStore_nested_ind; intros Hs w;
    [discriminate| |].
  - rewrite iop_map. destruct m as [p|]; simpl.
    + destruct (op_some p w) as (w1 & E & Hp & Hk).
      exists w1. repeat split; auto. intros ? [<-|[]]. exact Hp.
    + exists w. rewrite op_nil. repeat split; auto. intros ? [].
  - rewrite iop_list.
    destruct kvl as [l|]; simpl in *; [apply each_reaches; exact IH|].
    exists w. repeat split; auto. intros ? [].
Qed.

Lemma list_reaches kvl w :
  reaches Q w (KVStores.each iop (elems kvl)) (leaves (KList kvl)).
Proof.
  rewrite <- iop_list. apply iop_reaches. reflexivity.
Qed.
End fan_out.

Section scan.
Context {K : Type} `{Countable K} {V : Type}.
Implicit Types (w : World K V) (k : K) (p q : loc) (r : value V).

Lemma first_hit_nil w k : first_hit w k [] None.
Proof. intros p []. Qed.

Lemma first_hit_app_l w k ps qs x :
  first_hit w k ps (Some x) -> first_hit w k (ps ++ qs) (Some x).
Proof.
  intros (i & p & Hi & Hp & Hlt). exists i, p.
  pose proof (lookup_lt_Some _ _ _ Hi) as Hlen.
  split; [rewrite lookup_app_l; auto|]. split; [exact Hp|].
  intros j q Hj Hq. rewrite lookup_app_l in Hq by lia. eauto.
Qed.

Lemma first_hit_app_r w k ps qs r :
  first_hit w k ps None -> first_hit w k qs r -> first_hit w k (ps ++ qs) r.
Proof.
  intros Hps Hqs. destruct r as [x|]; simpl in *.
  - destruct Hqs as (i & p & Hi & Hp & Hlt).
    exists (length ps + i), p.
    split; [rewrite lookup_app_r by lia; replace (length ps + i - length ps) with i by lia; exact Hi|].
    split; [exact Hp|].
    intros j q Hj Hq. destruct (decide (j < length ps)) as [Hl|Hl].
    + rewrite lookup_app_l in Hq by exact Hl.
      apply Hps. apply list_elem_of_In. eapply list_elem_of_lookup_2. exact Hq.
    + rewrite lookup_app_r in Hq by lia. apply (Hlt (j - length ps)); [lia|exact Hq].
  - intros p Hp. apply in_app_or in Hp as [Hp|Hp]; auto.
Qed.

Lemma first_scans k l :
  Forall (fun s => is_nil s = false ->
                   forall w, scans w k (KVStores.iGet s k) (leaves s)) l ->
  forall w, scans w k (KVStores.first (fun s => KVStores.iGet s k) l)
              (List.concat (List.map leaves l)).
Proof.
  unfold scans.
  induction 1 as [|s l Hs _ IH]; intros w.
  - exists None. split; [reflexivity|apply first_hit_nil].
  - simpl. destruct (is_nil s) eqn:Es.
    + destruct s; try discriminate. simpl. apply IH.
    + destruct (Hs eq_refl w) as (r & E & Hr).
      erewrite bind_Some by exact E. destruct r as [x|].
      * exists (Some x). split; [reflexivity|]. apply first_hit_app_l, Hr.
      * destruct (IH w) as (r & E2 & Hr2). exists r.
        split; [exact E2|]. apply first_hit_app_r; assumption.
Qed.

Lemma iGet_scans k s :
  is_nil s = false -> forall w, scans w k (KVStores.iGet s k) (leaves s).
Proof.
  induction s as [|m|kvl IH] using KVStore_nested_ind; intros Hs w;
    [discriminate| |].
  - destruct m as [p|]; simpl.
    + exists (held w p k). split; [apply Get_held|].
      destruct (held w p k) as [x|] eqn:E; simpl.
      * exists 0, p. repeat split; auto. intros j q Hj. lia.
      * intros q [<-|[]]. exact E.
    + exists None. split; [reflexivity|apply first_hit_nil].
  - destruct kvl as [l|]; simpl in *; [apply first_scans; exact IH|].
    exists None. split; [reflexivity|apply first_hit_nil].
Qed.
End scan.

Section kvstores.
Context {K : Type} `{Countable K} {V : Type}.
Implicit Types (w : World K V) (k : K) (v : value V) (p q : loc).

Lemma held_written p k (s : slot V) w : held (written p k s w) p k = peek w s.
Proof.
  unfold held, written; simpl. rewrite lookup_insert_eq; simpl.
  rewrite lookup_insert_eq. destruct s; reflexivity.
Qed.

Lemma held_written_ne p q k k' (s : slot V) w :
  p <> q -> held (written p k s w) q k' = held w q k'.
Proof.
  intros Hne. unfold held, written; simpl.
  rewrite lookup_insert_ne by exact Hne. reflexivity.
Qed.

Lemma Put_establishes k v p w :
  exists w1, KVMap.Put (Some p) k v w = Some (tt, w1) /\ held w1 p k = v /\
             forall q, held w q k = v -> held w1 q k = v.
Proof.
  eexists. split; [apply Put_run|]. split; [apply held_written|].
  intros q Hq. destruct (decide (p = q)) as [<-|Hne].
  - apply held_written.
  - rewrite held_written_ne by exact Hne. exact Hq.
Qed.

Lemma Del_establishes k p w :
  exists w1, KVMap.Del (Some p) k w = Some (tt, w1) /\ held w1 p k = None /\
             forall q, held w q k = None -> held w1 q k = None.
Proof.
  unfold KVMap.Del, bind, load_vals, store_vals; simpl.
  destruct (maps w !! p) as [t|] eqn:E; simpl.
  - eexists. split; [reflexivity|]. unfold held; simpl. split.
    + rewrite lookup_insert_eq; simpl. rewrite lookup_delete_eq. reflexivity.
    + intros q Hq. destruct (decide (p = q)) as [<-|Hne].
      * rewrite lookup_insert_eq; simpl. rewrite lookup_delete_eq. reflexivity.
      * rewrite lookup_insert_ne by exact Hne. exact Hq.
  - exists w. split; [reflexivity|].
    split; [unfold held; rewrite E; reflexivity | auto].
Qed.

Lemma iPut_list kvl k v :
  KVStores.iPut (KList kvl) k v
  = KVStores.each (fun s => KVStores.iPut s k v) (elems kvl).
Proof. destruct kvl; reflexivity. Qed.

Lemma iDel_list kvl k :
  KVStores.iDel (V:=V) (KList kvl) k
  = KVStores.each (fun s => KVStores.iDel s k) (elems kvl).
Proof. destruct kvl; reflexivity. Qed.

(** C2. For a list [kvl] of stores and a key [k]: after [Put k v] every
    [KVMap] the list reaches returns [v] from [Get k]; [Get k] returns the
    value of the first store, in scan order, that holds a non-nil one (so
    the first store's value when it has one), and nil when none does; after
    [Del k] every [KVMap] the list reaches returns nil from [Get k]; a nil
    entry is passed over, and the nil list does nothing and returns nil. *)
Theorem KVStores_fan_out (kvl : option (list KVStore)) k v w :
  (exists w1, KVStores.Put kvl k v w = Some (tt, w1) /\
     forall p, In p (leaves (KList kvl)) ->
               KVMap.Get (Some p) k w1 = Some (v, w1)) /\
  (exists r, KVStores.Get kvl k w = Some (r, w) /\
             first_hit w k (leaves (KList kvl)) r) /\
  (forall a rest x, KVMap.Get (Some a) k w = Some (Some x, w) ->
     KVStores.Get (Some (KMapPtr (Some a) :: rest)) k w = Some (Some x, w)) /\
  (exists w1, KVStores.Del kvl k w = Some (tt, w1) /\
     forall p, In p (leaves (KList kvl)) ->
               KVMap.Get (Some p) k w1 = Some (None, w1)) /\
  (forall l, KVStores.Put (Some (KNil :: l)) k v w = KVStores.Put (Some l) k v w /\
             KVStores.Get (Some (KNil :: l)) k w = KVStores.Get (Some l) k w /\
             KVStores.Del (Some (KNil :: l)) k w = KVStores.Del (Some l) k w) /\
  (KVStores.Put None k v w = Some (tt, w) /\
   KVStores.Get None k w = Some (None, w) /\
   KVStores.Del None k w = Some (tt, w)).
Proof.
  split; [|split; [|split; [|split; [|split]]]].
  - destruct (list_reaches (fun m => KVMap.Put m k v)
                (fun s => KVStores.iPut s k v) (fun w p => held w p k = v)
                (fun _ => eq_refl) (fun kvl => iPut_list kvl k v)
                (fun _ => eq_refl) (Put_establishes k v) kvl w)
      as (w1 & E & _ & Hl).
    exists w1. split; [exact E|].
    intros p Hp. rewrite Get_held, (Hl p Hp). reflexivity.
  - destruct kvl as [l|].
    + exact (iGet_scans k (KList (Some l)) eq_refl w).
    + exact (iGet_scans k (KList None) eq_refl w).
  - intros a rest x Ha. unfold KVStores.Get; simpl.
    erewrite bind_Some by exact Ha. reflexivity.
  - destruct (list_reaches (fun m => KVMap.Del m k)
                (fun s => KVStores.iDel s k) (fun w p => held w p k = None)
                (fun _ => eq_refl) (fun kvl => iDel_list kvl k)
                (fun _ => eq_refl) (Del_establishes k) kvl w)
      as (w1 & E & _ & Hl).
    exists w1. split; [exact E|].
    intros p Hp. rewrite Get_held, (Hl p Hp). reflexivity.
  - intros l. repeat split.
  - repeat split.
Qed.

(** C10. A nil value cannot be told from no value: [Get] after
    [Put k nil] returns nil, as it does on a store that was never written,
    and [KVStores.Get] passes over a store whose [Get] returns nil and
    answers from the stores behind it. *)
Theorem nil_value_is_absent p k (rest : list KVStore) w :
  (exists w1, (KVMap.Put (Some p) k None ;; KVMap.Get (Some p) k) w
              = Some (None, w1)) /\
  (maps w !! p = None -> KVMap.Get (Some p) k w = Some (None, w)) /\
  (KVMap.Put (Some p) k None ;;
   KVStores.Get (Some (KMapPtr (Some p) :: rest)) k) w
  = (KVMap.Put (Some p) k None ;; KVStores.Get (Some rest) k) w /\
  (forall s, is_nil s = false -> KVStores.iGet s k w = Some (None, w) ->
     KVStores.Get (Some (s :: rest)) k w = KVStores.Get (Some rest) k w).
Proof.
  split; [|split; [|split]].
  - eexists. erewrite bind_Some by apply Put_run.
    rewrite Get_written. reflexivity.
  - intros E. rewrite Get_held. unfold held. rewrite E. reflexivity.
  - erewrite !bind_Some by apply Put_run.
    unfold KVStores.Get; simpl.
    erewrite bind_Some by (rewrite Get_written; reflexivity). reflexivity.
  - intros s Hs Hg. unfold KVStores.Get; simpl. rewrite Hs.
    erewrite bind_Some by exact Hg. reflexivity.
Qed.
End kvstores.

(** C2 on the list [[A; B]]: store [0] holds [Some 10] and store [1] holds
    [Some 20] under key [5]; [Get] answers with the value of [A]. *)
Lemma KVStores_fan_out_witness :
  let w := written 1 5 (Raw (Some 20)) (written 0 5 (Raw (Some 10)) new_world) in
  KVMap.Get (K:=nat) (V:=nat) (Some 0) 5 w = Some (Some 10, w) /\
  KVMap.Get (Some 1) 5 w = Some (Some 20, w) /\
  KVStores.Get (Some [KMapPtr (Some 0); KMapPtr (Some 1)]) 5 w = Some (Some 10, w).
Proof.
  intros w.
  assert (Ha : KVMap.Get (K:=nat) (V:=nat) (Some 0) 5 w = Some (Some 10, w))
    by (vm_compute; reflexivity).
  split; [exact Ha|]. split; [vm_compute; reflexivity|].
  exact (proj1 (proj2 (proj2
    (KVStores_fan_out (K:=nat) (V:=nat) None 5 None w)))
    0 [KMapPtr (Some 1)] 10 Ha).
Defined.

(** C10 on the empty world: store [0] was never written, store [1] holds
    [Some 8] under key [5]. *)
Lemma nil_value_is_absent_witness :
  let w := written 1 5 (Raw (Some 8)) new_world in
  maps w !! 0 = None /\
  KVMap.Get (K:=nat) (V:=nat) (Some 0) 5 w = Some (None, w) /\
  KVStores.Get (Some [KMapPtr (Some 0); KMapPtr (Some 1)]) 5 w = Some (Some 8, w).
Proof.
  intros w.
  pose proof (nil_value_is_absent (K:=nat) (V:=nat) 0 5 [KMapPtr (Some 1)] w)
    as (_ & Hfresh & _ & Hskip).
  assert (E : maps w !! 0 = None) by (vm_compute; reflexivity).
  split; [exact E|]. split; [exact (Hfresh E)|].
  rewrite (Hskip (KMapPtr (Some 0)) eq_refl (Hfresh E)).
  vm_compute. reflexivity.
Defined.

(** *** Concurrent callers of [KVMap.Ref] *)

Section mutex_lemmas.
Context {A : Type}.
Implicit Types (ths : list A) (h : A -> bool).

Lemma lookup_moved ths i j (c cj : A) :
  <[i:=c]> ths !! j = Some cj ->
  (j = i /\ cj = c) \/ (j <> i /\ ths !! j = Some cj).
Proof.
  intros E. destruct (decide (i = j)) as [->|Hne].
  - left. split; [reflexivity|].
    destruct (decide (j < length ths)) as [Hl|Hl].
    + rewrite list_lookup_insert_eq in E by exact Hl. congruence.
    + rewrite list_insert_ge in E by lia.
      apply lookup_lt_Some in E. lia.
  - right. rewrite list_lookup_insert_ne in E by exact Hne. auto.
Qed.

Lemma lookup_moved_self ths i ci (c : A) :
  ths !! i = Some ci -> <[i:=c]> ths !! i = Some c.
Proof.
  intros E. apply list_lookup_insert_eq. eapply lookup_lt_Some, E.
Qed.

Lemma mutex_acquire h ths i ci c :
  mutex false h ths -> ths !! i = Some ci -> h c = true ->
  mutex true h (<[i:=c]> ths).
Proof.
  intros (Hx & Hh & _) Ei Hc. split; [|split].
  - intros a b ca cb Ea Eb Ha Hb.
    apply lookup_moved in Ea as [[-> ->]|[Na Ea]];
      apply lookup_moved in Eb as [[-> ->]|[Nb Eb]]; auto.
    + specialize (Hh _ _ Eb Hb). discriminate.
    + specialize (Hh _ _ Ea Ha). discriminate.
    + specialize (Hh _ _ Ea Ha). discriminate.
  - reflexivity.
  - intros _. exists i, c. split; [eapply lookup_moved_self, Ei|exact Hc].
Qed.

Lemma mutex_release f h ths i ci c :
  mutex f h ths -> ths !! i = Some ci -> h ci = true -> h c = false ->
  mutex false h (<[i:=c]> ths).
Proof.
  intros (Hx & Hh & _) Ei Hci Hc.
  assert (Hnone : forall j cj, <[i:=c]> ths !! j = Some cj -> h cj = false).
  { intros j cj Ej. apply lookup_moved in Ej as [[-> ->]|[Nj Ej]]; [exact Hc|].
    destruct (h cj) eqn:Hj; [|reflexivity].
    exfalso. apply Nj. exact (Hx _ _ _ _ Ej Ei Hj Hci). }
  split; [|split].
  - intros a b ca cb Ea Eb Ha Hb. rewrite (Hnone _ _ Ea) in Ha. discriminate.
  - intros j cj Ej Hj. rewrite (Hnone _ _ Ej) in Hj. discriminate.
  - discriminate.
Qed.

Lemma mutex_keep f h ths i ci c :
  mutex f h ths -> ths !! i = Some ci -> h c = h ci ->
  mutex f h (<[i:=c]> ths).
Proof.
  intros (Hx & Hh & Ho) Ei Hc. split; [|split].
  - intros a b ca cb Ea Eb Ha Hb.
    apply lookup_moved in Ea as [[-> ->]|[Na Ea]];
      apply lookup_moved in Eb as [[-> ->]|[Nb Eb]]; auto.
    + rewrite Hc in Ha. symmetry. exact (Hx _ _ _ _ Eb Ei Hb Ha).
    + rewrite Hc in Hb. exact (Hx _ _ _ _ Ea Ei Ha Hb).
    + exact (Hx _ _ _ _ Ea Eb Ha Hb).
  - intros j cj Ej Hj.
    apply lookup_moved in Ej as [[-> ->]|[Nj Ej]].
    + rewrite Hc in Hj. exact (Hh _ _ Ei Hj).
    + exact (Hh _ _ Ej Hj).
  - intros Hf. destruct (Ho Hf) as (j & cj & Ej & Hj).
    destruct (decide (j = i)) as [->|Nj].
    + exists i, c. split; [eapply lookup_moved_self, Ei|].
      rewrite Hc. congruence.
    + exists j, cj. split; [|exact Hj].
      rewrite list_lookup_insert_ne by auto. exact Ej.
Qed.

(** The goroutine inside the critical section is the only one there. *)
Lemma mutex_alone f h ths i j ci cj :
  mutex f h ths -> ths !! i = Some ci -> h ci = true ->
  ths !! j = Some cj -> j <> i -> h cj = false.
Proof.
  intros (Hx & _ & _) Ei Hi Ej Nj.
  destruct (h cj) eqn:Hj; [|reflexivity].
  exfalso. apply Nj. exact (Hx _ _ _ _ Ej Ei Hj Hi).
Qed.
Lemma sum_moved (f : A -> nat) ths i ci c :
  ths !! i = Some ci ->
  sum_list (f <$> <[i:=c]> ths) + f ci = sum_list (f <$> ths) + f c.
Proof.
  revert i. induction ths as [|a ths IH]; intros [|i] E; try discriminate.
  - injection E as ->.
    change (<[0:=c]> (ci :: ths)) with (c :: ths).
    rewrite !fmap_cons. simpl. lia.
  - specialize (IH _ E).
    change (<[S i:=c]> (a :: ths)) with (a :: <[i:=c]> ths).
    rewrite !fmap_cons. simpl. lia.
Qed.
Lemma mutex_flag (f f' : bool) h ths :
  f = f' -> mutex f h ths -> mutex f' h ths.
Proof. intros ->. auto. Qed.
End mutex_lemmas.

Section race.
Context {K : Type} `{Countable K} {V : Type}.
Variable p : loc.
Variable k : K.
Variable new : Init V.
Variable c0 : list nat.
Hypothesis new_not_nil : forall l, fn_res new l <> None.

Abbreviation Machine := (Race.Machine (K:=K) (V:=V)).
Abbreviation inv := (Race.inv p k new c0).
Abbreviation step := (Race.step p k new).
Abbreviation key_slot := (Race.key_slot p k).
Abbreviation box_value := (Race.box_value p k).
Implicit Types (s : Machine) (i j : nat) (r : loc).

(** A move of thread [i] that leaves the memory as it is. *)
Lemma inv_local s i ci c f l :
  inv s -> Race.threads s !! i = Some ci ->
  mutex f Race.holds_mu (<[i:=c]> (Race.threads s)) ->
  (forall r, mutex (bool_decide (r ∈ l)) (Race.holds_box r)
               (<[i:=c]> (Race.threads s))) ->
  Race.fits (key_slot s) (box_value s) c ->
  inv {| Race.world := Race.world s; Race.mu := f; Race.locked := l;
         Race.threads := <[i:=c]> (Race.threads s) |}.
Proof.
  intros (Hmu & Hbox & Hfit & Hc0 & Hc1) Ei Hmu' Hbox' Fc.
  split; [exact Hmu'|]. split; [exact Hbox'|].
  split; [|split; [exact Hc0|exact Hc1]].
  intros j cj Ej. simpl in Ej.
  apply lookup_moved in Ej as [[-> ->]|[Nj Ej]]; [exact Fc|].
  exact (Hfit _ _ Ej).
Qed.

Lemma fits_start_next sl bv :
  Race.fits (V:=V) sl bv Race.AtStart -> Race.fits sl bv Race.MuHeld.
Proof. destruct sl; auto. Qed.

Lemma box_value_boxed s r0 :
  key_slot s = Boxed r0 ->
  box_value s = default None (boxes (Race.world s) !! r0).
Proof. unfold Race.box_value. intros ->. reflexivity. Qed.

Lemma box_value_raw s v : key_slot s = Raw v -> box_value s = None.
Proof. unfold Race.box_value. intros ->. reflexivity. Qed.

Lemma step_inv s i s' : inv s -> step i s = Some s' -> inv s'.
Proof.
  intros Hinv Hstep. pose proof Hinv as (Hmu & Hbox & Hfit & Hc0 & Hc1).
  unfold Race.step in Hstep.
  destruct (Race.threads s !! i) as [ci|] eqn:Ei; [|discriminate].
  pose proof (Hfit _ _ Ei) as Fi.
  destruct ci as [| |sl|r|r|r|r|r|r v|v].
  - (* m.mu.Lock() *)
    destruct (Race.mu s) eqn:Emu; [discriminate|].
    injection Hstep as <-. apply (inv_local _ _ _ _ _ _ Hinv Ei).
    + eapply mutex_acquire; eauto.
    + intros r. eapply mutex_keep; eauto.
    + apply fits_start_next, Fi.
  - (* v := m.vals[k] *)
    unfold Race.action, Race.moved, bind, load_vals, ret in Hstep.
    injection Hstep as <-. apply (inv_local _ _ _ _ _ _ Hinv Ei).
    + eapply mutex_keep; eauto.
    + intros r. eapply mutex_keep; eauto.
    + fold (key_slot s). destruct (key_slot s) as [v|r0] eqn:Es; simpl in *.
      * destruct Fi as [-> _]. auto.
      * reflexivity.
  - (* the probe of v, and the new box *)
    unfold Race.action in Hstep.
    destruct (key_slot s) as [v|r0] eqn:Es; simpl in Fi.
    + destruct Fi as [-> ->].
      unfold KVMap.ref_wrap in Hstep.
      erewrite bind_Some in Hstep by reflexivity.
      erewrite bind_Some in Hstep by apply put_run.
      unfold ret, Race.moved in Hstep. injection Hstep as <-.
      set (r := fresh (dom (boxes (Race.world s)))).
      assert (Es' : forall f l ths,
        key_slot {| Race.world := written p k (Boxed r)
                      {| maps := maps (Race.world s);
                         boxes := <[r:=None]> (boxes (Race.world s));
                         calls := calls (Race.world s) |};
                    Race.mu := f; Race.locked := l; Race.threads := ths |}
        = Boxed r).
      { intros. unfold Race.key_slot; simpl.
        rewrite lookup_insert_eq; simpl. rewrite lookup_insert_eq. reflexivity. }
      assert (Eb' : forall f l ths,
        box_value {| Race.world := written p k (Boxed r)
                      {| maps := maps (Race.world s);
                         boxes := <[r:=None]> (boxes (Race.world s));
                         calls := calls (Race.world s) |};
                    Race.mu := f; Race.locked := l; Race.threads := ths |}
        = None).
      { intros. rewrite (box_value_boxed _ r) by apply Es'. simpl.
        rewrite lookup_insert_eq. reflexivity. }
      split; [eapply mutex_keep; eauto|].
      split; [intros r'; eapply mutex_keep; eauto|].
      rewrite Es', Eb'. split; [|split].
      * intros j cj Ej. simpl in Ej.
        apply lookup_moved in Ej as [[-> ->]|[Nj Ej]]; [reflexivity|].
        pose proof (mutex_alone _ _ _ _ _ _ _ Hmu Ei eq_refl Ej Nj) as Hj.
        pose proof (Hfit _ _ Ej) as Fj. rewrite ?Es in Fj.
        destruct cj; simpl in *; try discriminate; tauto.
      * intros _. simpl. apply Hc0. eapply box_value_raw, Es.
      * intros []. reflexivity.
    + subst sl. unfold KVMap.ref_wrap, ret, Race.moved in Hstep.
      injection Hstep as <-. apply (inv_local _ _ _ _ _ _ Hinv Ei).
      * eapply mutex_keep; eauto.
      * intros r'. eapply mutex_keep; eauto.
      * rewrite Es. reflexivity.
  - (* m.mu.Unlock() *)
    injection Hstep as <-. apply (inv_local _ _ _ _ _ _ Hinv Ei).
    + eapply mutex_release; eauto.
    + intros r'. eapply mutex_keep; eauto.
    + destruct (key_slot s); simpl in *; tauto.
  - (* ref.Lock() *)
    destruct (decide (r ∈ Race.locked s)) as [|Hfree]; [discriminate|].
    injection Hstep as <-. apply (inv_local _ _ _ _ _ _ Hinv Ei).
    + eapply mutex_keep; eauto.
    + intros r'. destruct (decide (r' = r)) as [->|Nr].
      * eapply mutex_flag; [|eapply mutex_acquire; eauto].
        -- symmetry. apply bool_decide_eq_true. set_solver.
        -- eapply mutex_flag; [|apply Hbox].
           apply bool_decide_eq_false. exact Hfree.
        -- simpl. apply bool_decide_eq_true. reflexivity.
      * eapply mutex_flag; [|eapply mutex_keep; eauto].
        -- apply bool_decide_ext. set_solver.
        -- simpl. apply bool_decide_eq_false. congruence.
    + destruct (key_slot s); simpl in *; tauto.
  - (* ref.val == nil *)
    unfold Race.action, KVMap.box_is_nil, bind, load_box, ret, Race.moved
      in Hstep.
    injection Hstep as <-.
    destruct (key_slot s) as [v|r0] eqn:Es; simpl in Fi; [tauto|subst r].
    apply (inv_local _ _ _ _ _ _ Hinv Ei).
    + eapply mutex_keep; eauto.
      destruct (default None (boxes (Race.world s) !! r0)); reflexivity.
    + intros r'. eapply mutex_keep; eauto.
      destruct (default None (boxes (Race.world s) !! r0)); reflexivity.
    + rewrite (box_value_boxed _ _ Es), Es.
      destruct (default None (boxes (Race.world s) !! r0)) eqn:Eb; simpl;
        split; congruence.
  - (* ref.val = new() *)
    unfold Race.action, KVMap.box_init, bind, call, store_box, Race.moved
      in Hstep.
    injection Hstep as <-.
    destruct (key_slot s) as [v|r0] eqn:Es; simpl in Fi; [tauto|].
    destruct Fi as [-> Eb]. rewrite (Hc0 Eb).
    assert (Es' : forall f l ths c,
      key_slot {| Race.world := {| maps := maps (Race.world s);
                                   boxes := <[r0:=fn_res new c0]>
                                              (boxes (Race.world s));
                                   calls := c |};
                  Race.mu := f; Race.locked := l; Race.threads := ths |}
      = Boxed r0) by (intros; exact Es).
    assert (Eb' : forall f l ths c,
      box_value {| Race.world := {| maps := maps (Race.world s);
                                    boxes := <[r0:=fn_res new c0]>
                                               (boxes (Race.world s));
                                    calls := c |};
                   Race.mu := f; Race.locked := l; Race.threads := ths |}
      = fn_res new c0).
    { intros. rewrite (box_value_boxed _ r0) by apply Es'. simpl.
      rewrite lookup_insert_eq. reflexivity. }
    split; [eapply mutex_keep; eauto|].
    split; [intros r'; eapply mutex_keep; eauto|].
    rewrite Es', Eb'. split; [|split].
    * intros j cj Ej. simpl in Ej.
      apply lookup_moved in Ej as [[-> ->]|[Nj Ej]];
        [split; [reflexivity|apply new_not_nil]|].
      assert (Hi : Race.holds_box r0 (Race.Tested (V:=V) r0) = true)
        by (apply bool_decide_eq_true; reflexivity).
      pose proof (mutex_alone _ _ _ _ _ _ _ (Hbox r0) Ei Hi Ej Nj) as Hj.
      pose proof (Hfit _ _ Ej) as Fj. rewrite ?Es, ?Eb in Fj.
      destruct cj; simpl in *; try tauto;
        try (apply bool_decide_eq_false in Hj; tauto).
    * intros E. exfalso. exact (new_not_nil _ E).
    * intros _. split; reflexivity.
  - (* return ref.val *)
    unfold Race.action, load_box, Race.moved in Hstep.
    injection Hstep as <-.
    destruct (key_slot s) as [v|r0] eqn:Es; simpl in Fi; [tauto|].
    destruct Fi as [-> Eb].
    apply (inv_local _ _ _ _ _ _ Hinv Ei).
    + eapply mutex_keep; eauto.
    + intros r'. eapply mutex_keep; eauto.
    + rewrite Es. simpl. rewrite (box_value_boxed _ _ Es) in *. auto.
  - (* the deferred ref.Unlock() *)
    injection Hstep as <-. apply (inv_local _ _ _ _ _ _ Hinv Ei).
    + eapply mutex_keep; eauto.
    + intros r'. destruct (decide (r' = r)) as [->|Nr].
      * eapply mutex_flag; [|eapply mutex_release; eauto].
        -- symmetry. apply bool_decide_eq_false. set_solver.
        -- simpl. apply bool_decide_eq_true. reflexivity.
      * eapply mutex_flag; [|eapply mutex_keep; eauto].
        -- apply bool_decide_ext. set_solver.
        -- simpl. symmetry. apply bool_decide_eq_false. congruence.
    + destruct (key_slot s); simpl in *; tauto.
  - discriminate.
Qed.

Abbreviation run := (Race.run p k new).

Lemma run_inv sched s : inv s -> inv (run sched s).
Proof.
  revert s. induction sched as [|i rest IH]; intros s Hinv; [exact Hinv|].
  simpl. apply IH. destruct (step i s) as [s'|] eqn:E; simpl; [|exact Hinv].
  eapply step_inv; eauto.
Qed.

Lemma run_app a b s : run (a ++ b) s = run b (run a s).
Proof. revert s. induction a as [|i a IH]; intros s; simpl; auto. Qed.

Lemma start_inv n (w0 : World K V) :
  maps w0 !! p = None -> calls w0 = c0 -> inv (Race.start n w0).
Proof.
  intros Ep Ec.
  assert (Hth : forall i ci, Race.threads (Race.start n w0) !! i = Some ci ->
                             ci = Race.AtStart).
  { intros i ci E. apply lookup_replicate in E. tauto. }
  assert (Hslot : key_slot (Race.start n w0) = Raw None).
  { unfold Race.key_slot; simpl. rewrite Ep. reflexivity. }
  assert (Hm : forall h, h (Race.AtStart (V:=V)) = false ->
             mutex false h (Race.threads (Race.start n w0))).
  { intros h Hh. split; [|split]; [| |discriminate].
    - intros i j ci cj Ei _ Hi. rewrite (Hth _ _ Ei) in Hi. congruence.
    - intros i ci Ei Hi. rewrite (Hth _ _ Ei) in Hi. congruence. }
  split; [apply Hm; auto|]. split; [intros r; apply Hm; auto|].
  rewrite (box_value_raw _ _ Hslot), Hslot. split; [|split].
  - intros i ci Ei. rewrite (Hth _ _ Ei). simpl. auto.
  - intros _. exact Ec.
  - intros []. reflexivity.
Qed.

(** Once the box of the key holds a value, no action changes the slot,
    the value or the call log. *)
Lemma step_materialized s i s' r x :
  inv s -> step i s = Some s' ->
  key_slot s = Boxed r -> default None (boxes (Race.world s) !! r) = Some x ->
  key_slot s' = Boxed r /\
  default None (boxes (Race.world s') !! r) = Some x /\
  calls (Race.world s') = calls (Race.world s).
Proof.
  intros (_ & _ & Hfit & _ & _) Hstep Es Eb.
  unfold Race.step in Hstep.
  destruct (Race.threads s !! i) as [ci|] eqn:Ei; [|discriminate].
  pose proof (Hfit _ _ Ei) as Fi.
  rewrite (box_value_boxed _ _ Es), Es, Eb in Fi.
  unfold Race.action, Race.moved in Hstep.
  destruct ci as [| |sl|r'|r'|r'|r'|r'|r' v|v]; simpl in Fi.
  - destruct (Race.mu s); [discriminate|]. injection Hstep as <-. auto.
  - injection Hstep as <-. auto.
  - subst sl. injection Hstep as <-. auto.
  - injection Hstep as <-. auto.
  - destruct (decide (r' ∈ Race.locked s)); [discriminate|].
    injection Hstep as <-. auto.
  - injection Hstep as <-. auto.
  - destruct Fi as [_ Fi]. discriminate.
  - injection Hstep as <-. auto.
  - injection Hstep as <-. auto.
  - discriminate.
Qed.

Lemma run_materialized sched s r x :
  inv s -> key_slot s = Boxed r ->
  default None (boxes (Race.world s) !! r) = Some x ->
  key_slot (run sched s) = Boxed r /\
  default None (boxes (Race.world (run sched s)) !! r) = Some x /\
  calls (Race.world (run sched s)) = calls (Race.world s).
Proof.
  revert s. induction sched as [|i rest IH]; intros s Hinv Es Eb; [auto|].
  simpl. destruct (step i s) as [s'|] eqn:E; simpl; [|apply IH; auto].
  destruct (step_materialized _ _ _ _ _ Hinv E Es Eb) as (Es' & Eb' & Ec').
  destruct (IH s' (step_inv _ _ _ Hinv E) Es' Eb') as (? & ? & Ec'').
  repeat split; auto. congruence.
Qed.

(** A goroutine that does not wait for a mutex and has not returned can
    take its next action: no action of [Ref] panics. *)
Lemma step_enabled s i ci :
  Race.threads s !! i = Some ci ->
  match ci with
  | Race.AtStart => Race.mu s = false
  | Race.HasRef r => r ∉ Race.locked s
  | Race.Done _ => False
  | _ => True
  end ->
  exists s', step i s = Some s'.
Proof.
  intros Ei Hc. unfold Race.step. rewrite Ei.
  destruct ci as [| |sl|r|r|r|r|r|r v|v]; try (eexists; reflexivity).
  - rewrite Hc. eexists; reflexivity.
  - unfold Race.action. destruct sl as [v|r]; [|eexists; reflexivity].
    unfold KVMap.ref_wrap. erewrite bind_Some by reflexivity.
    erewrite bind_Some by apply put_run. eexists; reflexivity.
  - destruct (decide (r ∈ Race.locked s)); [tauto|]. eexists; reflexivity.
  - destruct Hc.
Qed.

Lemma holder_enabled s i ci :
  Race.threads s !! i = Some ci ->
  Race.holds_mu ci = true \/ (exists r, Race.holds_box r ci = true) ->
  exists s', step i s = Some s'.
Proof.
  intros Ei Hh. apply (step_enabled _ _ _ Ei).
  destruct ci; auto; destruct Hh as [Hh|[r' Hh]]; discriminate.
Qed.

(** Deadlock freedom. *)
Lemma progress s :
  inv s -> ~ Race.all_done s -> exists i s', step i s = Some s'.
Proof.
  intros (Hmu & Hbox & _) Hnd.
  destruct (Race.mu s) eqn:Emu.
  { destruct Hmu as (_ & _ & Ho). destruct (Ho eq_refl) as (i & ci & Ei & Hi).
    exists i. apply (holder_enabled _ _ _ Ei). auto. }
  apply not_Forall_Exists in Hnd; [|intros c; apply _].
  apply Exists_exists in Hnd as (ci & Hin & Hci).
  apply list_elem_of_lookup in Hin as (i & Ei).
  destruct ci as [| |sl|r|r|r|r|r|r v|v];
    try (exists i; apply (step_enabled _ _ _ Ei); auto; fail).
  - destruct (decide (r ∈ Race.locked s)) as [Hin|Hfree].
    + destruct (Hbox r) as (_ & _ & Ho).
      destruct (Ho (bool_decide_eq_true_2 _ Hin)) as (j & cj & Ej & Hj).
      exists j. apply (holder_enabled _ _ _ Ej). eauto.
    + exists i. apply (step_enabled _ _ _ Ei). exact Hfree.
Qed.

(** Every action brings its goroutine closer to its return. *)
Lemma step_decreases s i s' :
  step i s = Some s' -> Race.total_todo s' < Race.total_todo s.
Proof.
  unfold Race.step, Race.total_todo, Race.action, Race.moved. intros Hstep.
  destruct (Race.threads s !! i) as [ci|] eqn:Ei; [|discriminate].
  assert (Hlt : forall (w : World K V) f l c, Race.todo c < Race.todo ci ->
    sum_list (Race.todo <$> Race.threads
      {| Race.world := w; Race.mu := f; Race.locked := l;
         Race.threads := <[i:=c]> (Race.threads s) |})
    < sum_list (Race.todo <$> Race.threads s)).
  { intros w f l c Hc. simpl. pose proof (sum_moved Race.todo _ _ _ c Ei). lia. }
  destruct ci as [| |sl|r|r|r|r|r|r v|v]; simpl in Hstep.
  - destruct (Race.mu s); [discriminate|]. injection Hstep as <-.
    apply Hlt. simpl. lia.
  - injection Hstep as <-. apply Hlt. simpl. lia.
  - destruct (KVMap.ref_wrap (Some p) k sl (Race.world s)) as [[a w]|];
      [|discriminate].
    injection Hstep as <-. apply Hlt. simpl. lia.
  - injection Hstep as <-. apply Hlt. simpl. lia.
  - destruct (decide (r ∈ Race.locked s)); [discriminate|].
    injection Hstep as <-. apply Hlt. simpl. lia.
  - injection Hstep as <-. apply Hlt.
    destruct (default None (boxes (Race.world s) !! r)); simpl; lia.
  - injection Hstep as <-. apply Hlt. simpl. lia.
  - injection Hstep as <-. apply Hlt. simpl. lia.
  - injection Hstep as <-. apply Hlt. simpl. lia.
  - discriminate.
Qed.

(** Every reachable state can be run to the end: all goroutines return. *)
Lemma completes s : inv s -> exists sched, Race.all_done (run sched s).
Proof.
  remember (Race.total_todo s) as n eqn:En.
  revert s En. induction (lt_wf n) as [n _ IH]; intros s -> Hinv.
  destruct (decide (Race.all_done s)) as [Hd|Hnd]; [exists []; exact Hd|].
  destruct (progress _ Hinv Hnd) as (i & s' & E).
  destruct (IH _ (step_decreases _ _ _ E) s' eq_refl (step_inv _ _ _ Hinv E))
    as (sched & Hs).
  exists (i :: sched). simpl. rewrite E. exact Hs.
Qed.
End race.

Section race_result.
Context {K : Type} `{Countable K} {V : Type}.
Implicit Types (p : loc) (k : K) (new : Init V).

(** C1 (amended). [n] goroutines call [Ref k new] on a store whose table
    was never written, and [new] never returns nil.  In every state a
    schedule leads to: [new] has been called at most once; every call that
    has returned got the result of that one invocation; once the box of the
    key holds a value, further actions change neither the box nor the call
    log; no state is a deadlock, and every state can be run on until all
    [n] calls have returned. *)
Theorem Ref_concurrent_once p k new (n : nat) (w0 : World K V)
    (sched : list nat) :
  maps w0 !! p = None ->
  (forall l, fn_res new l <> None) ->
  let s := Race.run p k new sched (Race.start n w0) in
  (calls (Race.world s) = calls w0 \/
   calls (Race.world s) = calls w0 ++ [fn_id new]) /\
  (forall i v, Race.threads s !! i = Some (Race.Done v) ->
     v = fn_res new (calls w0) /\
     calls (Race.world s) = calls w0 ++ [fn_id new]) /\
  (forall r x more,
     Race.key_slot p k s = Boxed r ->
     default None (boxes (Race.world s) !! r) = Some x ->
     let s' := Race.run p k new more s in
     Race.key_slot p k s' = Boxed r /\
     default None (boxes (Race.world s') !! r) = Some x /\
     calls (Race.world s') = calls (Race.world s)) /\
  ((forall i, Race.step p k new i s = None) -> Race.all_done s) /\
  (exists more, Race.all_done (Race.run p k new more s)).
Proof.
  intros Ep Hnew s.
  assert (Hinv : Race.inv p k new (calls w0) s).
  { apply run_inv; [exact Hnew|]. apply start_inv; auto. }
  pose proof Hinv as (_ & _ & Hfit & Hc0 & Hc1).
  split; [|split; [|split; [|split]]].
  - destruct (Race.box_value p k s) as [x|] eqn:Eb.
    + right. apply Hc1. discriminate.
    + left. apply Hc0. reflexivity.
  - intros i v Ei. pose proof (Hfit _ _ Ei) as Fi.
    destruct (Race.key_slot p k s); simpl in Fi; [tauto|].
    destruct Fi as [-> Hb]. destruct (Hc1 Hb) as [Ec Ev]. auto.
  - intros r x more Es Eb. simpl.
    exact (run_materialized p k new (calls w0) Hnew more s r x Hinv Es Eb).
  - intros Hstuck. destruct (decide (Race.all_done s)) as [Hd|Hnd]; [exact Hd|].
    destruct (progress p k new (calls w0) s Hinv Hnd) as (i & s' & E).
    rewrite Hstuck in E. discriminate.
  - exact (completes p k new (calls w0) Hnew s Hinv).
Qed.
End race_result.

(** C1 as it is written fails for an initialiser that returns nil: two
    goroutines, scheduled in turn, call it twice. *)
Lemma Ref_concurrent_counterexample :
  let new := mkInit (V:=nat) 0 (fun _ => None) in
  let s := Race.run (K:=nat) 0 5 new
             [0;1;0;1;0;1;0;1;0;1;0;1;0;1;0;1;0;1;0;1;0;1;0;1;0;1;0;1]
             (Race.start 2 new_world) in
  Race.threads s = [Race.Done None; Race.Done None] /\
  calls (Race.world s) = [0; 0] /\
  ~ (length (calls (Race.world s)) <= 1).
Proof.
  assert (E : calls (Race.world (Race.run (K:=nat) 0 5
               (mkInit (V:=nat) 0 (fun _ => None))
               [0;1;0;1;0;1;0;1;0;1;0;1;0;1;0;1;0;1;0;1;0;1;0;1;0;1;0;1]
               (Race.start 2 new_world))) = [0; 0])
    by (vm_compute; reflexivity).
  cbv zeta. split; [vm_compute; reflexivity|]. split; [exact E|].
  rewrite E. simpl. lia.
Qed.

(** C1 (amended) with two goroutines, scheduled in turn, and an
    initialiser that returns [Some 7]. *)
Lemma Ref_concurrent_once_witness :
  let new := mkInit (V:=nat) 0 (fun _ => Some 7) in
  let s := Race.run (K:=nat) 0 5 new [0;1;0;1;0;1;0;1;0;1;0;1;0]
             (Race.start 2 new_world) in
  maps (new_world (K:=nat) (V:=nat)) !! 0 = None /\
  (forall l, fn_res new l <> None) /\
  (calls (Race.world s) = [] \/ calls (Race.world s) = [0]) /\
  (exists more, Race.all_done (Race.run 0 5 new more s)).
Proof.
  cbv zeta.
  assert (Hn : forall l : list nat,
             fn_res (mkInit (V:=nat) 0 (fun _ => Some 7)) l <> None)
    by (intros l; discriminate).
  pose proof (Ref_concurrent_once (K:=nat) 0 5 _ 2 new_world
                [0;1;0;1;0;1;0;1;0;1;0;1;0] eq_refl Hn)
    as (Hc & _ & _ & _ & Hmore).
  split; [reflexivity|]. split; [exact Hn|]. split; [exact Hc|exact Hmore].
Defined.

(** *** The codec registry and [NewAgent] *)

Lemma CodecNames_eq : CodecNames = ["cbor"; "json"; "msgpack"].
Proof. vm_compute. reflexivity. Qed.

Lemma CodecNamesStr_eq : CodecNamesStr = Some "cbor, json or msgpack".
Proof. unfold CodecNamesStr. rewrite CodecNames_eq. reflexivity. Qed.

(** Whatever the order in which [range] yields the keys of the registry,
    [sort.Strings] leaves the same list of names. *)
Lemma names_in_any_order (keys : list string) :
  keys ≡ₚ (map_to_list codecHandles).*1 -> names_in keys = CodecNames.
Proof.
  intros Hp. unfold CodecNames, names_in.
  apply (Sorted_unique String.le).
  - apply Sorted_merge_sort; apply _.
  - apply Sorted_merge_sort; apply _.
  - rewrite !merge_sort_Permutation. rewrite Hp. reflexivity.
Qed.

Lemma handle_of_registry (name : string) :
  handle_of codecHandles name =
  if decide (name = "") then Some (JsonHandle 2 true)
  else if decide (name = "msgpack") then Some MsgpackHandle
  else if decide (name = "json") then Some (JsonHandle 2 true)
  else if decide (name = "cbor") then Some CborHandle
  else None.
Proof.
  unfold handle_of, codecHandles.
  rewrite lookup_insert. destruct (decide ("" = name)) as [<-|N0]; [reflexivity|].
  rewrite decide_False by congruence.
  rewrite lookup_insert. destruct (decide ("msgpack" = name)) as [<-|N1]; [reflexivity|].
  rewrite decide_False by congruence.
  rewrite lookup_insert. destruct (decide ("json" = name)) as [<-|N2]; [reflexivity|].
  rewrite decide_False by congruence.
  rewrite lookup_insert. destruct (decide ("cbor" = name)) as [<-|N3]; [reflexivity|].
  rewrite decide_False by congruence.
  reflexivity.
Qed.

Lemma registry_names (name : string) :
  handle_of codecHandles name <> None <-> name ∈ "" :: CodecNames.
Proof.
  rewrite handle_of_registry, CodecNames_eq.
  repeat case_decide; subst; split; intros Hx; try congruence;
    try (set_solver); try discriminate.
Qed.

(** C5. [NewAgent] always returns an agent whose encoder and decoder work
    with a codec.  For a name the registry does not know, the codec is the
    default one and the error reads "Invalid codec", the name, and
    "Expected" followed by the names of the registry, sorted, in the form
    "a, b or c"; for a name the registry knows, the empty one included,
    the error is nil and the codec is the one named. *)
Theorem NewAgent_codec (getenv : string) (cfg : AgentConfig) :
  exists ag err,
    NewAgent getenv cfg = Some (ag, err) /\
    (exists h, handle ag = Some h /\
               enc ag = (stdout ag, Some h) /\ dec ag = (stdin ag, Some h)) /\
    Reader (stdin ag) <> None /\ Writer (stdout ag) <> None /\
    Writer (stderr ag) <> None /\
    sd_closed ag = false /\ wg ag = 0 /\ trace ag = [] /\
    (handle_of codecHandles (Codec cfg) = None ->
       handle ag = handle_of codecHandles DefaultCodec /\
       handle ag = Some (JsonHandle 2 true) /\
       err = Some ("Invalid codec '" +:+ Codec cfg
                   +:+ "'. Expected cbor, json or msgpack")) /\
    (handle_of codecHandles (Codec cfg) <> None ->
       handle ag = handle_of codecHandles (Codec cfg) /\ err = None) /\
    (handle_of codecHandles (Codec cfg) <> None <->
       Codec cfg ∈ ["" ; "cbor"; "json"; "msgpack"]) /\
    (forall keys, keys ≡ₚ (map_to_list codecHandles).*1 ->
       names_in keys = ["cbor"; "json"; "msgpack"]) /\
    CodecNamesStr
    = Some (String.concat ", " ["cbor"; "json"] +:+ " or " +:+ "msgpack").
Proof.
  pose proof (registry_names (Codec cfg)) as Hreg.
  rewrite CodecNames_eq in Hreg.
  unfold NewAgent. rewrite CodecNamesStr_eq.
  destruct (handle_of codecHandles (Codec cfg)) as [h|] eqn:Eh.
  - eexists _, _. split; [reflexivity|]. simpl.
    split; [exists h; auto|].
    do 6 (split; [try discriminate; reflexivity|]).
    split; [discriminate|]. split; [auto|].
    split; [exact Hreg|].
    split; [|reflexivity].
    intros keys Hk. rewrite <- CodecNames_eq. apply names_in_any_order, Hk.
  - eexists _, _. split; [reflexivity|]. simpl.
    split; [eexists; split; [reflexivity|auto]|].
    do 6 (split; [try discriminate; reflexivity|]).
    split; [auto|]. split; [intros []; reflexivity|].
    split; [exact Hreg|].
    split; [|reflexivity].
    intros keys Hk. rewrite <- CodecNames_eq. apply names_in_any_order, Hk.
Qed.

(** C5 for the codec name yaml. *)
Lemma NewAgent_codec_witness :
  exists ag,
    NewAgent "" {| AgentName := "margo"; Codec := "yaml"; Stdin := None;
                   Stdout := None; Stderr := None |}
    = Some (ag, Some "Invalid codec 'yaml'. Expected cbor, json or msgpack") /\
    handle ag = Some (JsonHandle 2 true).
Proof.
  destruct (NewAgent_codec "" {| AgentName := "margo"; Codec := "yaml";
                                 Stdin := None; Stdout := None; Stderr := None |})
    as (ag & err & E & _ & _ & _ & _ & _ & _ & _ & Hbad & _).
  destruct (Hbad eq_refl) as (_ & Hh & ->).
  exists ag. split; [exact E|exact Hh].
Defined.

(** *** The response projection *)

(** C8. [finalize] returns a projection exactly when the response has a
    state with a view, and the projection that [send] encodes carries that
    view when its [changed] count is not zero and no view when it is. *)
Theorem finalize_view (Format : Z -> string) (EditorConfig : string -> string)
    (rs : agentRes) :
  (forall st vw, res_State rs = Some st -> st_View st = Some vw ->
     exists out, agentRes.finalize Format EditorConfig rs = Some out) /\
  (forall encoded ag err ag',
     Agent.send Format EditorConfig encoded rs ag = Some (err, ag') ->
     exists out st vw,
       trace ag' = trace ag ++ [Encode out; Flush] /\
       agentRes.finalize Format EditorConfig rs = Some out /\
       res_State rs = Some st /\ st_View st = Some vw /\
       (changed vw <> 0%Z -> st_View (out_State out) = Some vw) /\
       (changed vw = 0%Z -> st_View (out_State out) = None)).
Proof.
  split.
  - intros st vw Es Ev. unfold agentRes.finalize. rewrite Es, Ev. eauto.
  - intros encoded ag err ag' Hs. unfold Agent.send in Hs.
    destruct (agentRes.finalize Format EditorConfig rs) as [out|] eqn:Ef;
      [|discriminate].
    injection Hs as <- <-. unfold agentRes.finalize in Ef.
    destruct (res_State rs) as [st|]; [|discriminate].
    destruct (st_View st) as [vw|] eqn:Ev; [|discriminate].
    injection Ef as <-. eexists _, st, vw. simpl.
    split; [reflexivity|]. split; [reflexivity|].
    split; [reflexivity|]. split; [exact Ev|]. split.
    + intros Hc. apply Z.eqb_neq in Hc. rewrite Hc. reflexivity.
    + intros ->. reflexivity.
Qed.

(** C8 on a state whose view did not change, and on one whose view
    changed once. *)
Lemma finalize_view_witness :
  let st c := {| Errors := []; clientActions := []; Profiles := [];
                 st_View := Some {| changed := c; content := "v" |};
                 Config := None |} in
  let rs c := {| Cookie := "c1"; Error := ""; res_State := Some (st c) |} in
  (exists out, agentRes.finalize (fun _ => "t") id (rs 0%Z) = Some out /\
               st_View (out_State out) = None) /\
  (exists out, agentRes.finalize (fun _ => "t") id (rs 1%Z) = Some out /\
               st_View (out_State out) = Some {| changed := 1; content := "v" |}).
Proof.
  cbv zeta. split.
  - destruct (proj1 (finalize_view (fun _ => "t") id
       {| Cookie := "c1"; Error := "";
          res_State := Some {| Errors := []; clientActions := []; Profiles := [];
                               st_View := Some {| changed := 0; content := "v" |};
                               Config := None |} |}) _ _ eq_refl eq_refl)
      as (out & E).
    exists out. split; [exact E|]. injection E as <-. reflexivity.
  - eexists. split; reflexivity.
Defined.

(** *** The decode loop and [Run] *)

Section run_loop.
Variable env : Step -> Outcome.

Lemma handleReq_keeps rq ag :
  wg (Agent.handleReq rq ag) = wg ag /\
  sd_closed (Agent.handleReq rq ag) = sd_closed ag /\
  trace (Agent.handleReq rq ag) = trace ag ++ [SyncRq rq].
Proof. destruct ag; simpl; auto. Qed.

(** The loop returns at the first failed [Decode], and only there. *)
Lemma loop_returns ins ag :
  match fst (Agent.loop ins ag) with
  | Pending => exists rqs, ins = Req <$> rqs
  | Returned err =>
      exists rqs e rest,
        ins = (Req <$> rqs) ++ Fail e :: rest /\
        err = if is_EOF e then None else Some ("ipc.decode: " +:+ message e)
  | Panic => False
  end.
Proof.
  revert ag. induction ins as [|[rq|e] ins IH]; intros ag; simpl.
  - exists []. reflexivity.
  - specialize (IH (Agent.handleReq rq (emit [PropsFinalize rq] ag))).
    destruct (fst (Agent.loop ins _)) as [|err|].
    + destruct IH as (rqs & ->). exists (rq :: rqs). reflexivity.
    + destruct IH as (rqs & e & rest & -> & ->).
      exists (rq :: rqs), e, rest. auto.
    + exact IH.
  - exists [], e, ins. auto.
Qed.

Lemma loop_at_failure rqs e rest ag :
  fst (Agent.loop ((Req <$> rqs) ++ Fail e :: rest) ag)
  = Returned (if is_EOF e then None else Some ("ipc.decode: " +:+ message e)).
Proof.
  revert ag. induction rqs as [|rq rqs IH]; intros ag; simpl; auto.
Qed.

Lemma loop_keeps ins ag :
  wg (snd (Agent.loop ins ag)) = wg ag /\
  sd_closed (snd (Agent.loop ins ag)) = sd_closed ag.
Proof.
  revert ag. induction ins as [|[rq|e] ins IH]; intros ag; simpl; auto.
  destruct (IH (Agent.handleReq rq (emit [PropsFinalize rq] ag))) as [-> ->].
  destruct (handleReq_keeps rq (emit [PropsFinalize rq] ag)) as (-> & -> & _).
  auto.
Qed.

Lemma emit_trace es ag : trace (emit es ag) = trace ag ++ es.
Proof. destruct ag; reflexivity. Qed.

Lemma emit_keeps es ag :
  wg (emit es ag) = wg ag /\ sd_closed (emit es ag) = sd_closed ag.
Proof. destruct ag; auto. Qed.

Lemma loop_trace ins ag :
  trace (snd (Agent.loop ins ag))
  = trace ag ++ (decoded_before ins ≫= handled).
Proof.
  revert ag. induction ins as [|[rq|e] ins IH]; intros ag; simpl.
  - rewrite app_nil_r. reflexivity.
  - rewrite IH. destruct (handleReq_keeps rq (emit [PropsFinalize rq] ag))
      as (_ & _ & ->).
    rewrite emit_trace, <- !app_assoc. reflexivity.
  - rewrite app_nil_r. reflexivity.
Qed.

Lemma decoded_before_requests rqs tail :
  (tail = [] \/ exists e rest, tail = Fail e :: rest) ->
  decoded_before ((Req <$> rqs) ++ tail) = rqs.
Proof.
  intros Ht. induction rqs as [|rq rqs IH].
  - destruct Ht as [->|(e & rest & ->)]; reflexivity.
  - rewrite fmap_cons. simpl. f_equal. exact IH.
Qed.

Lemma shutdown_runs ag :
  sd_closed ag = false -> wg ag = 0 ->
  Agent.shutdown env ag = (true, emit (Agent.shutdown_events env) (set_closed true ag)).
Proof.
  intros Ec Ew. unfold Agent.shutdown. rewrite Ec.
  destruct ag; simpl in *. subst. unfold emit; simpl.
  rewrite <- !app_assoc. reflexivity.
Qed.
End run_loop.





(** *** Concurrent callers of [Agent.shutdown] *)

Section halt.
Variable env : Step -> Outcome.

Abbreviation hstep := (Halt.step env).
Abbreviation hrun := (Halt.run env).
Implicit Types (s : Halt.Machine) (i j : nat) (ag : Agent).

Lemma steps_of_app es es' :
  Agent.steps_of (es ++ es') = Agent.steps_of es ++ Agent.steps_of es'.
Proof. unfold Agent.steps_of. apply omap_app. Qed.

Lemma fits_same ag ag' c :
  sd_closed ag' = sd_closed ag ->
  Agent.steps_of (trace ag') = Agent.steps_of (trace ag) ->
  Halt.fits ag c -> Halt.fits ag' c.
Proof. intros Ec Et. destruct c; simpl; rewrite ?Ec, ?Et; auto. Qed.

(** A move of thread [i] that changes neither the flag nor the deferred
    calls made, and keeps the count of the requests in flight. *)
Lemma hinv_local s i ci c f ag :
  Halt.inv s -> Halt.threads s !! i = Some ci ->
  sd_closed ag = sd_closed (Halt.agent s) ->
  Agent.steps_of (trace ag) = Agent.steps_of (trace (Halt.agent s)) ->
  mutex f Halt.holds_mu (<[i:=c]> (Halt.threads s)) ->
  Halt.fits ag c ->
  (forall rest, ci = Halt.SUnwind rest ->
     (exists rest', c = Halt.SUnwind rest') \/
     Agent.steps_of (trace ag) = Agent.unwinding) ->
  wg ag + Halt.in_flight ci = wg (Halt.agent s) + Halt.in_flight c ->
  Halt.inv {| Halt.agent := ag; Halt.sd_mu := f;
              Halt.threads := <[i:=c]> (Halt.threads s) |}.
Proof.
  intros (Hmu & Hfit & H0 & H1 & Hwg) Ei Ec Et Hmu' Fc Hun Hw.
  split; [exact Hmu'|]. simpl. split; [|split; [|split]].
  - intros j cj Ej. apply lookup_moved in Ej as [[-> ->]|[Nj Ej]]; [exact Fc|].
    eapply fits_same; eauto.
  - rewrite Ec, Et. exact H0.
  - rewrite Ec, Et. intros E. destruct (H1 E) as [|(j & rest & Ej)]; [auto|].
    destruct (decide (j = i)) as [->|Nj].
    + rewrite Ei in Ej. injection Ej as ->.
      destruct (Hun rest eq_refl) as [(rest' & ->)|Hd].
      * right. exists i, rest'. eapply lookup_moved_self, Ei.
      * left. rewrite <- Et. exact Hd.
    + right. exists j, rest. rewrite list_lookup_insert_ne by auto. exact Ej.
  - pose proof (sum_moved Halt.in_flight _ _ _ c Ei). lia.
Qed.

Lemma steps_full_no_more es st rest :
  Agent.steps_of es = Agent.unwinding ->
  Agent.steps_of es ++ st :: rest = Agent.unwinding -> False.
Proof.
  intros -> E. apply (f_equal length) in E.
  rewrite length_app in E. simpl in E. lia.
Qed.

Lemma hstep_inv s i s' : Halt.inv s -> hstep i s = Some s' -> Halt.inv s'.
Proof.
  intros Hinv Hstep. pose proof Hinv as (Hmu & Hfit & H0 & H1 & Hwg).
  unfold Halt.step in Hstep.
  destruct (Halt.threads s !! i) as [ci|] eqn:Ei; [|discriminate].
  pose proof (Hfit _ _ Ei) as Fi.
  destruct ci as [| | |todo| | |rq|rq| |]; unfold Halt.moved in Hstep.
  - (* sd.mu.Lock() *)
    destruct (Halt.sd_mu s) eqn:Emu; [discriminate|].
    injection Hstep as <-.
    apply (hinv_local _ _ _ _ _ _ Hinv Ei); auto; try discriminate.
    eapply mutex_acquire; eauto.
  - (* if sd.closed *)
    injection Hstep as <-.
    apply (hinv_local _ _ _ _ _ _ Hinv Ei); auto; try discriminate.
    + eapply mutex_keep; eauto. destruct (sd_closed (Halt.agent s)); reflexivity.
    + destruct (sd_closed (Halt.agent s)) eqn:Ec; simpl; [|exact Ec].
      split; [exact Ec|].
      destruct (H1 eq_refl) as [Hd|(j & rest & Ej)]; [exact Hd|].
      assert (j = i) as -> by
        (destruct Hmu as (Hx & _); exact (Hx _ _ _ _ Ej Ei eq_refl eq_refl)).
      congruence.
    + destruct (sd_closed (Halt.agent s)); simpl; lia.
  - (* sd.closed = true, and the defer statements *)
    injection Hstep as <-. simpl in Fi.
    split; [eapply mutex_keep; eauto|]. simpl.
    assert (Hc : sd_closed (set_closed true (Halt.agent s)) = true)
      by (destruct (Halt.agent s); reflexivity).
    assert (Ht : trace (set_closed true (Halt.agent s)) = trace (Halt.agent s))
      by (destruct (Halt.agent s); reflexivity).
    assert (Hw : wg (set_closed true (Halt.agent s)) = wg (Halt.agent s))
      by (destruct (Halt.agent s); reflexivity).
    split; [|split; [|split]].
    + intros j cj Ej. apply lookup_moved in Ej as [[-> ->]|[Nj Ej]].
      * simpl. rewrite ?Hc, ?Ht, (H0 Fi). auto.
      * pose proof (mutex_alone _ _ _ _ _ _ _ Hmu Ei eq_refl Ej Nj) as Hj.
        pose proof (Hfit _ _ Ej) as Fj.
        destruct cj; simpl in *; try discriminate; auto.
        destruct Fj as [Fj _]. congruence.
    + rewrite ?Hc. discriminate.
    + intros _. right. exists i, Agent.unwinding.
      eapply lookup_moved_self, Ei.
    + rewrite ?Hw. pose proof (sum_moved Halt.in_flight _ _ _
                                (Halt.SUnwind Agent.unwinding) Ei).
      simpl in *. lia.
  - destruct todo as [|st rest].
    + (* the last deferred call has returned *)
      injection Hstep as <-. simpl in Fi. destruct Fi as [Fc Fs].
      rewrite app_nil_r in Fs.
      apply (hinv_local _ _ _ _ _ _ Hinv Ei); auto.
      * eapply mutex_keep; eauto.
      * simpl. auto.
    + (* one deferred call *)
      destruct (Agent.exec env st (Halt.agent s)) as [ag'|] eqn:Ex;
        [|discriminate].
      injection Hstep as <-. simpl in Fi. destruct Fi as [Fc Fs].
      assert (Hag : ag' = emit [Did st (env st)] (Halt.agent s)).
      { unfold Agent.exec in Ex.
        destruct st; try (injection Ex as <-; reflexivity).
        destruct (Nat.eqb (wg (Halt.agent s)) 0); [|discriminate].
        injection Ex as <-. reflexivity. }
      assert (Hc : sd_closed ag' = true)
        by (subst ag'; destruct (Halt.agent s); exact Fc).
      assert (Ht : Agent.steps_of (trace ag')
                   = Agent.steps_of (trace (Halt.agent s)) ++ [st]).
      { subst ag'. destruct (Halt.agent s); simpl.
        rewrite steps_of_app. reflexivity. }
      assert (Hw : wg ag' = wg (Halt.agent s))
        by (subst ag'; destruct (Halt.agent s); reflexivity).
      clear Hag Ex.
      split; [eapply mutex_keep; eauto|]. simpl.
      split; [|split; [|split]].
      * intros j cj Ej. apply lookup_moved in Ej as [[-> ->]|[Nj Ej]].
        -- simpl. rewrite ?Hc, ?Ht, <- app_assoc. auto.
        -- pose proof (mutex_alone _ _ _ _ _ _ _ Hmu Ei eq_refl Ej Nj) as Hj.
           pose proof (Hfit _ _ Ej) as Fj.
           destruct cj; simpl in *; try discriminate; auto.
           destruct Fj as [_ Fj]. exfalso.
           eapply steps_full_no_more; eauto.
      * rewrite ?Hc. discriminate.
      * intros _. right. exists i, rest. eapply lookup_moved_self, Ei.
      * rewrite ?Hw. pose proof (sum_moved Halt.in_flight _ _ _
                                  (Halt.SUnwind rest) Ei).
        simpl in *. lia.
  - (* sd.mu.Unlock() *)
    injection Hstep as <-.
    apply (hinv_local _ _ _ _ _ _ Hinv Ei); auto; try discriminate.
    eapply mutex_release; eauto.
  - discriminate.
  - (* wg.Add(1) *)
    injection Hstep as <-.
    apply (hinv_local _ _ _ _ _ _ Hinv Ei); try discriminate;
      try (eapply mutex_keep; eauto; fail);
      try (destruct (Halt.agent s); simpl; first [reflexivity|lia]); auto.
  - (* syncRq *)
    injection Hstep as <-.
    apply (hinv_local _ _ _ _ _ _ Hinv Ei); try discriminate;
      try (eapply mutex_keep; eauto; fail);
      try (destruct (Halt.agent s); simpl; first [reflexivity|lia]); auto.
    destruct (Halt.agent s); simpl. rewrite steps_of_app. simpl.
    apply app_nil_r.
  - (* wg.Done() *)
    injection Hstep as <-.
    pose proof (sum_moved Halt.in_flight _ _ _ Halt.HDone Ei) as Hs.
    simpl in Hs.
    apply (hinv_local _ _ _ _ _ _ Hinv Ei); try discriminate;
      try (eapply mutex_keep; eauto; fail);
      try (destruct (Halt.agent s); simpl in *; first [reflexivity|lia]); auto.
  - discriminate.
Qed.

Lemma hrun_inv sched s : Halt.inv s -> Halt.inv (hrun sched s).
Proof.
  revert s. induction sched as [|i rest IH]; intros s Hinv; [exact Hinv|].
  simpl. apply IH. destruct (hstep i s) as [s'|] eqn:E; simpl; [|exact Hinv].
  eapply hstep_inv; eauto.
Qed.

Lemma start_threads callers rqs ag i c :
  Halt.threads (Halt.start callers rqs ag) !! i = Some c ->
  c = Halt.SStart \/ exists rq, c = Halt.HStart rq.
Proof.
  simpl. intros E. apply lookup_app_Some in E as [E|[_ E]].
  - apply lookup_replicate in E. tauto.
  - rewrite list_lookup_fmap in E.
    destruct (rqs !! _) as [rq|]; [|discriminate]. injection E as <-. eauto.
Qed.

Lemma sum_zero {A} (f : A -> nat) (l : list A) :
  (forall i c, l !! i = Some c -> f c = 0) -> sum_list (f <$> l) = 0.
Proof.
  induction l as [|a l IH]; intros Hl; [reflexivity|].
  rewrite fmap_cons. simpl. rewrite (Hl 0 a eq_refl), IH; [reflexivity|].
  intros i c E. exact (Hl (S i) c E).
Qed.

Lemma sum_zero_each {A} (f : A -> nat) (l : list A) :
  sum_list (f <$> l) = 0 -> forall i c, l !! i = Some c -> f c = 0.
Proof.
  induction l as [|a l IH]; intros Hs i c E; [discriminate|].
  rewrite fmap_cons in Hs. simpl in Hs.
  destruct i as [|i]; [injection E as <-; lia|].
  apply (IH ltac:(lia) i c E).
Qed.

Lemma sum_positive {A} (f : A -> nat) (l : list A) :
  sum_list (f <$> l) <> 0 -> exists i c, l !! i = Some c /\ f c <> 0.
Proof.
  induction l as [|a l IH]; [intros []; reflexivity|].
  rewrite fmap_cons. simpl. intros Hs.
  destruct (decide (f a = 0)) as [Ha|Ha].
  - destruct IH as (i & c & E & Hc); [lia|]. exists (S i), c. auto.
  - exists 0, a. auto.
Qed.

Lemma hstart_inv callers rqs ag :
  sd_closed ag = false -> wg ag = 0 -> Agent.steps_of (trace ag) = [] ->
  Halt.inv (Halt.start callers rqs ag).
Proof.
  intros Ec Ew Et.
  pose proof (start_threads callers rqs ag) as Hth.
  assert (Hno : forall i c, Halt.threads (Halt.start callers rqs ag) !! i = Some c ->
                            Halt.holds_mu c = false /\ Halt.in_flight c = 0 /\
                            Halt.fits ag c).
  { intros i c E. destruct (Hth _ _ E) as [->|(rq & ->)]; simpl; auto. }
  split; [|split; [|split; [|split]]].
  - split; [|split]; [| |discriminate].
    + intros i j ci cj Ei _ Hi. destruct (Hno _ _ Ei) as [Hh _]. congruence.
    + intros i ci Ei Hi. destruct (Hno _ _ Ei) as [Hh _]. congruence.
  - intros i ci Ei. apply (Hno _ _ Ei).
  - intros _. exact Et.
  - simpl. rewrite Ec. discriminate.
  - simpl. rewrite Ew. symmetry. apply sum_zero.
    intros i c E. apply (Hno _ _ E).
Qed.

(** A goroutine keeps calling the function it called. *)
Lemma hstep_kind s i s' j :
  hstep i s = Some s' ->
  Halt.is_caller <$> (Halt.threads s' !! j)
  = Halt.is_caller <$> (Halt.threads s !! j).
Proof.
  unfold Halt.step, Halt.moved. intros Hstep.
  destruct (Halt.threads s !! i) as [ci|] eqn:Ei; [|discriminate].
  assert (Hk : forall ag f c, Halt.is_caller c = Halt.is_caller ci ->
    Halt.is_caller <$> (Halt.threads
       {| Halt.agent := ag; Halt.sd_mu := f;
          Halt.threads := <[i:=c]> (Halt.threads s) |} !! j)
    = Halt.is_caller <$> (Halt.threads s !! j)).
  { intros ag f c Hc. simpl. destruct (decide (i = j)) as [<-|Nj].
    - rewrite (lookup_moved_self _ _ _ _ Ei), Ei. simpl. congruence.
    - rewrite list_lookup_insert_ne by exact Nj. reflexivity. }
  destruct ci as [| | |todo| | |rq|rq| |].
  - destruct (Halt.sd_mu s); [discriminate|]. injection Hstep as <-. auto.
  - injection Hstep as <-. apply Hk.
    destruct (sd_closed (Halt.agent s)); reflexivity.
  - injection Hstep as <-. auto.
  - destruct todo as [|st rest]; [injection Hstep as <-; auto|].
    destruct (Agent.exec env st (Halt.agent s)); [|discriminate].
    injection Hstep as <-. auto.
  - injection Hstep as <-. auto.
  - discriminate.
  - injection Hstep as <-. auto.
  - injection Hstep as <-. auto.
  - injection Hstep as <-. auto.
  - discriminate.
Qed.

Lemma hrun_kind sched s j :
  Halt.is_caller <$> (Halt.threads (hrun sched s) !! j)
  = Halt.is_caller <$> (Halt.threads s !! j).
Proof.
  revert s. induction sched as [|i rest IH]; intros s; [reflexivity|].
  simpl. rewrite IH. destruct (hstep i s) as [s'|] eqn:E; simpl; [|reflexivity].
  eapply hstep_kind, E.
Qed.

(** A goroutine that waits neither for [sd.mu] nor for the wait group,
    and has not returned, can take its next action. *)
Lemma hstep_enabled s i ci :
  Halt.threads s !! i = Some ci ->
  match ci with
  | Halt.SStart => Halt.sd_mu s = false
  | Halt.SUnwind (WgWait :: _) => wg (Halt.agent s) = 0
  | Halt.SDone | Halt.HDone => False
  | _ => True
  end ->
  exists s', hstep i s = Some s'.
Proof.
  intros Ei Hc. unfold Halt.step. rewrite Ei.
  destruct ci as [| | |todo| | |rq|rq| |]; try (eexists; reflexivity).
  - rewrite Hc. eexists; reflexivity.
  - destruct todo as [|st rest]; [eexists; reflexivity|].
    unfold Agent.exec. destruct st; try (eexists; reflexivity).
    rewrite Hc. eexists; reflexivity.
  - destruct Hc.
  - destruct Hc.
Qed.

(** Deadlock freedom. *)
Lemma hprogress s :
  Halt.inv s -> ~ Halt.all_done s -> exists i s', hstep i s = Some s'.
Proof.
  intros (Hmu & _ & _ & _ & Hwg) Hnd.
  assert (Hflight : wg (Halt.agent s) <> 0 -> exists i s', hstep i s = Some s').
  { intros Hw. rewrite Hwg in Hw.
    apply sum_positive in Hw as (j & cj & Ej & Hj).
    exists j. apply (hstep_enabled _ _ _ Ej).
    destruct cj; simpl in *; auto; congruence. }
  destruct (Halt.sd_mu s) eqn:Emu.
  { destruct Hmu as (_ & _ & Ho). destruct (Ho eq_refl) as (i & ci & Ei & Hi).
    destruct (decide (wg (Halt.agent s) = 0)) as [Hw|Hw]; [|auto].
    exists i. apply (hstep_enabled _ _ _ Ei).
    destruct ci as [| | |[|[] ?]| | | | | |]; simpl in *; auto; discriminate. }
  apply not_Forall_Exists in Hnd; [|intros c; apply _].
  apply Exists_exists in Hnd as (ci & Hin & Hci).
  apply list_elem_of_lookup in Hin as (i & Ei).
  assert (Hh : Halt.holds_mu ci = false).
  { destruct (Halt.holds_mu ci) eqn:Hh; [|reflexivity].
    destruct Hmu as (_ & Hheld & _). specialize (Hheld _ _ Ei Hh).
    congruence. }
  exists i. apply (hstep_enabled _ _ _ Ei).
  destruct ci; simpl in *; auto; congruence.
Qed.

Lemma hstep_decreases s i s' :
  hstep i s = Some s' -> Halt.total_todo s' < Halt.total_todo s.
Proof.
  unfold Halt.step, Halt.total_todo, Halt.moved. intros Hstep.
  destruct (Halt.threads s !! i) as [ci|] eqn:Ei; [|discriminate].
  assert (Hlt : forall ag f c, Halt.todo c < Halt.todo ci ->
    sum_list (Halt.todo <$> Halt.threads
      {| Halt.agent := ag; Halt.sd_mu := f;
         Halt.threads := <[i:=c]> (Halt.threads s) |})
    < sum_list (Halt.todo <$> Halt.threads s)).
  { intros ag f c Hc. simpl. pose proof (sum_moved Halt.todo _ _ _ c Ei). lia. }
  destruct ci as [| | |todo| | |rq|rq| |].
  - destruct (Halt.sd_mu s); [discriminate|]. injection Hstep as <-.
    apply Hlt. simpl. lia.
  - injection Hstep as <-. apply Hlt.
    destruct (sd_closed (Halt.agent s)); simpl; lia.
  - injection Hstep as <-. apply Hlt. simpl. lia.
  - destruct todo as [|st rest].
    + injection Hstep as <-. apply Hlt. simpl. lia.
    + destruct (Agent.exec env st (Halt.agent s)); [|discriminate].
      injection Hstep as <-. apply Hlt. simpl. lia.
  - injection Hstep as <-. apply Hlt. simpl. lia.
  - discriminate.
  - injection Hstep as <-. apply Hlt. simpl. lia.
  - injection Hstep as <-. apply Hlt. simpl. lia.
  - injection Hstep as <-. apply Hlt. simpl. lia.
  - discriminate.
Qed.

Lemma hcompletes s : Halt.inv s -> exists sched, Halt.all_done (hrun sched s).
Proof.
  remember (Halt.total_todo s) as n eqn:En.
  revert s En. induction (lt_wf n) as [n _ IH]; intros s -> Hinv.
  destruct (decide (Halt.all_done s)) as [Hd|Hnd]; [exists []; exact Hd|].
  destruct (hprogress _ Hinv Hnd) as (i & s' & E).
  destruct (IH _ (hstep_decreases _ _ _ E) s' eq_refl (hstep_inv _ _ _ Hinv E))
    as (sched & Hs).
  exists (i :: sched). simpl. rewrite E. exact Hs.
Qed.
End halt.

(** C7. Goroutines call [shutdown] while others are inside [handleReq],
    on an agent that was not shut down before; each deferred call ends as
    [env] says (well, with an error, or with a panic).  In every state a
    schedule leads to, the deferred calls made so far are a beginning of
    the list: close the input, wait for the requests in flight, dispatch
    the shutdown action, close the output, close the channel.  As soon as
    one call of [shutdown] has returned the five have been made, each
    once and in that order; no state is a deadlock, and every state can be
    run on until all goroutines have returned.  The second call waits: the
    counter is the number of goroutines between [wg.Add(1)] and
    [wg.Done()], and [wg.Wait()] is made only in a state where it is zero
    and no request is in flight; until then the goroutine stays where it
    is and none of the three calls after it is made.  One goroutine that
    calls [shutdown] twice makes the five calls the first time and none
    the second time; called with requests in flight it closes the input
    and does not return. *)
Theorem shutdown_once (env : Step -> Outcome) (callers : nat)
    (rqs : list agentReq) (ag : Agent) (sched : list nat) :
  sd_closed ag = false -> wg ag = 0 -> Agent.steps_of (trace ag) = [] ->
  let five := [StdinClose; WgWait; DispatchShutdown; StdoutClose; CloseDone] in
  let s := Halt.run env sched (Halt.start callers rqs ag) in
  (exists rest, Agent.steps_of (trace (Halt.agent s)) ++ rest = five) /\
  (forall i, Halt.threads s !! i = Some Halt.SDone ->
             Agent.steps_of (trace (Halt.agent s)) = five) /\
  ((forall i, Halt.step env i s = None) -> Halt.all_done s) /\
  (exists more,
     Halt.all_done (Halt.run env more s) /\
     (0 < callers ->
      Agent.steps_of (trace (Halt.agent (Halt.run env more s))) = five)) /\
  (let ag1 := snd (Agent.shutdown env ag) in
   fst (Agent.shutdown env ag) = true /\
   Agent.steps_of (trace ag1) = five /\
   Agent.shutdown env ag1 = (true, ag1)) /\
  wg (Halt.agent s) = sum_list (Halt.in_flight <$> Halt.threads s) /\
  (forall i rest,
     Halt.threads s !! i = Some (Halt.SUnwind (WgWait :: rest)) ->
     Agent.steps_of (trace (Halt.agent s)) = [StdinClose] /\
     (Halt.step env i s = None <-> wg (Halt.agent s) <> 0) /\
     (forall s', Halt.step env i s = Some s' ->
        (forall j c, Halt.threads s !! j = Some c -> Halt.in_flight c = 0) /\
        Halt.threads s' = <[i := Halt.SUnwind rest]> (Halt.threads s) /\
        trace (Halt.agent s')
        = trace (Halt.agent s) ++ [Did WgWait (env WgWait)])) /\
  (forall n, n <> 0 ->
     fst (Agent.shutdown env (set_wg n ag)) = false /\
     sd_closed (snd (Agent.shutdown env (set_wg n ag))) = true /\
     Agent.steps_of (trace (snd (Agent.shutdown env (set_wg n ag))))
     = [StdinClose]).
Proof.
  intros Ec Ew Et five s.
  assert (Hinv : Halt.inv s) by (apply hrun_inv, hstart_inv; auto).
  pose proof Hinv as (_ & Hfit & H0 & H1 & Hwg).
  split; [|split; [|split; [|split; [|split; [|split; [|split]]]]]].
  - destruct (sd_closed (Halt.agent s)) eqn:E.
    + destruct (H1 eq_refl) as [Hd|(i & rest & Ei)].
      * exists []. rewrite app_nil_r. exact Hd.
      * exists rest. apply (Hfit _ _ Ei).
    + exists five. rewrite (H0 eq_refl). reflexivity.
  - intros i Ei. apply (Hfit _ _ Ei).
  - intros Hstuck.
    destruct (decide (Halt.all_done s)) as [Hd|Hnd]; [exact Hd|].
    destruct (hprogress env s Hinv Hnd) as (i & s' & E).
    rewrite Hstuck in E. discriminate.
  - destruct (hcompletes env s Hinv) as (more & Hd).
    exists more. split; [exact Hd|]. intros Hpos.
    set (s' := Halt.run env more s) in *.
    assert (Hk : Halt.is_caller <$> (Halt.threads s' !! 0) = Some true).
    { unfold s', s. rewrite !hrun_kind. simpl.
      destruct callers; [lia|]. reflexivity. }
    destruct (Halt.threads s' !! 0) as [c|] eqn:E0; [|discriminate].
    injection Hk as Hk.
    pose proof (proj1 (Forall_lookup _ _) Hd 0 c E0) as Hc.
    destruct c; try discriminate.
    exact (proj2 (proj1 (proj2 (hrun_inv env more s Hinv)) _ _ E0)).
  - rewrite (shutdown_runs env ag Ec Ew). simpl.
    split; [reflexivity|]. split.
    + destruct ag; simpl in *. rewrite steps_of_app, Et. reflexivity.
    + unfold Agent.shutdown. destruct ag; reflexivity.
  - exact Hwg.
  - intros i rest Ei.
    destruct (Hfit _ _ Ei) as [_ Hsteps].
    assert (Hone : Agent.steps_of (trace (Halt.agent s)) = [StdinClose]).
    { unfold Agent.unwinding, Agent.deferred in Hsteps. simpl in Hsteps.
      destruct (Agent.steps_of (trace (Halt.agent s)))
        as [|a [|b [|c [|d [|e l]]]]]; simpl in Hsteps; try discriminate.
      - injection Hsteps as -> _. reflexivity.
      - destruct l; discriminate. }
    split; [exact Hone|].
    unfold Halt.step. rewrite Ei. unfold Agent.exec.
    destruct (Nat.eqb (wg (Halt.agent s)) 0) eqn:E0.
    + apply Nat.eqb_eq in E0. split.
      * split; [discriminate|]. intros Hn. destruct (Hn E0).
      * intros s' Es. injection Es as <-. split; [|split].
        -- apply sum_zero_each. congruence.
        -- reflexivity.
        -- simpl. apply emit_trace.
    + apply Nat.eqb_neq in E0. split.
      * split; auto.
      * intros s' Es. discriminate.
  - intros n Hn. unfold Agent.shutdown.
    assert (Ecn : sd_closed (set_wg n ag) = false) by (destruct ag; exact Ec).
    rewrite Ecn. unfold Agent.unwinding, Agent.deferred. simpl.
    destruct n as [|n]; [destruct (Hn eq_refl)|].
    destruct ag; simpl in *. rewrite steps_of_app, Et. auto.
Qed.

(** C7 with two callers of [shutdown] and one request, the output stream
    failing to close and the dispatch panicking: the five calls are made
    once; and with the request still in flight when the first caller
    comes to [wg.Wait()], that caller stays there. *)
Lemma shutdown_once_witness :
  let env st := match st with
                | StdoutClose => Erred
                | DispatchShutdown => Panicked
                | _ => Fine
                end in
  let ag := mkAgent "margo"
              {| Reader := Some OsStdin; Writer := None; Closer := Some OsStdin |}
              {| Reader := None; Writer := Some OsStdout; Closer := Some OsStdout |}
              {| Reader := None; Writer := Some OsStderr; Closer := None |}
              (Some (JsonHandle 2 true))
              ({| Reader := None; Writer := Some OsStdout; Closer := Some OsStdout |},
               Some (JsonHandle 2 true))
              ({| Reader := Some OsStdin; Writer := None; Closer := Some OsStdin |},
               Some (JsonHandle 2 true))
              None 0 false [] in
  let rq := {| req_Cookie := "c1"; Actions := []; Props := "" |} in
  let s := Halt.run env [0;1;2;0;1;2;0;1;0;2;0;0;0;0;0;0;1;1;1;1]
             (Halt.start 2 [rq] ag) in
  let s1 := Halt.run env [2;0;0;0;0;0;0] (Halt.start 2 [rq] ag) in
  (Halt.threads s = [Halt.SDone; Halt.SDone; Halt.HDone] /\
   Agent.steps_of (trace (Halt.agent s))
   = [StdinClose; WgWait; DispatchShutdown; StdoutClose; CloseDone]) /\
  (Halt.threads s1
   = [Halt.SUnwind [WgWait; DispatchShutdown; StdoutClose; CloseDone];
      Halt.SStart; Halt.HAdded rq] /\
   wg (Halt.agent s1) = 1 /\
   Halt.step env 0 s1 = None /\
   Agent.steps_of (trace (Halt.agent s1)) = [StdinClose]).
Proof.
  cbv zeta. split.
  - split; [vm_compute; reflexivity|].
    match goal with
    | |- Agent.steps_of (trace (Halt.agent (Halt.run ?env ?sched
                                             (Halt.start ?n ?rqs ?ag)))) = _ =>
        pose proof (shutdown_once env n rqs ag sched eq_refl eq_refl eq_refl)
          as (_ & Hdone & _)
    end.
    apply (Hdone 0). vm_compute. reflexivity.
  - split; [vm_compute; reflexivity|]. split; [vm_compute; reflexivity|].
    match goal with
    | |- Halt.step ?env 0 (Halt.run _ ?sched (Halt.start ?n ?rqs ?ag)) = None /\ _ =>
        pose proof (shutdown_once env n rqs ag sched eq_refl eq_refl eq_refl)
          as (_ & _ & _ & _ & _ & _ & Hwait & _);
        destruct (Hwait 0 [DispatchShutdown; StdoutClose; CloseDone] eq_refl)
          as (Hone & Hblock & _)
    end.
    split; [|exact Hone].
    apply Hblock. vm_compute. discriminate.
Defined.

(** ** Part III: further properties of the code *)

(** *** [KVMap.Values] and [KVMap.Clear] *)

Section kvmap_values.
Context {K : Type} `{Countable K} {V : Type}.
Implicit Types (w : World K V) (k : K) (v : value V) (p q : loc).

(** The entry [Values] keeps for a slot: none for a nil value. *)
Lemma Values_fold (t : gmap K (slot V)) w :
  exists vals,
    map_fold
      (fun k s (acc : M K V (gmap K (value V))) =>
         vals <- acc ;;
         v <- KVMap.unref s ;;
         ret (match v with
              | Some _ => <[k:=v]> vals
              | None => vals
              end))
      (ret ∅) t w = Some (vals, w) /\
    forall k, vals !! k =
              match t !! k with
              | Some s => match peek w s with
                          | Some x => Some (Some x)
                          | None => None
                          end
              | None => None
              end.
Proof.
  apply (map_fold_weak_ind
    (fun (acc : M K V (gmap K (value V))) t =>
       exists vals, acc w = Some (vals, w) /\
         forall k, vals !! k =
                   match t !! k with
                   | Some s => match peek w s with
                               | Some x => Some (Some x)
                               | None => None
                               end
                   | None => None
                   end)).
  - exists ∅. split; [reflexivity|]. intros k. rewrite !lookup_empty. reflexivity.
  - intros i s m acc Hi (vals & E & Hv).
    assert (Eu : KVMap.unref s w = Some (peek w s, w))
      by (destruct s; reflexivity).
    erewrite bind_Some by exact E. erewrite bind_Some by exact Eu.
    eexists. split; [reflexivity|]. intros k.
    destruct (decide (i = k)) as [<-|Nk].
    + rewrite lookup_insert_eq. destruct (peek w s) as [x|].
      * rewrite lookup_insert_eq. reflexivity.
      * rewrite Hv, Hi. reflexivity.
    + rewrite (lookup_insert_ne m) by exact Nk. destruct (peek w s) as [x|].
      * rewrite lookup_insert_ne by exact Nk. apply Hv.
      * apply Hv.
Qed.

(** X1. [Values] on a non-nil [KVMap] returns a map that is never nil,
    leaves the store as it is, and holds under each key exactly what [Get]
    returns for it when that is not nil: boxes are read through, and keys
    whose value is nil are left out. *)
Theorem Values_snapshot p w :
  exists vals,
    KVMap.Values (Some p) w = Some (Some vals, w) /\
    forall k, vals !! k = match held w p k with
                          | Some x => Some (Some x)
                          | None => None
                          end.
Proof.
  unfold KVMap.Values. erewrite bind_Some by reflexivity.
  destruct (Values_fold (default ∅ (maps w !! p)) w) as (vals & E & Hv).
  erewrite bind_Some by exact E. exists vals. split; [reflexivity|].
  intros k. rewrite Hv. unfold held, map_index.
  destruct (maps w !! p) as [t|]; simpl.
  - destruct (t !! k) as [s|]; reflexivity.
  - rewrite lookup_empty. reflexivity.
Qed.

(** X2. After [Clear] the store holds nothing: [Get] returns nil for every
    key and [Values] returns the empty map; the other stores are as they
    were, and a later [Put] makes the table anew. *)
Theorem Clear_forgets p k v w :
  exists w1,
    KVMap.Clear (Some p) w = Some (tt, w1) /\
    maps w1 !! p = None /\
    (forall k', KVMap.Get (Some p) k' w1 = Some (None, w1)) /\
    KVMap.Values (Some p) w1 = Some (Some ∅, w1) /\
    (forall q k', q <> p -> held w1 q k' = held w q k') /\
    (exists w2, (KVMap.Put (Some p) k v ;; KVMap.Get (Some p) k) w1
                = Some (v, w2)).
Proof.
  eexists. split; [reflexivity|]. simpl.
  split; [apply lookup_delete_eq|].
  split; [|split; [|split]].
  - intros k'. rewrite Get_held. unfold held; simpl.
    rewrite lookup_delete_eq. reflexivity.
  - unfold KVMap.Values. erewrite bind_Some by reflexivity. simpl.
    rewrite lookup_delete_eq. simpl. rewrite map_fold_empty. reflexivity.
  - intros q k' Nq. unfold held; simpl.
    rewrite lookup_delete_ne by auto. reflexivity.
  - eexists. erewrite bind_Some by apply Put_run.
    rewrite Get_written. reflexivity.
Qed.
End kvmap_values.

(** *** [KVMap]: what an operation leaves alone *)

Section kvmap_frame.
Context {K : Type} `{Countable K} {V : Type}.
Implicit Types (w : World K V) (k : K) (v : value V) (p q r : loc).

Lemma slot_at_written p k (s : slot V) w q k' :
  slot_at (written p k s w) q k'
  = if decide (p = q /\ k = k') then s else slot_at w q k'.
Proof.
  unfold slot_at, written; simpl.
  destruct (decide (p = q)) as [<-|Np].
  - rewrite lookup_insert_eq; simpl.
    destruct (decide (k = k')) as [<-|Nk].
    + rewrite lookup_insert_eq. rewrite decide_True by auto. reflexivity.
    + rewrite lookup_insert_ne by exact Nk.
      rewrite decide_False by tauto.
      destruct (maps w !! p) as [t|]; simpl; [reflexivity|].
      rewrite lookup_empty. reflexivity.
  - rewrite lookup_insert_ne by exact Np.
    rewrite decide_False by tauto. reflexivity.
Qed.

Lemma Del_slot p k w :
  exists w1, KVMap.Del (Some p) k w = Some (tt, w1) /\
    boxes w1 = boxes w /\ calls w1 = calls w /\
    forall q k', slot_at w1 q k'
                 = if decide (p = q /\ k = k') then Raw None else slot_at w q k'.
Proof.
  unfold KVMap.Del, bind, load_vals, store_vals; simpl.
  destruct (maps w !! p) as [t|] eqn:E; simpl.
  - eexists. split; [reflexivity|]. simpl. do 2 (split; [reflexivity|]).
    intros q k'. unfold slot_at; simpl.
    destruct (decide (p = q)) as [<-|Np].
    + rewrite lookup_insert_eq, E; simpl.
      destruct (decide (k = k')) as [<-|Nk].
      * rewrite lookup_delete_eq, decide_True by auto. reflexivity.
      * rewrite lookup_delete_ne by exact Nk.
        rewrite decide_False by tauto. reflexivity.
    + rewrite lookup_insert_ne by exact Np.
      rewrite decide_False by tauto. reflexivity.
  - exists w. split; [reflexivity|]. do 2 (split; [reflexivity|]).
    intros q k'. unfold slot_at. case_decide as Hd; [|reflexivity].
    destruct Hd as [<- <-]. rewrite E. reflexivity.
Qed.

(** X3. [Put] and [Del] change one key of one store: every other key, and
    every key of every other store, is read as before, and no initialiser
    is called. *)
Theorem Put_Del_frame p k v w :
  (exists w1, KVMap.Put (Some p) k v w = Some (tt, w1) /\
     calls w1 = calls w /\
     forall q k', (q <> p \/ k' <> k) ->
       KVMap.Get (Some q) k' w1 = Some (held w q k', w1)) /\
  (exists w1, KVMap.Del (Some p) k w = Some (tt, w1) /\
     calls w1 = calls w /\
     forall q k', (q <> p \/ k' <> k) ->
       KVMap.Get (Some q) k' w1 = Some (held w q k', w1)).
Proof.
  split.
  - eexists. split; [apply Put_run|]. split; [reflexivity|].
    intros q k' Hne. rewrite Get_held. f_equal. f_equal.
    unfold held. fold (slot_at (written p k (Raw v) w) q k').
    rewrite slot_at_written, decide_False by (intros [<- <-]; tauto).
    reflexivity.
  - destruct (Del_slot p k w) as (w1 & E & Hb & Hc & Hs).
    exists w1. split; [exact E|]. split; [exact Hc|].
    intros q k' Hne. rewrite Get_held. f_equal. f_equal.
    unfold held. fold (slot_at w1 q k'). rewrite Hs.
    rewrite decide_False by (intros [<- <-]; tauto).
    unfold peek. rewrite Hb. reflexivity.
Qed.
End kvmap_frame.

(** *** [KVMap.Ref], one caller at a time *)

Section kvmap_ref.
Context {K : Type} `{Countable K} {V : Type}.
Implicit Types (w : World K V) (k : K) (v : value V) (p q r : loc).

(** All that one call of [Ref] does. *)
Lemma Ref_spec p k (new : Init V) w :
  exists w1 r,
    KVMap.Ref (Some p) k new w
    = Some (match held w p k with
            | Some x => Some x
            | None => fn_res new (calls w)
            end, w1) /\
    slot_at w1 p k = Boxed r /\
    default None (boxes w1 !! r)
    = match held w p k with
      | Some x => Some x
      | None => fn_res new (calls w)
      end /\
    calls w1 = match held w p k with
               | Some _ => calls w
               | None => calls w ++ [fn_id new]
               end /\
    (forall q k', (q <> p \/ k' <> k) -> slot_at w1 q k' = slot_at w q k') /\
    (forall r', r' <> r -> boxes w1 !! r' = boxes w !! r') /\
    r ∈ dom (boxes w1) /\
    dom (boxes w) ⊆ dom (boxes w1) /\
    (forall r0, slot_at w p k = Boxed r0 -> r = r0) /\
    (forall v0, slot_at w p k = Raw v0 -> r ∉ dom (boxes w)).
Proof.
  unfold held. fold (slot_at w p k).
  destruct (slot_at w p k) as [v|r] eqn:E; unfold slot_at in E.
  - pose proof (Ref_raw p k v new w E) as R. cbv zeta in R.
    set (r := fresh (dom (boxes w))) in *.
    assert (Hfresh : r ∉ dom (boxes w)) by apply is_fresh.
    set (w0 := written p k (Boxed r)
                 {| maps := maps w; boxes := <[r:=v]> (boxes w);
                    calls := calls w |}) in *.
    assert (Hs : forall bx cl q k',
      slot_at {| maps := maps w0; boxes := bx; calls := cl |} q k'
      = if decide (p = q /\ k = k') then Boxed r else slot_at w q k').
    { intros. exact (slot_at_written p k (Boxed r) _ q k'). }
    destruct v as [x|]; simpl.
    + exists w0, r. split; [exact R|].
      split; [rewrite (Hs (boxes w0) (calls w0)), decide_True by auto; reflexivity|].
      split; [simpl; rewrite lookup_insert_eq; reflexivity|].
      split; [reflexivity|].
      split; [intros q k' Hne; rewrite (Hs (boxes w0) (calls w0)),
                decide_False by (intros [<- <-]; tauto); reflexivity|].
      split; [intros r' Nr; simpl; rewrite lookup_insert_ne by auto; reflexivity|].
      split; [simpl; set_solver|]. split; [simpl; set_solver|].
      split; [discriminate|]. intros _ _. exact Hfresh.
    + eexists _, r. split; [exact R|].
      split; [rewrite Hs, decide_True by auto; reflexivity|].
      split; [simpl; rewrite lookup_insert_eq; reflexivity|].
      split; [reflexivity|].
      split; [intros q k' Hne; rewrite Hs,
                decide_False by (intros [<- <-]; tauto); reflexivity|].
      split; [intros r' Nr; simpl; rewrite !lookup_insert_ne by auto; reflexivity|].
      split; [simpl; set_solver|]. split; [simpl; set_solver|].
      split; [discriminate|]. intros _ _. exact Hfresh.
  - pose proof (Ref_boxed p k r new w E) as R. simpl.
    destruct (default None (boxes w !! r)) as [x|] eqn:Eb.
    + exists w, r. split; [exact R|]. split; [exact E|].
      split; [exact Eb|]. split; [reflexivity|].
      split; [reflexivity|]. split; [reflexivity|].
      split; [|split; [reflexivity|split; [congruence|discriminate]]].
      apply elem_of_dom. destruct (boxes w !! r); [eauto|discriminate].
    + eexists _, r. split; [exact R|]. split; [exact E|].
      split; [simpl; rewrite lookup_insert_eq; reflexivity|].
      split; [reflexivity|]. split; [reflexivity|].
      split; [intros r' Nr; simpl; rewrite lookup_insert_ne by auto; reflexivity|].
      split; [simpl; set_solver|]. split; [simpl; set_solver|].
      split; [congruence|discriminate].
Qed.

Lemma held_slot w p k : held w p k = peek w (slot_at w p k).
Proof. reflexivity. Qed.

(** X4. [Ref] returns the value the key holds when that is not nil, and
    does not call the initialiser then; when the key holds nothing it calls
    the initialiser once and returns its result.  Either way [Get] then
    returns what [Ref] returned. *)
Theorem Ref_then_Get p k (new : Init V) w :
  exists w1,
    KVMap.Ref (Some p) k new w
    = Some (match held w p k with
            | Some x => Some x
            | None => fn_res new (calls w)
            end, w1) /\
    calls w1 = match held w p k with
               | Some _ => calls w
               | None => calls w ++ [fn_id new]
               end /\
    KVMap.Get (Some p) k w1
    = Some (match held w p k with
            | Some x => Some x
            | None => fn_res new (calls w)
            end, w1).
Proof.
  destruct (Ref_spec p k new w) as (w1 & r & E & Hs & Hb & Hc & _).
  exists w1. split; [exact E|]. split; [exact Hc|].
  rewrite Get_held, held_slot, Hs. simpl. rewrite Hb. reflexivity.
Qed.

(** X5. Once [Ref] has returned a value that is not nil, every later
    [Ref] on that key returns the same value, whatever initialiser it is
    given, and changes nothing: no call, no write. *)
Theorem Ref_again p k (new new2 : Init V) w w1 x :
  KVMap.Ref (Some p) k new w = Some (Some x, w1) ->
  KVMap.Ref (Some p) k new2 w1 = Some (Some x, w1).
Proof.
  intros E1.
  destruct (Ref_spec p k new w) as (w1' & r & E & Hs & Hb & _).
  rewrite E in E1. injection E1 as Ex <-.
  rewrite (Ref_boxed p k r new2 w1' Hs), Hb, Ex. reflexivity.
Qed.

(** X8. The box of a key lives as long as its entry.  After [Ref], a
    [Put] of a value that is not nil replaces what the key holds, and the
    next [Ref] returns that value without a call; after [Ref] and [Del]
    the key holds nothing again, and the next [Ref] calls the initialiser
    it is given. *)
Theorem Ref_after_Put_or_Del p k (new new2 : Init V) (y : V) w :
  exists w1 c1,
    KVMap.Ref (Some p) k new w = Some (c1, w1) /\
    (exists w3,
       (KVMap.Put (Some p) k (Some y) ;; KVMap.Ref (Some p) k new2) w1
       = Some (Some y, w3) /\ calls w3 = calls w1) /\
    (exists w3,
       (KVMap.Del (Some p) k ;; KVMap.Ref (Some p) k new2) w1
       = Some (fn_res new2 (calls w1), w3) /\
       calls w3 = calls w1 ++ [fn_id new2]).
Proof.
  destruct (Ref_spec p k new w) as (w1 & r & E & _).
  eexists w1, _. split; [exact E|]. split.
  - erewrite bind_Some by apply Put_run.
    destruct (Ref_spec p k new2 (written p k (Raw (Some y)) w1))
      as (w3 & r3 & E3 & _ & _ & Hc3 & _).
    rewrite held_written in E3, Hc3. simpl in E3, Hc3.
    exists w3. split; [exact E3|exact Hc3].
  - destruct (Del_slot p k w1) as (w2 & E2 & Hb2 & Hc2 & Hs2).
    erewrite bind_Some by exact E2.
    destruct (Ref_spec p k new2 w2) as (w3 & r3 & E3 & _ & _ & Hc3 & _).
    assert (Hh : held w2 p k = None).
    { rewrite held_slot, Hs2, decide_True by auto. reflexivity. }
    rewrite Hh, Hc2 in E3, Hc3. exists w3. split; [exact E3|exact Hc3].
Qed.
End kvmap_ref.

(** X5 on the empty world: the first initialiser returns [Some 3], the
    second, which would return [Some 4], is not called. *)
Lemma Ref_again_witness :
  exists w1,
    KVMap.Ref (K:=nat) (V:=nat) (Some 0) 1 (mkInit 0 (fun _ => Some 3)) new_world
    = Some (Some 3, w1) /\
    KVMap.Ref (Some 0) 1 (mkInit 1 (fun _ => Some 4)) w1 = Some (Some 3, w1).
Proof.
  eexists. split; [vm_compute; reflexivity|].
  apply (Ref_again (K:=nat) (V:=nat) 0 1 (mkInit 0 (fun _ => Some 3))
           (mkInit 1 (fun _ => Some 4)) new_world).
  vm_compute. reflexivity.
Defined.

(** *** Ownership of the boxes is kept *)

Section kvmap_owned.
Context {K : Type} `{Countable K} {V : Type}.
Implicit Types (w : World K V) (k : K) (v : value V) (p q r : loc).

Lemma owned_new_world : owned (new_world (K:=K) (V:=V)).
Proof.
  split; intros p k; unfold slot_at; simpl; rewrite lookup_empty;
    simpl; intros; discriminate.
Qed.

(** A world whose boxed slots are boxed slots of [w] is owned as [w] is. *)
Lemma owned_fewer w w1 :
  (forall q k r, slot_at w1 q k = Boxed r -> slot_at w q k = Boxed r) ->
  dom (boxes w) ⊆ dom (boxes w1) ->
  owned w -> owned w1.
Proof.
  intros Hs Hd [Ha Hu]. split.
  - intros q k r E. apply Hd, (Ha q k), Hs, E.
  - intros q k q' k' r E E'. exact (Hu _ _ _ _ _ (Hs _ _ _ E) (Hs _ _ _ E')).
Qed.

(** The box that [Ref] leaves in the slot belongs to no other slot. *)
Lemma Ref_box_alone p k (new : Init V) w w1 r c :
  owned w ->
  KVMap.Ref (Some p) k new w = Some (c, w1) ->
  slot_at w1 p k = Boxed r ->
  forall q k', (q <> p \/ k' <> k) -> slot_at w q k' <> Boxed r.
Proof.
  intros [Ha Hu] E1 Hs1 q k' Hne Hq.
  destruct (Ref_spec p k new w)
    as (w1' & r' & E & Hs & _ & _ & _ & _ & _ & _ & Hold & Hnew).
  rewrite E in E1. injection E1 as _ <-.
  rewrite Hs in Hs1. injection Hs1 as ->.
  destruct (slot_at w p k) as [v0|r0] eqn:Ep.
  - apply (Hnew v0 eq_refl). exact (Ha _ _ _ Hq).
  - pose proof (Hold r0 eq_refl) as <-.
    destruct (Hu _ _ _ _ _ Ep Hq) as [<- <-]. tauto.
Qed.

(** X6. No operation makes two keys share a box, or leaves a slot with a
    box that was not allocated: the empty world is owned, and [Put],
    [Del], [Clear] and [Ref] keep a world owned. *)
Theorem owned_kept p k v (new : Init V) w :
  owned w ->
  (exists w1, KVMap.Put (Some p) k v w = Some (tt, w1) /\ owned w1) /\
  (exists w1, KVMap.Del (Some p) k w = Some (tt, w1) /\ owned w1) /\
  (exists w1, KVMap.Clear (Some p) w = Some (tt, w1) /\ owned w1) /\
  (exists c w1, KVMap.Ref (Some p) k new w = Some (c, w1) /\ owned w1).
Proof.
  intros Ho. split; [|split; [|split]].
  - eexists. split; [apply Put_run|].
    apply (owned_fewer w); [|reflexivity|exact Ho].
    intros q k' r. rewrite slot_at_written.
    case_decide; [discriminate|auto].
  - destruct (Del_slot p k w) as (w1 & E & Hb & _ & Hs).
    exists w1. split; [exact E|].
    apply (owned_fewer w); [|rewrite Hb; reflexivity|exact Ho].
    intros q k' r. rewrite Hs. case_decide; [discriminate|auto].
  - eexists. split; [reflexivity|].
    apply (owned_fewer w); [|reflexivity|exact Ho].
    intros q k' r. unfold slot_at; simpl.
    destruct (decide (p = q)) as [<-|Np].
    + rewrite lookup_delete_eq. discriminate.
    + rewrite lookup_delete_ne by exact Np. auto.
  - destruct (Ref_spec p k new w)
      as (w1 & r & E & Hs & _ & _ & Hfr & _ & Hin & Hd & _).
    eexists _, w1. split; [exact E|]. destruct Ho as [Ha Hu].
    assert (Hother : forall q k', (q <> p \/ k' <> k) -> slot_at w1 q k' <> Boxed r).
    { intros q k' Hne. rewrite (Hfr _ _ Hne).
      exact (Ref_box_alone p k new w w1 r _ (conj Ha Hu) E Hs q k' Hne). }
    assert (Hcase : forall q k', (q = p /\ k' = k) \/ (q <> p \/ k' <> k)).
    { intros q k'. destruct (decide (q = p)); destruct (decide (k' = k)); tauto. }
    split.
    + intros q k' r' Eq. destruct (Hcase q k') as [[-> ->]|Hne].
      * rewrite Hs in Eq. injection Eq as <-. exact Hin.
      * rewrite (Hfr _ _ Hne) in Eq. apply Hd, (Ha _ _ _ Eq).
    + intros q k1 q' k2 r' E1 E2.
      destruct (Hcase q k1) as [[-> ->]|N1];
        destruct (Hcase q' k2) as [[-> ->]|N2]; auto.
      * rewrite Hs in E1. injection E1 as <-. destruct (Hother _ _ N2 E2).
      * rewrite Hs in E2. injection E2 as <-. destruct (Hother _ _ N1 E1).
      * rewrite (Hfr _ _ N1) in E1. rewrite (Hfr _ _ N2) in E2.
        exact (Hu _ _ _ _ _ E1 E2).
Qed.

(** X7. In an owned world [Ref] changes one key of one store: every other
    key, and every key of every other store, is read as before. *)
Theorem Ref_frame p k (new : Init V) w :
  owned w ->
  exists c w1,
    KVMap.Ref (Some p) k new w = Some (c, w1) /\
    forall q k', (q <> p \/ k' <> k) ->
      KVMap.Get (Some q) k' w1 = Some (held w q k', w1).
Proof.
  intros Ho.
  destruct (Ref_spec p k new w) as (w1 & r & E & Hs & _ & _ & Hfr & Hbx & _).
  eexists _, w1. split; [exact E|].
  intros q k' Hne. rewrite Get_held. f_equal. f_equal.
  rewrite !held_slot, (Hfr _ _ Hne).
  destruct (slot_at w q k') as [v0|r'] eqn:Eq; [reflexivity|]. simpl.
  rewrite Hbx; [reflexivity|]. intros ->.
  exact (Ref_box_alone p k new w w1 r _ Ho E Hs q k' Hne Eq).
Qed.
End kvmap_owned.

(** X6 on the empty world. *)
Lemma owned_kept_witness :
  owned (new_world (K:=nat) (V:=nat)) /\
  exists c w1,
    KVMap.Ref (Some 0) 1 (mkInit 0 (fun _ => Some 3)) new_world = Some (c, w1) /\
    owned w1.
Proof.
  split; [apply owned_new_world|].
  exact (proj2 (proj2 (proj2
    (owned_kept (K:=nat) (V:=nat) 0 1 None (mkInit 0 (fun _ => Some 3))
       new_world owned_new_world)))).
Defined.

(** X7 on a world where key [2] of store [0] holds [Some 9]: [Ref] on key
    [1] leaves it. *)
Lemma Ref_frame_witness :
  let w := written 0 2 (Raw (Some 9)) (new_world (K:=nat) (V:=nat)) in
  owned w /\
  exists c w1,
    KVMap.Ref (Some 0) 1 (mkInit 0 (fun _ => Some 3)) w = Some (c, w1) /\
    KVMap.Get (Some 0) 2 w1 = Some (Some 9, w1).
Proof.
  intros w.
  assert (Ho : owned w).
  { apply (owned_fewer new_world); [|reflexivity|apply owned_new_world].
    intros q k' r. unfold w. rewrite slot_at_written.
    case_decide; [discriminate|auto]. }
  split; [exact Ho|].
  destruct (Ref_frame (K:=nat) (V:=nat) 0 1 (mkInit 0 (fun _ => Some 3)) w Ho)
    as (c & w1 & E & Hf).
  exists c, w1. split; [exact E|].
  exact (Hf 0 2 (or_intror (fun e : 2 = 1 => eq_ind 2 (fun n => match n with 2 => True | _ => False end) I 1 e))).
Defined.

(** *** [KVStores]: writing and reading back *)

Section kvstores_round_trip.
Context {K : Type} `{Countable K} {V : Type}.
Implicit Types (w : World K V) (k : K) (v : value V) (p q : loc).

(** When every store of [ps] holds [v], the first hit is [v], and nil
    when there is no store. *)
Lemma first_hit_all w k ps v r :
  (forall p, In p ps -> held w p k = v) ->
  first_hit w k ps r ->
  r = match ps with [] => None | _ => v end.
Proof.
  intros Hall Hr. destruct r as [x|]; simpl in Hr.
  - destruct Hr as (i & p & Ei & Hp & _).
    assert (Hin : In p ps).
    { apply list_elem_of_In. eapply list_elem_of_lookup_2, Ei. }
    rewrite (Hall p Hin) in Hp. destruct ps; [destruct Hin|auto].
  - destruct ps as [|p ps]; [reflexivity|].
    rewrite <- (Hall p (or_introl eq_refl)). symmetry. apply Hr. left. reflexivity.
Qed.

(** X9. What [KVStores.Put] writes, [KVStores.Get] reads back: after
    [Put k v] on a list, [Get k] on that list returns [v], unless the list
    reaches no [KVMap] at all, when it returns nil; after [Del k] it
    returns nil. *)
Theorem KVStores_Put_Get (kvl : option (list KVStore)) k v w :
  (exists w1,
     (KVStores.Put kvl k v ;; KVStores.Get kvl k) w
     = Some (match leaves (KList kvl) with [] => None | _ => v end, w1)) /\
  (exists w1,
     (KVStores.Del kvl k ;; KVStores.Get kvl k) w = Some (None, w1)).
Proof.
  assert (Hget : forall w1, scans w1 k (KVStores.Get kvl k) (leaves (KList kvl))).
  { intros w1. destruct kvl as [l|].
    - exact (iGet_scans k (KList (Some l)) eq_refl w1).
    - exact (iGet_scans k (KList None) eq_refl w1). }
  split.
  - destruct (list_reaches (fun m => KVMap.Put m k v)
                (fun s => KVStores.iPut s k v) (fun w p => held w p k = v)
                (fun _ => eq_refl) (fun kvl => iPut_list kvl k v)
                (fun _ => eq_refl) (Put_establishes k v) kvl w)
      as (w1 & E & _ & Hl).
    exists w1. unfold KVStores.Put. erewrite bind_Some by exact E.
    destruct (Hget w1) as (r & Eg & Hr). rewrite Eg.
    rewrite (first_hit_all _ _ _ _ _ Hl Hr). reflexivity.
  - destruct (list_reaches (fun m => KVMap.Del m k)
                (fun s => KVStores.iDel s k) (fun w p => held w p k = None)
                (fun _ => eq_refl) (fun kvl => iDel_list kvl k)
                (fun _ => eq_refl) (Del_establishes k) kvl w)
      as (w1 & E & _ & Hl).
    exists w1. unfold KVStores.Del. erewrite bind_Some by exact E.
    destruct (Hget w1) as (r & Eg & Hr). rewrite Eg.
    rewrite (first_hit_all _ _ _ _ _ Hl Hr). destruct (leaves _); reflexivity.
Qed.
End kvstores_round_trip.

(** *** Concurrent callers of [KVMap.Ref], any initialiser *)

Section race_any.
Context {K : Type} `{Countable K} {V : Type}.
Variable p : loc.
Variable k : K.
Variable new : Init V.

Abbreviation AMachine := (Race.Machine (K:=K) (V:=V)).
Abbreviation ainv := (RaceAny.inv p k).
Abbreviation astep := (Race.step p k new).
Abbreviation arun := (Race.run p k new).
Abbreviation akey_slot := (Race.key_slot p k).
Abbreviation abox_value := (Race.box_value p k).
Implicit Types (s : AMachine) (i j : nat) (r : loc).

Lemma ainv_local s i ci c f l :
  ainv s -> Race.threads s !! i = Some ci ->
  mutex f Race.holds_mu (<[i:=c]> (Race.threads s)) ->
  (forall r, mutex (bool_decide (r ∈ l)) (Race.holds_box r)
               (<[i:=c]> (Race.threads s))) ->
  RaceAny.fits (akey_slot s) (abox_value s) c ->
  ainv {| Race.world := Race.world s; Race.mu := f; Race.locked := l;
          Race.threads := <[i:=c]> (Race.threads s) |}.
Proof.
  intros (Hmu & Hbox & Hfit) Ei Hmu' Hbox' Fc.
  split; [exact Hmu'|]. split; [exact Hbox'|].
  intros j cj Ej. simpl in Ej.
  apply lookup_moved in Ej as [[-> ->]|[Nj Ej]]; [exact Fc|].
  exact (Hfit _ _ Ej).
Qed.

Lemma astep_inv s i s' : ainv s -> astep i s = Some s' -> ainv s'.
Proof.
  intros Hinv Hstep. pose proof Hinv as (Hmu & Hbox & Hfit).
  unfold Race.step in Hstep.
  destruct (Race.threads s !! i) as [ci|] eqn:Ei; [|discriminate].
  pose proof (Hfit _ _ Ei) as Fi.
  destruct ci as [| |sl|r|r|r|r|r|r v|v].
  - (* m.mu.Lock() *)
    destruct (Race.mu s) eqn:Emu; [discriminate|].
    injection Hstep as <-. apply (ainv_local _ _ _ _ _ _ Hinv Ei).
    + eapply mutex_acquire; eauto.
    + intros r. eapply mutex_keep; eauto.
    + destruct (akey_slot s); exact Fi.
  - (* v := m.vals[k] *)
    unfold Race.action, Race.moved, bind, load_vals, ret in Hstep.
    injection Hstep as <-. apply (ainv_local _ _ _ _ _ _ Hinv Ei).
    + eapply mutex_keep; eauto.
    + intros r. eapply mutex_keep; eauto.
    + fold (akey_slot s). destruct (akey_slot s) as [v|r0] eqn:Es; simpl in *.
      * destruct Fi as [-> _]. auto.
      * reflexivity.
  - (* the probe of v, and the new box *)
    unfold Race.action in Hstep.
    destruct (akey_slot s) as [v|r0] eqn:Es; simpl in Fi.
    + destruct Fi as [-> ->].
      unfold KVMap.ref_wrap in Hstep.
      erewrite bind_Some in Hstep by reflexivity.
      erewrite bind_Some in Hstep by apply put_run.
      unfold ret, Race.moved in Hstep. injection Hstep as <-.
      set (r := fresh (dom (boxes (Race.world s)))).
      assert (Es' : forall f l ths,
        akey_slot {| Race.world := written p k (Boxed r)
                       {| maps := maps (Race.world s);
                          boxes := <[r:=None]> (boxes (Race.world s));
                          calls := calls (Race.world s) |};
                     Race.mu := f; Race.locked := l; Race.threads := ths |}
        = Boxed r).
      { intros. unfold Race.key_slot; simpl.
        rewrite lookup_insert_eq; simpl. rewrite lookup_insert_eq. reflexivity. }
      split; [eapply mutex_keep; eauto|].
      split; [intros r'; eapply mutex_keep; eauto|].
      rewrite Es'. intros j cj Ej. simpl in Ej.
      apply lookup_moved in Ej as [[-> ->]|[Nj Ej]]; [reflexivity|].
      pose proof (mutex_alone _ _ _ _ _ _ _ Hmu Ei eq_refl Ej Nj) as Hj.
      pose proof (Hfit _ _ Ej) as Fj. rewrite ?Es in Fj.
      destruct cj; simpl in *; try discriminate; tauto.
    + subst sl. unfold KVMap.ref_wrap, ret, Race.moved in Hstep.
      injection Hstep as <-. apply (ainv_local _ _ _ _ _ _ Hinv Ei).
      * eapply mutex_keep; eauto.
      * intros r'. eapply mutex_keep; eauto.
      * rewrite Es. reflexivity.
  - (* m.mu.Unlock() *)
    injection Hstep as <-. apply (ainv_local _ _ _ _ _ _ Hinv Ei).
    + eapply mutex_release; eauto.
    + intros r'. eapply mutex_keep; eauto.
    + destruct (akey_slot s); simpl in *; tauto.
  - (* ref.Lock() *)
    destruct (decide (r ∈ Race.locked s)) as [|Hfree]; [discriminate|].
    injection Hstep as <-. apply (ainv_local _ _ _ _ _ _ Hinv Ei).
    + eapply mutex_keep; eauto.
    + intros r'. destruct (decide (r' = r)) as [->|Nr].
      * eapply mutex_flag; [|eapply mutex_acquire; eauto].
        -- symmetry. apply bool_decide_eq_true.
           apply elem_of_union_l, elem_of_singleton. reflexivity.
        -- eapply mutex_flag; [|apply Hbox].
           apply bool_decide_eq_false. exact Hfree.
        -- simpl. apply bool_decide_eq_true. reflexivity.
      * eapply mutex_flag; [|eapply mutex_keep; eauto].
        -- apply bool_decide_ext. rewrite elem_of_union, elem_of_singleton. tauto.
        -- simpl. apply bool_decide_eq_false. congruence.
    + destruct (akey_slot s); simpl in *; tauto.
  - (* ref.val == nil *)
    unfold Race.action, KVMap.box_is_nil, bind, load_box, ret, Race.moved
      in Hstep.
    injection Hstep as <-.
    destruct (akey_slot s) as [v|r0] eqn:Es; simpl in Fi; [tauto|subst r].
    apply (ainv_local _ _ _ _ _ _ Hinv Ei).
    + eapply mutex_keep; eauto.
      destruct (default None (boxes (Race.world s) !! r0)); reflexivity.
    + intros r'. eapply mutex_keep; eauto.
      destruct (default None (boxes (Race.world s) !! r0)); reflexivity.
    + rewrite (box_value_boxed _ _ _ _ Es), Es.
      destruct (default None (boxes (Race.world s) !! r0)) eqn:Eb; simpl; auto.
  - (* ref.val = new() *)
    unfold Race.action, KVMap.box_init, bind, call, store_box, Race.moved
      in Hstep.
    injection Hstep as <-.
    destruct (akey_slot s) as [v|r0] eqn:Es; simpl in Fi; [tauto|].
    destruct Fi as [-> Eb].
    split; [eapply mutex_keep; eauto|].
    split; [intros r'; eapply mutex_keep; eauto|].
    assert (Es' : akey_slot
      {| Race.world := {| maps := maps (Race.world s);
                          boxes := <[r0:=fn_res new (calls (Race.world s))]>
                                     (boxes (Race.world s));
                          calls := calls (Race.world s) ++ [fn_id new] |};
         Race.mu := Race.mu s; Race.locked := Race.locked s;
         Race.threads := <[i:=Race.Ready r0]> (Race.threads s) |}
      = Boxed r0) by exact Es.
    rewrite Es'. intros j cj Ej. simpl in Ej.
    apply lookup_moved in Ej as [[-> ->]|[Nj Ej]]; [reflexivity|].
    assert (Hi : Race.holds_box r0 (Race.Tested (V:=V) r0) = true)
      by (apply bool_decide_eq_true; reflexivity).
    pose proof (mutex_alone _ _ _ _ _ _ _ (Hbox r0) Ei Hi Ej Nj) as Hj.
    pose proof (Hfit _ _ Ej) as Fj. rewrite ?Es, ?Eb in Fj.
    destruct cj; simpl in *; try tauto;
      try (apply bool_decide_eq_false in Hj; tauto).
  - (* return ref.val *)
    unfold Race.action, load_box, Race.moved in Hstep.
    injection Hstep as <-.
    destruct (akey_slot s) as [v|r0] eqn:Es; simpl in Fi; [tauto|].
    subst r.
    apply (ainv_local _ _ _ _ _ _ Hinv Ei).
    + eapply mutex_keep; eauto.
    + intros r'. eapply mutex_keep; eauto.
    + rewrite Es. simpl. rewrite (box_value_boxed _ _ _ _ Es). auto.
  - (* the deferred ref.Unlock() *)
    injection Hstep as <-. apply (ainv_local _ _ _ _ _ _ Hinv Ei).
    + eapply mutex_keep; eauto.
    + intros r'. destruct (decide (r' = r)) as [->|Nr].
      * eapply mutex_flag; [|eapply mutex_release; eauto].
        -- symmetry. apply bool_decide_eq_false.
           rewrite elem_of_difference, elem_of_singleton. tauto.
        -- simpl. apply bool_decide_eq_true. reflexivity.
      * eapply mutex_flag; [|eapply mutex_keep; eauto].
        -- apply bool_decide_ext.
           rewrite elem_of_difference, elem_of_singleton. intuition congruence.
        -- simpl. symmetry. apply bool_decide_eq_false. congruence.
    + destruct (akey_slot s) as [v0|r0]; simpl in *; [tauto|].
      destruct Fi as [_ ->]. auto.
  - discriminate.
Qed.

Lemma arun_inv sched s : ainv s -> ainv (arun sched s).
Proof.
  revert s. induction sched as [|i rest IH]; intros s Hinv; [exact Hinv|].
  simpl. apply IH. destruct (astep i s) as [s'|] eqn:E; simpl; [|exact Hinv].
  eapply astep_inv; eauto.
Qed.

Lemma astart_inv n (w0 : World K V) :
  maps w0 !! p = None -> ainv (Race.start n w0).
Proof.
  intros Ep.
  assert (Hth : forall i ci, Race.threads (Race.start n w0) !! i = Some ci ->
                             ci = Race.AtStart).
  { intros i ci E. apply lookup_replicate in E. tauto. }
  assert (Hslot : akey_slot (Race.start n w0) = Raw None).
  { unfold Race.key_slot; simpl. rewrite Ep. reflexivity. }
  assert (Hm : forall h, h (Race.AtStart (V:=V)) = false ->
             mutex false h (Race.threads (Race.start n w0))).
  { intros h Hh. split; [|split]; [| |discriminate].
    - intros i j ci cj Ei _ Hi. rewrite (Hth _ _ Ei) in Hi. congruence.
    - intros i ci Ei Hi. rewrite (Hth _ _ Ei) in Hi. congruence. }
  split; [apply Hm; auto|]. split; [intros r; apply Hm; auto|].
  rewrite Hslot. intros i ci Ei. rewrite (Hth _ _ Ei). simpl. auto.
Qed.

Lemma astep_materialized s i s' r x :
  ainv s -> astep i s = Some s' ->
  akey_slot s = Boxed r -> default None (boxes (Race.world s) !! r) = Some x ->
  akey_slot s' = Boxed r /\
  default None (boxes (Race.world s') !! r) = Some x /\
  calls (Race.world s') = calls (Race.world s).
Proof.
  intros (_ & _ & Hfit) Hstep Es Eb.
  unfold Race.step in Hstep.
  destruct (Race.threads s !! i) as [ci|] eqn:Ei; [|discriminate].
  pose proof (Hfit _ _ Ei) as Fi.
  rewrite (box_value_boxed _ _ _ _ Es), Es, Eb in Fi.
  unfold Race.action, Race.moved in Hstep.
  destruct ci as [| |sl|r'|r'|r'|r'|r'|r' v|v]; simpl in Fi.
  - destruct (Race.mu s); [discriminate|]. injection Hstep as <-. auto.
  - injection Hstep as <-. auto.
  - subst sl. injection Hstep as <-. auto.
  - injection Hstep as <-. auto.
  - destruct (decide (r' ∈ Race.locked s)); [discriminate|].
    injection Hstep as <-. auto.
  - injection Hstep as <-. auto.
  - destruct Fi as [_ Fi]. discriminate.
  - injection Hstep as <-. auto.
  - injection Hstep as <-. auto.
  - discriminate.
Qed.

Lemma arun_materialized sched s r x :
  ainv s -> akey_slot s = Boxed r ->
  default None (boxes (Race.world s) !! r) = Some x ->
  akey_slot (arun sched s) = Boxed r /\
  default None (boxes (Race.world (arun sched s)) !! r) = Some x /\
  calls (Race.world (arun sched s)) = calls (Race.world s).
Proof.
  revert s. induction sched as [|i rest IH]; intros s Hinv Es Eb; [auto|].
  simpl. destruct (astep i s) as [s'|] eqn:E; simpl; [|apply IH; auto].
  destruct (astep_materialized _ _ _ _ _ Hinv E Es Eb) as (Es' & Eb' & Ec').
  destruct (IH s' (astep_inv _ _ _ Hinv E) Es' Eb') as (? & ? & Ec'').
  repeat split; auto. congruence.
Qed.

Lemma aprogress s :
  ainv s -> ~ Race.all_done s -> exists i s', astep i s = Some s'.
Proof.
  intros (Hmu & Hbox & _) Hnd.
  destruct (Race.mu s) eqn:Emu.
  { destruct Hmu as (_ & _ & Ho). destruct (Ho eq_refl) as (i & ci & Ei & Hi).
    exists i. apply (holder_enabled p k new _ _ _ Ei). auto. }
  apply not_Forall_Exists in Hnd; [|intros c; apply _].
  apply Exists_exists in Hnd as (ci & Hin & Hci).
  apply list_elem_of_lookup in Hin as (i & Ei).
  destruct ci as [| |sl|r|r|r|r|r|r v|v];
    try (exists i; apply (step_enabled p k new _ _ _ Ei); auto; fail).
  destruct (decide (r ∈ Race.locked s)) as [Hin|Hfree].
  - destruct (Hbox r) as (_ & _ & Ho).
    destruct (Ho (bool_decide_eq_true_2 _ Hin)) as (j & cj & Ej & Hj).
    exists j. apply (holder_enabled p k new _ _ _ Ej). eauto.
  - exists i. apply (step_enabled p k new _ _ _ Ei). exact Hfree.
Qed.

(** From any reachable state the calls all return within as many actions
    as they still have to take. *)
Lemma acompletes s :
  ainv s ->
  exists sched, length sched <= Race.total_todo s /\ Race.all_done (arun sched s).
Proof.
  remember (Race.total_todo s) as n eqn:En.
  revert s En. induction (lt_wf n) as [n _ IH]; intros s -> Hinv.
  destruct (decide (Race.all_done s)) as [Hd|Hnd].
  { exists []. split; [simpl; lia|exact Hd]. }
  destruct (aprogress _ Hinv Hnd) as (i & s' & E).
  pose proof (step_decreases p k new _ _ _ E) as Hlt.
  destruct (IH _ Hlt s' eq_refl (astep_inv _ _ _ Hinv E)) as (sched & Hl & Hs).
  exists (i :: sched). split; [simpl; lia|]. simpl. rewrite E. exact Hs.
Qed.

Lemma arun_todo sched s : Race.total_todo (arun sched s) <= Race.total_todo s.
Proof.
  revert s. induction sched as [|i rest IH]; intros s; [reflexivity|].
  simpl. destruct (astep i s) as [s'|] eqn:E; simpl; [|apply IH].
  pose proof (step_decreases p k new _ _ _ E). specialize (IH s'). lia.
Qed.

Lemma start_todo n (w0 : World K V) : Race.total_todo (Race.start n w0) = 9 * n.
Proof.
  unfold Race.total_todo, Race.start; simpl.
  induction n as [|n IH]; [reflexivity|].
  change (replicate (S n) (Race.AtStart (V:=V)))
    with (Race.AtStart (V:=V) :: replicate n Race.AtStart).
  rewrite fmap_cons. simpl. rewrite IH. lia.
Qed.
End race_any.

Section race_any_results.
Context {K : Type} `{Countable K} {V : Type}.
Implicit Types (p : loc) (k : K) (new : Init V).

(** X10. Goroutines call [Ref] on one key of a store whose table is nil
    (never written to, or cleared).  Whatever the initialiser does, the two
    kinds of mutex of [Ref] do their work: in every state a schedule leads
    to, at most one
    goroutine is between [m.mu.Lock()] and [m.mu.Unlock()], at most one
    holds the mutex of a given box, and every goroutine that has a box has
    the one box that the key's slot points to. *)
Theorem Ref_locks_exclusive p k new (n : nat) (w0 : World K V)
    (sched : list nat) :
  maps w0 !! p = None ->
  let s := Race.run p k new sched (Race.start n w0) in
  (forall i j ci cj,
     Race.threads s !! i = Some ci -> Race.threads s !! j = Some cj ->
     Race.holds_mu ci = true -> Race.holds_mu cj = true -> i = j) /\
  (forall r i j ci cj,
     Race.threads s !! i = Some ci -> Race.threads s !! j = Some cj ->
     Race.holds_box r ci = true -> Race.holds_box r cj = true -> i = j) /\
  (forall i ci r,
     Race.threads s !! i = Some ci -> RaceAny.ref_of ci = Some r ->
     Race.key_slot p k s = Boxed r).
Proof.
  intros Ep s.
  assert (Hinv : RaceAny.inv p k s) by (apply arun_inv, astart_inv; exact Ep).
  destruct Hinv as (Hmu & Hbox & Hfit).
  split; [exact (proj1 Hmu)|]. split; [intros r; exact (proj1 (Hbox r))|].
  intros i ci r Ei Hr. pose proof (Hfit _ _ Ei) as Fi.
  destruct (Race.key_slot p k s) as [v|r0]; destruct ci; simpl in *;
    try discriminate; try tauto; injection Hr as <-;
    try (destruct Fi; congruence); congruence.
Qed.

(** X11. Goroutines call [Ref] on one key of a store whose table is nil
    (never written to, or cleared).  Whatever the initialiser does, all
    the calls of [Ref] that have returned a value that is not nil have returned the same one, which the
    box of the key holds; and once that box holds a value, no action
    changes it or calls the initialiser again. *)
Theorem Ref_results_agree p k new (n : nat) (w0 : World K V)
    (sched : list nat) :
  maps w0 !! p = None ->
  let s := Race.run p k new sched (Race.start n w0) in
  (forall i x, Race.threads s !! i = Some (Race.Done (Some x)) ->
     Race.box_value p k s = Some x) /\
  (forall i j x y,
     Race.threads s !! i = Some (Race.Done (Some x)) ->
     Race.threads s !! j = Some (Race.Done (Some y)) -> x = y) /\
  (forall r x more,
     Race.key_slot p k s = Boxed r ->
     default None (boxes (Race.world s) !! r) = Some x ->
     let s' := Race.run p k new more s in
     Race.key_slot p k s' = Boxed r /\
     default None (boxes (Race.world s') !! r) = Some x /\
     calls (Race.world s') = calls (Race.world s)).
Proof.
  intros Ep s.
  assert (Hinv : RaceAny.inv p k s) by (apply arun_inv, astart_inv; exact Ep).
  pose proof Hinv as (_ & _ & Hfit).
  assert (Hdone : forall i x, Race.threads s !! i = Some (Race.Done (Some x)) ->
                              Race.box_value p k s = Some x).
  { intros i x Ei. pose proof (Hfit _ _ Ei) as Fi.
    destruct (Race.key_slot p k s); simpl in Fi; [tauto|].
    destruct Fi as [Fi|Fi]; [discriminate|auto]. }
  split; [exact Hdone|]. split.
  - intros i j x y Ei Ej.
    pose proof (Hdone _ _ Ei) as Hx. rewrite (Hdone _ _ Ej) in Hx.
    congruence.
  - intros r x more Es Eb. simpl.
    exact (arun_materialized p k new more s r x Hinv Es Eb).
Qed.

(** X12. Whatever the initialiser does, concurrent calls of [Ref] on one
    key of a store whose table is nil (never written to, or cleared) never
    deadlock: a state in which no goroutine can move is one in
    which all have returned, and from every state all [n] calls return
    within [9 * n] further actions. *)
Theorem Ref_never_deadlocks p k new (n : nat) (w0 : World K V)
    (sched : list nat) :
  maps w0 !! p = None ->
  let s := Race.run p k new sched (Race.start n w0) in
  ((forall i, Race.step p k new i s = None) -> Race.all_done s) /\
  (exists more, length more <= 9 * n /\
                Race.all_done (Race.run p k new more s)).
Proof.
  intros Ep s.
  assert (Hinv : RaceAny.inv p k s) by (apply arun_inv, astart_inv; exact Ep).
  split.
  - intros Hstuck. destruct (decide (Race.all_done s)) as [Hd|Hnd]; [exact Hd|].
    destruct (aprogress p k new s Hinv Hnd) as (i & s' & E).
    rewrite Hstuck in E. discriminate.
  - destruct (acompletes p k new s Hinv) as (more & Hl & Hd).
    exists more. split; [|exact Hd].
    pose proof (arun_todo p k new sched (Race.start n w0)) as Ht.
    rewrite start_todo in Ht. fold s in Ht. lia.
Qed.
End race_any_results.

(** X10 with three goroutines and an initialiser that returns nil. *)
Lemma Ref_locks_exclusive_witness :
  let new := mkInit (V:=nat) 0 (fun _ => None) in
  let s := Race.run (K:=nat) 0 5 new [0;1;2;0;1;2;0;0;0;1;2;0;0;1;1]
             (Race.start 3 new_world) in
  maps (new_world (K:=nat) (V:=nat)) !! 0 = None /\
  forall i j ci cj,
    Race.threads s !! i = Some ci -> Race.threads s !! j = Some cj ->
    Race.holds_mu ci = true -> Race.holds_mu cj = true -> i = j.
Proof.
  cbv zeta. split; [reflexivity|].
  exact (proj1 (Ref_locks_exclusive (K:=nat) 0 5
                  (mkInit (V:=nat) 0 (fun _ => None)) 3 new_world
                  [0;1;2;0;1;2;0;0;0;1;2;0;0;1;1] eq_refl)).
Defined.

(** X11 with two goroutines and an initialiser that returns nil on its
    first call and [Some 8] on the second. *)
Lemma Ref_results_agree_witness :
  let new := mkInit (V:=nat) 0
               (fun l => match l with [] => None | _ => Some 8 end) in
  let s := Race.run (K:=nat) 0 5 new
             [0;0;0;0;0;0;0;0;0;1;1;1;1;1;1;1;1;1] (Race.start 2 new_world) in
  maps (new_world (K:=nat) (V:=nat)) !! 0 = None /\
  Race.threads s = [Race.Done None; Race.Done (Some 8)] /\
  Race.box_value 0 5 s = Some 8.
Proof.
  cbv zeta. split; [reflexivity|].
  split; [vm_compute; reflexivity|].
  match goal with
  | |- Race.box_value _ _ (Race.run ?p ?k ?new ?sched (Race.start ?n ?w)) = _ =>
      apply (proj1 (Ref_results_agree p k new n w sched eq_refl) 1)
  end.
  vm_compute. reflexivity.
Defined.

(** X12 with two goroutines stopped in the middle of their calls. *)
Lemma Ref_never_deadlocks_witness :
  let new := mkInit (V:=nat) 0 (fun _ => None) in
  let s := Race.run (K:=nat) 0 5 new [0;1;0;1;0;0;0;1]
             (Race.start 2 new_world) in
  maps (new_world (K:=nat) (V:=nat)) !! 0 = None /\
  exists more, length more <= 9 * 2 /\
               Race.all_done (Race.run 0 5 new more s).
Proof.
  cbv zeta. split; [reflexivity|].
  exact (proj2 (Ref_never_deadlocks (K:=nat) 0 5
                  (mkInit (V:=nat) 0 (fun _ => None)) 2 new_world
                  [0;1;0;1;0;0;0;1] eq_refl)).
Defined.

(** *** The names of the codecs *)

(** X13. [CodecNamesStr] is built for any list of names the same way: all
    names but the last joined by ", ", then " or ", then the last name; for
    one name that is " or " and the name, and for no name at all the slice
    expression panics. *)
Theorem names_str_form (init : list string) (last : string) :
  names_str [] = None /\
  names_str [last] = Some (" or " +:+ last) /\
  names_str (init ++ [last])
  = Some (String.concat ", " init +:+ " or " +:+ last).
Proof.
  split; [reflexivity|]. split; [reflexivity|].
  unfold names_str. rewrite length_app. simpl.
  replace (Z.of_nat (length init + 1) - 1)%Z with (Z.of_nat (length init)) by lia.
  destruct (Z.ltb_spec (Z.of_nat (length init)) 0) as [Hlt|_]; [lia|].
  rewrite Nat2Z.id.
  rewrite lookup_app_r by lia. rewrite Nat.sub_diag. simpl.
  rewrite take_app_length. reflexivity.
Qed.

(** X14. [CodecNames] does not depend on the order in which [range] yields
    the keys of a registry: for any list of keys the names are sorted, they
    are the keys other than the empty one, and two orders of the same keys
    give the same names. *)
Theorem names_in_sorted (keys keys' : list string) :
  Sorted String.le (names_in keys) /\
  (forall name, name ∈ names_in keys <-> name ∈ keys /\ name <> "") /\
  (keys ≡ₚ keys' -> names_in keys = names_in keys').
Proof.
  split; [apply Sorted_merge_sort; apply _|]. split.
  - intros name. unfold names_in. rewrite merge_sort_Permutation.
    rewrite list_elem_of_filter. tauto.
  - intros Hp. unfold names_in. apply (Sorted_unique String.le).
    + apply Sorted_merge_sort; apply _.
    + apply Sorted_merge_sort; apply _.
    + rewrite !merge_sort_Permutation, Hp. reflexivity.
Qed.

(** X14 on two orders of the keys of the registry. *)
Lemma names_in_sorted_witness :
  ["json"; ""; "msgpack"; "cbor"] ≡ₚ [""; "cbor"; "json"; "msgpack"] /\
  names_in ["json"; ""; "msgpack"; "cbor"]
  = names_in [""; "cbor"; "json"; "msgpack"].
Proof.
  assert (Hp : ["json"; ""; "msgpack"; "cbor"]
               ≡ₚ [""; "cbor"; "json"; "msgpack"]).
  { apply (Permutation_trans (l' := [""; "json"; "msgpack"; "cbor"])).
    - apply Permutation_swap.
    - apply Permutation_skip.
      apply (Permutation_trans (l' := ["json"; "cbor"; "msgpack"])).
      + apply Permutation_skip, Permutation_swap.
      + apply Permutation_swap. }
  split; [exact Hp|].
  exact (proj2 (proj2 (names_in_sorted _ _)) Hp).
Defined.

(** *** The decode loop: order and balance *)

Section loop_order.
Variable env : Step -> Outcome.

(** X15. [communicate] announces the start once, then handles the
    requests in the order in which they were decoded: for each one the
    properties are finalised and the request is handed to the store before
    the next one is decoded.  Nothing that follows the first failed
    [Decode] is handled, and the wait group ends as it began. *)
Theorem communicate_in_order (ins : list Decoded) (ag : Agent) :
  trace (snd (Agent.communicate ins ag))
  = trace ag ++ [LogPrintln "started"; DispatchStarted; StoreReady]
    ++ (decoded_before ins ≫= handled) /\
  wg (snd (Agent.communicate ins ag)) = wg ag /\
  sd_closed (snd (Agent.communicate ins ag)) = sd_closed ag /\
  (forall rqs e rest,
     ins = (Req <$> rqs) ++ Fail e :: rest -> decoded_before ins = rqs) /\
  (forall rqs, ins = Req <$> rqs -> decoded_before ins = rqs).
Proof.
  unfold Agent.communicate.
  split; [rewrite loop_trace, emit_trace, <- app_assoc; reflexivity|].
  destruct (loop_keeps ins
              (emit [LogPrintln "started"; DispatchStarted; StoreReady] ag))
    as [-> ->].
  destruct (emit_keeps [LogPrintln "started"; DispatchStarted; StoreReady] ag)
    as [-> ->].
  split; [reflexivity|]. split; [reflexivity|]. split.
  - intros rqs e rest ->. apply decoded_before_requests. eauto.
  - intros rqs ->. rewrite <- (app_nil_r (Req <$> rqs)).
    apply decoded_before_requests. auto.
Qed.

(** X16. [Run] does not shut down before [communicate] returns: while
    [Decode] has not failed, no deferred call of [shutdown] is made and
    [sd.closed] stays as it is.  And on an agent that was shut down before,
    [Run] returns what [communicate] returns and makes none of the five
    calls again. *)
Theorem Run_shutdown_edges (ins : list Decoded) (ag : Agent) :
  (forall rqs, ins = Req <$> rqs ->
     Agent.Run env ins ag = (Pending, snd (Agent.communicate ins ag)) /\
     sd_closed (snd (Agent.Run env ins ag)) = sd_closed ag /\
     Agent.steps_of (trace (snd (Agent.Run env ins ag)))
     = Agent.steps_of (trace ag)) /\
  (sd_closed ag = true ->
     Agent.Run env ins ag = Agent.communicate ins ag /\
     Agent.steps_of (trace (snd (Agent.Run env ins ag)))
     = Agent.steps_of (trace ag)).
Proof.
  assert (Hsteps : Agent.steps_of (trace (snd (Agent.communicate ins ag)))
                   = Agent.steps_of (trace ag)).
  { rewrite (proj1 (communicate_in_order ins ag)).
    rewrite !steps_of_app. simpl.
    assert (Hn : forall l, Agent.steps_of (l ≫= handled) = []).
    { induction l as [|rq l IH]; [reflexivity|].
      change ((rq :: l) ≫= handled) with (handled rq ++ (l ≫= handled)).
      rewrite steps_of_app, IH. reflexivity. }
    rewrite Hn, app_nil_r. reflexivity. }
  pose proof (communicate_in_order ins ag) as (_ & _ & Hc & _).
  split.
  - intros rqs ->. unfold Agent.Run.
    pose proof (loop_returns (Req <$> rqs)
                  (emit [LogPrintln "started"; DispatchStarted; StoreReady] ag))
      as Hr.
    unfold Agent.communicate in *.
    destruct (Agent.loop (Req <$> rqs) _) as [r a] eqn:El. simpl in *.
    destruct r as [|err|]; [auto| |destruct Hr].
    exfalso. destruct Hr as (rqs' & e & rest & Heq & _).
    assert (Hin : Fail e ∈ Req <$> rqs).
    { rewrite Heq. apply elem_of_app. right. left. }
    apply list_elem_of_fmap in Hin as (rq & Hrq & _). discriminate.
  - intros Ec. unfold Agent.Run.
    destruct (Agent.communicate ins ag) as [r a] eqn:El. simpl in *.
    destruct r as [|err|]; auto.
    unfold Agent.shutdown. rewrite Hc, Ec.
    rewrite drop_all. simpl. auto.
Qed.

(** X17. [shutdown] closes the input before it waits: called while
    requests are in flight it sets [sd.closed], makes the first deferred
    call and then stays in [wg.Wait()], so that the store is not told of
    the shutdown and the output is not closed. *)
Theorem shutdown_waits (ag : Agent) :
  sd_closed ag = false -> wg ag <> 0 ->
  exists ag',
    Agent.shutdown env ag = (false, ag') /\
    sd_closed ag' = true /\
    trace ag' = trace ag ++ [Did StdinClose (env StdinClose)].
Proof.
  intros Ec Ew. unfold Agent.shutdown. rewrite Ec.
  destruct ag as [n i o e h en de b w c t]; simpl in *.
  destruct w as [|w]; [congruence|].
  eexists. split; [reflexivity|]. split; reflexivity.
Qed.
End loop_order.

(** X16 on an agent that was shut down before. *)
Lemma Run_shutdown_edges_witness :
  let ag := mkAgent "margo"
              {| Reader := Some OsStdin; Writer := None; Closer := Some OsStdin |}
              {| Reader := None; Writer := Some OsStdout; Closer := Some OsStdout |}
              {| Reader := None; Writer := Some OsStderr; Closer := None |}
              (Some (JsonHandle 2 true))
              ({| Reader := None; Writer := Some OsStdout; Closer := Some OsStdout |},
               Some (JsonHandle 2 true))
              ({| Reader := Some OsStdin; Writer := None; Closer := Some OsStdin |},
               Some (JsonHandle 2 true))
              None 0 true [] in
  sd_closed ag = true /\
  Agent.Run (fun _ => Fine) [Fail EOF] ag = Agent.communicate [Fail EOF] ag.
Proof.
  cbv zeta. split; [reflexivity|].
  match goal with
  | |- Agent.Run ?env ?ins ?ag = _ =>
      exact (proj1 (proj2 (Run_shutdown_edges env ins ag) eq_refl))
  end.
Defined.

(** X17 on an agent with one request in flight. *)
Lemma shutdown_waits_witness :
  let ag := mkAgent "margo"
              {| Reader := Some OsStdin; Writer := None; Closer := Some OsStdin |}
              {| Reader := None; Writer := Some OsStdout; Closer := Some OsStdout |}
              {| Reader := None; Writer := Some OsStderr; Closer := None |}
              (Some (JsonHandle 2 true))
              ({| Reader := None; Writer := Some OsStdout; Closer := Some OsStdout |},
               Some (JsonHandle 2 true))
              ({| Reader := Some OsStdin; Writer := None; Closer := Some OsStdin |},
               Some (JsonHandle 2 true))
              None 1 false [] in
  exists ag',
    Agent.shutdown (fun _ => Fine) ag = (false, ag') /\
    sd_closed ag' = true /\
    trace ag' = [Did StdinClose Fine].
Proof.
  cbv zeta.
  match goal with
  | |- exists ag', Agent.shutdown ?env ?ag = _ /\ _ =>
      exact (shutdown_waits env ag eq_refl (fun e : 1 = 0 =>
               eq_ind 1 (fun n => match n with 0 => False | _ => True end) I 0 e))
  end.
Defined.

(** *** The push of a state *)

(** X18. [listener] sends the state as a response with an empty cookie:
    it encodes the projection and flushes.  When the encoder fails it logs
    the error and starts [shutdown] on a goroutine of its own: it makes
    none of the deferred calls itself and leaves [sd.closed] and the wait
    group alone.  It panics only when the state, or its view, is nil. *)
Theorem listener_outcomes (Format : Z -> string) (EditorConfig : string -> string)
    (encoded : option string) (st : option State) (ag : Agent) :
  match Agent.listener Format EditorConfig encoded st ag with
  | None => st = None \/ exists s, st = Some s /\ st_View s = None
  | Some ag' =>
      exists out,
        agentRes.finalize Format EditorConfig
          {| Cookie := ""; Error := ""; res_State := st |} = Some out /\
        out_Cookie out = "" /\
        trace ag' = trace ag ++ [Encode out; Flush] ++
                    match encoded with
                    | None => []
                    | Some err =>
                        [LogPrintln ("agent.send failed. shutting down ipc: "
                                     +:+ err);
                         GoShutdown]
                    end /\
        Agent.steps_of (trace ag') = Agent.steps_of (trace ag) /\
        sd_closed ag' = sd_closed ag /\ wg ag' = wg ag
  end.
Proof.
  unfold Agent.listener, Agent.send, agentRes.finalize. simpl.
  destruct st as [s|]; [|auto].
  destruct (st_View s) as [vw|] eqn:Ev; [|eauto].
  destruct encoded as [err|]; eexists; (split; [reflexivity|]);
    (split; [reflexivity|]); destruct ag; simpl;
    rewrite <- ?app_assoc, ?steps_of_app; simpl; rewrite ?app_nil_r; auto.
Qed.

(** *** Concurrent callers of [Agent.shutdown]: requests and the flag *)

Section halt_more.
Variable env : Step -> Outcome.

(** X19. [wg.Wait()] returns only when no request is in flight: in every
    state a schedule leads to, the goroutine that unwinds [shutdown] can
    make that call only if the counter is zero, and then no goroutine is
    between [wg.Add(1)] and [wg.Done()]. *)
Theorem Wait_when_drained (callers : nat) (rqs : list agentReq) (ag : Agent)
    (sched : list nat) (i : nat) (rest : list Step) (s' : Halt.Machine) :
  sd_closed ag = false -> wg ag = 0 -> Agent.steps_of (trace ag) = [] ->
  let s := Halt.run env sched (Halt.start callers rqs ag) in
  Halt.threads s !! i = Some (Halt.SUnwind (WgWait :: rest)) ->
  Halt.step env i s = Some s' ->
  wg (Halt.agent s) = 0 /\
  (forall j c, Halt.threads s !! j = Some c -> Halt.in_flight c = 0) /\
  trace (Halt.agent s')
  = trace (Halt.agent s) ++ [Did WgWait (env WgWait)].
Proof.
  intros Ec Ew Et s Ei Hstep.
  assert (Hinv : Halt.inv s) by (apply hrun_inv, hstart_inv; auto).
  destruct Hinv as (_ & _ & _ & _ & Hwg).
  unfold Halt.step in Hstep. rewrite Ei in Hstep. unfold Agent.exec in Hstep.
  destruct (Nat.eqb (wg (Halt.agent s)) 0) eqn:E0; [|discriminate].
  apply Nat.eqb_eq in E0. injection Hstep as <-.
  split; [exact E0|]. split.
  - apply sum_zero_each. congruence.
  - simpl. apply emit_trace.
Qed.

Lemma synced_app es es' : synced (es ++ es') = synced es ++ synced es'.
Proof. unfold synced. apply omap_app. Qed.

Lemma bind_moved_same (ths : list Halt.pc) i ci c :
  ths !! i = Some ci -> to_sync c = to_sync ci ->
  <[i:=c]> ths ≫= to_sync = ths ≫= to_sync.
Proof.
  revert i. induction ths as [|a ths IH]; intros [|i] E Hc; try discriminate.
  - injection E as ->. change (<[0:=c]> (ci :: ths)) with (c :: ths).
    rewrite !bind_cons, Hc. reflexivity.
  - change (<[S i:=c]> (a :: ths)) with (a :: <[i:=c]> ths).
    rewrite !bind_cons, (IH i E Hc). reflexivity.
Qed.

Lemma bind_moved_synced (ths : list Halt.pc) i ci c rq :
  ths !! i = Some ci -> to_sync ci = [rq] -> to_sync c = [] ->
  ths ≫= to_sync ≡ₚ rq :: (<[i:=c]> ths ≫= to_sync).
Proof.
  revert i. induction ths as [|a ths IH]; intros [|i] E Hci Hc; try discriminate.
  - injection E as ->. change (<[0:=c]> (ci :: ths)) with (c :: ths).
    rewrite !bind_cons, Hci, Hc. reflexivity.
  - change (<[S i:=c]> (a :: ths)) with (a :: <[i:=c]> ths).
    rewrite !bind_cons, (IH i E Hci Hc).
    symmetry. apply Permutation_middle.
Qed.

(** The requests handed over and those still to hand over, together. *)
Lemma hstep_requests s i s' :
  Halt.step env i s = Some s' ->
  synced (trace (Halt.agent s')) ++ (Halt.threads s' ≫= to_sync)
  ≡ₚ synced (trace (Halt.agent s)) ++ (Halt.threads s ≫= to_sync).
Proof.
  unfold Halt.step, Halt.moved. intros Hstep.
  destruct (Halt.threads s !! i) as [ci|] eqn:Ei; [|discriminate].
  assert (Hsame : forall ag f c,
    synced (trace ag) = synced (trace (Halt.agent s)) ->
    to_sync c = to_sync ci ->
    synced (trace (Halt.agent {| Halt.agent := ag; Halt.sd_mu := f;
                                 Halt.threads := <[i:=c]> (Halt.threads s) |}))
    ++ (Halt.threads {| Halt.agent := ag; Halt.sd_mu := f;
                        Halt.threads := <[i:=c]> (Halt.threads s) |} ≫= to_sync)
    ≡ₚ synced (trace (Halt.agent s)) ++ (Halt.threads s ≫= to_sync)).
  { intros ag f c Ht Hc. simpl. rewrite Ht, (bind_moved_same _ _ _ _ Ei Hc).
    reflexivity. }
  assert (Hset : forall b, synced (trace (set_closed b (Halt.agent s)))
                           = synced (trace (Halt.agent s)))
    by (intros; destruct (Halt.agent s); reflexivity).
  assert (Hwg : forall n, synced (trace (set_wg n (Halt.agent s)))
                          = synced (trace (Halt.agent s)))
    by (intros; destruct (Halt.agent s); reflexivity).
  destruct ci as [| | |todo| | |rq|rq| |].
  - destruct (Halt.sd_mu s); [discriminate|]. injection Hstep as <-. auto.
  - injection Hstep as <-. apply Hsame; [reflexivity|].
    destruct (sd_closed (Halt.agent s)); reflexivity.
  - injection Hstep as <-. auto.
  - destruct todo as [|st rest]; [injection Hstep as <-; auto|].
    destruct (Agent.exec env st (Halt.agent s)) as [ag'|] eqn:Ex; [|discriminate].
    injection Hstep as <-. apply Hsame; [|reflexivity].
    assert (ag' = emit [Did st (env st)] (Halt.agent s)) as ->.
    { unfold Agent.exec in Ex. destruct st; try (injection Ex as <-; reflexivity).
      destruct (Nat.eqb (wg (Halt.agent s)) 0); [|discriminate].
      injection Ex as <-. reflexivity. }
    rewrite emit_trace, synced_app. simpl. apply app_nil_r.
  - injection Hstep as <-. auto.
  - discriminate.
  - injection Hstep as <-. auto.
  - injection Hstep as <-. cbn [Halt.agent Halt.threads].
    rewrite emit_trace, synced_app.
    rewrite (bind_moved_synced _ _ _ Halt.HSynced rq Ei eq_refl eq_refl).
    rewrite <- app_assoc. apply Permutation_app_head.
    change (synced [SyncRq rq]) with [rq]. reflexivity.
  - injection Hstep as <-. auto.
  - discriminate.
Qed.

(** X20. A shutdown that runs beside the request handlers neither drops
    nor repeats a request: the requests handed to the store together with
    those that a goroutine has still to hand over are always the requests
    the goroutines were started with, and once all have returned every one
    of them has been handed over once. *)
Theorem requests_synced_once (callers : nat) (rqs : list agentReq) (ag : Agent)
    (sched : list nat) :
  let s := Halt.run env sched (Halt.start callers rqs ag) in
  synced (trace (Halt.agent s)) ++ (Halt.threads s ≫= to_sync)
  ≡ₚ synced (trace ag) ++ rqs /\
  (Halt.all_done s -> synced (trace (Halt.agent s)) ≡ₚ synced (trace ag) ++ rqs).
Proof.
  intros s.
  assert (Hrun : forall sched s0,
    synced (trace (Halt.agent (Halt.run env sched s0)))
    ++ (Halt.threads (Halt.run env sched s0) ≫= to_sync)
    ≡ₚ synced (trace (Halt.agent s0)) ++ (Halt.threads s0 ≫= to_sync)).
  { induction sched0 as [|i rest IH]; intros s0; [reflexivity|].
    simpl. rewrite IH. destruct (Halt.step env i s0) as [s1|] eqn:E; simpl.
    - apply hstep_requests with i. exact E.
    - reflexivity. }
  assert (Hstart : Halt.threads (Halt.start callers rqs ag) ≫= to_sync = rqs).
  { simpl. rewrite bind_app.
    assert (Hc : forall n, replicate n Halt.SStart ≫= to_sync = []).
    { induction n as [|n IH]; [reflexivity|].
      change (replicate (S n) Halt.SStart) with (Halt.SStart :: replicate n Halt.SStart).
      rewrite bind_cons, IH. reflexivity. }
    rewrite Hc. simpl. clear. induction rqs as [|rq rqs IH]; [reflexivity|].
    rewrite fmap_cons, bind_cons, IH. reflexivity. }
  assert (Hall : synced (trace (Halt.agent s)) ++ (Halt.threads s ≫= to_sync)
                 ≡ₚ synced (trace ag) ++ rqs).
  { unfold s. rewrite Hrun, Hstart. reflexivity. }
  split; [exact Hall|].
  intros Hd. rewrite <- Hall.
  assert (Hnone : Halt.threads s ≫= to_sync = []).
  { clear -Hd. unfold Halt.all_done in Hd.
    induction Hd as [|c l Hc _ IH]; [reflexivity|].
    rewrite bind_cons, IH. destruct c; try discriminate; reflexivity. }
  rewrite Hnone, app_nil_r. reflexivity.
Qed.

Lemma hstep_closed s i s' :
  Halt.step env i s = Some s' ->
  sd_closed (Halt.agent s) = true -> sd_closed (Halt.agent s') = true.
Proof.
  unfold Halt.step, Halt.moved. intros Hstep Ec.
  destruct (Halt.threads s !! i) as [ci|]; [|discriminate].
  destruct ci as [| | |todo| | |rq|rq| |]; try discriminate;
    try (injection Hstep as <-; simpl; destruct (Halt.agent s); auto; fail).
  - destruct (Halt.sd_mu s); [discriminate|]. injection Hstep as <-. auto.
  - destruct todo as [|st rest]; [injection Hstep as <-; auto|].
    unfold Agent.exec in Hstep.
    destruct st; try (injection Hstep as <-; simpl; destruct (Halt.agent s); auto).
    destruct (Nat.eqb (wg (Halt.agent s)) 0); [|discriminate].
    injection Hstep as <-; simpl; destruct (Halt.agent s); auto.
Qed.

(** X21. The flag [sd.closed] guards the five calls: at most one
    goroutine is between [sd.mu.Lock()] and [sd.mu.Unlock()], none of the
    deferred calls is made while the flag is not set, and once it is set it
    stays set. *)
Theorem shutdown_flag (callers : nat) (rqs : list agentReq) (ag : Agent)
    (sched more : list nat) :
  sd_closed ag = false -> wg ag = 0 -> Agent.steps_of (trace ag) = [] ->
  let s := Halt.run env sched (Halt.start callers rqs ag) in
  (forall i j ci cj,
     Halt.threads s !! i = Some ci -> Halt.threads s !! j = Some cj ->
     Halt.holds_mu ci = true -> Halt.holds_mu cj = true -> i = j) /\
  (sd_closed (Halt.agent s) = false -> Agent.steps_of (trace (Halt.agent s)) = []) /\
  (sd_closed (Halt.agent s) = true ->
   sd_closed (Halt.agent (Halt.run env more s)) = true).
Proof.
  intros Ec Ew Et s.
  assert (Hinv : Halt.inv s) by (apply hrun_inv, hstart_inv; auto).
  destruct Hinv as (Hmu & _ & H0 & _).
  split; [exact (proj1 Hmu)|]. split; [exact H0|].
  generalize s. induction more as [|i rest IH]; intros s0 E0; [exact E0|].
  simpl. apply IH. destruct (Halt.step env i s0) as [s1|] eqn:E; simpl; [|exact E0].
  eapply hstep_closed; eauto.
Qed.
End halt_more.

(** X19 with one caller of [shutdown] and one request, handled before the
    caller reaches [wg.Wait()]. *)
Lemma Wait_when_drained_witness :
  let ag := mkAgent "margo"
              {| Reader := Some OsStdin; Writer := None; Closer := Some OsStdin |}
              {| Reader := None; Writer := Some OsStdout; Closer := Some OsStdout |}
              {| Reader := None; Writer := Some OsStderr; Closer := None |}
              (Some (JsonHandle 2 true))
              ({| Reader := None; Writer := Some OsStdout; Closer := Some OsStdout |},
               Some (JsonHandle 2 true))
              ({| Reader := Some OsStdin; Writer := None; Closer := Some OsStdin |},
               Some (JsonHandle 2 true))
              None 0 false [] in
  let rq := {| req_Cookie := "c1"; Actions := []; Props := "" |} in
  let s := Halt.run (fun _ => Fine) [1; 0; 0; 0; 1; 1; 0] (Halt.start 1 [rq] ag) in
  Halt.threads s !! 0
  = Some (Halt.SUnwind [WgWait; DispatchShutdown; StdoutClose; CloseDone]) /\
  wg (Halt.agent s) = 0 /\
  (forall j c, Halt.threads s !! j = Some c -> Halt.in_flight c = 0).
Proof.
  cbv zeta. split; [reflexivity|].
  match goal with
  | |- wg (Halt.agent (Halt.run ?env ?sched (Halt.start ?n ?rqs ?ag))) = 0 /\ _ =>
      destruct (Halt.step env 0 (Halt.run env sched (Halt.start n rqs ag)))
        as [s'|] eqn:E;
      [ destruct (Wait_when_drained env n rqs ag sched 0
                    [DispatchShutdown; StdoutClose; CloseDone] s'
                    eq_refl eq_refl eq_refl eq_refl E) as (H1 & H2 & _);
        exact (conj H1 H2)
      | vm_compute in E; discriminate E ]
  end.
Defined.

(** X21 with two callers of [shutdown] and one request. *)
Lemma shutdown_flag_witness :
  let ag := mkAgent "margo"
              {| Reader := Some OsStdin; Writer := None; Closer := Some OsStdin |}
              {| Reader := None; Writer := Some OsStdout; Closer := Some OsStdout |}
              {| Reader := None; Writer := Some OsStderr; Closer := None |}
              (Some (JsonHandle 2 true))
              ({| Reader := None; Writer := Some OsStdout; Closer := Some OsStdout |},
               Some (JsonHandle 2 true))
              ({| Reader := Some OsStdin; Writer := None; Closer := Some OsStdin |},
               Some (JsonHandle 2 true))
              None 0 false [] in
  let rq := {| req_Cookie := "c1"; Actions := []; Props := "" |} in
  let s := Halt.run (fun _ => Fine) [0; 0; 0] (Halt.start 2 [rq] ag) in
  sd_closed (Halt.agent s) = true /\
  sd_closed (Halt.agent (Halt.run (fun _ => Fine) [2; 0; 1; 2; 2; 0] s)) = true.
Proof.
  cbv zeta. split; [reflexivity|].
  match goal with
  | |- sd_closed (Halt.agent (Halt.run ?env ?more
                    (Halt.run _ ?sched (Halt.start ?n ?rqs ?ag)))) = true =>
      exact (proj2 (proj2 (shutdown_flag env n rqs ag sched more
                             eq_refl eq_refl eq_refl)) eq_refl)
  end.
Defined.

(** *** A new agent, run to the end of its input *)

Lemma Run_at_failure (env : Step -> Outcome) rqs e rest ag :
  sd_closed ag = false -> wg ag = 0 ->
  let ins := (Req <$> rqs) ++ Fail e :: rest in
  Agent.Run env ins ag
  = (if Agent.panics env then Panic
     else Returned (if is_EOF e then None
                    else Some ("ipc.decode: " +:+ message e)),
     emit (Agent.shutdown_events env)
          (set_closed true (snd (Agent.communicate ins ag)))).
Proof.
  intros Ec Ew ins. unfold Agent.Run, Agent.communicate.
  set (ag0 := emit [LogPrintln "started"; DispatchStarted; StoreReady] ag).
  pose proof (loop_at_failure rqs e rest ag0) as Hr. fold ins in Hr.
  destruct (loop_keeps ins ag0) as [Hw Hc].
  destruct (Agent.loop ins ag0) as [r a'] eqn:El. simpl in Hr, Hw, Hc. subst r.
  rewrite (shutdown_runs env a') by (destruct ag; simpl in *; congruence).
  f_equal. destruct a'; simpl. rewrite drop_app_length. reflexivity.
Qed.

(** X22. From [NewAgent] to the return of [Run]: whatever the
    configuration, the agent that [NewAgent] returns, run on requests
    followed by a failed [Decode], announces the start, handles each
    request in turn, then makes the five deferred calls of [shutdown] in
    their order, and nothing else; it ends shut down with no request in
    flight, and [Run] returns what the failed [Decode] decides unless a
    deferred call panics. *)
Theorem NewAgent_then_Run (getenv : string) (cfg : AgentConfig)
    (env : Step -> Outcome) (rqs : list agentReq) (e : error)
    (rest : list Decoded) :
  exists ag err ag',
    NewAgent getenv cfg = Some (ag, err) /\
    Agent.Run env ((Req <$> rqs) ++ Fail e :: rest) ag
    = (if Agent.panics env then Panic
       else Returned (if is_EOF e then None
                      else Some ("ipc.decode: " +:+ message e)), ag') /\
    trace ag'
    = [LogPrintln "started"; DispatchStarted; StoreReady]
      ++ (rqs ≫= handled)
      ++ ((fun st => Did st (env st))
            <$> [StdinClose; WgWait; DispatchShutdown; StdoutClose; CloseDone]) /\
    synced (trace ag') = rqs /\
    sd_closed ag' = true /\ wg ag' = 0 /\
    handle ag' = handle ag /\ enc ag' = enc ag /\ dec ag' = dec ag.
Proof.
  unfold NewAgent. rewrite CodecNamesStr_eq. cbv zeta.
  match goal with
  | |- exists ag err ag', Some (?a, ?b) = _ /\ _ =>
      set (ag0 := a); exists ag0, b
  end.
  eexists. split; [reflexivity|].
  split; [apply (Run_at_failure env rqs e rest ag0); reflexivity|].
  set (ins := (Req <$> rqs) ++ Fail e :: rest).
  assert (Ht : trace (snd (Agent.communicate ins ag0))
               = [LogPrintln "started"; DispatchStarted; StoreReady]
                 ++ (rqs ≫= handled)).
  { unfold Agent.communicate. rewrite loop_trace, emit_trace.
    unfold ins. rewrite decoded_before_requests by eauto. reflexivity. }
  assert (Hk : forall ag1,
    handle (emit (Agent.shutdown_events env) (set_closed true ag1)) = handle ag1 /\
    enc (emit (Agent.shutdown_events env) (set_closed true ag1)) = enc ag1 /\
    dec (emit (Agent.shutdown_events env) (set_closed true ag1)) = dec ag1 /\
    wg (emit (Agent.shutdown_events env) (set_closed true ag1)) = wg ag1 /\
    sd_closed (emit (Agent.shutdown_events env) (set_closed true ag1)) = true /\
    trace (emit (Agent.shutdown_events env) (set_closed true ag1))
    = trace ag1 ++ Agent.shutdown_events env)
    by (intros []; repeat split).
  assert (Hl : forall l ag1,
    handle (snd (Agent.loop l ag1)) = handle ag1 /\
    enc (snd (Agent.loop l ag1)) = enc ag1 /\
    dec (snd (Agent.loop l ag1)) = dec ag1).
  { induction l as [|[rq|e'] l IH]; intros ag1; simpl; auto.
    destruct (IH (Agent.handleReq rq (emit [PropsFinalize rq] ag1)))
      as (-> & -> & ->).
    destruct ag1; auto. }
  destruct (Hk (snd (Agent.communicate ins ag0))) as (Eh & Ee & Ed & Ew & Ec & Etr).
  split; [rewrite Etr, Ht, <- app_assoc; reflexivity|].
  split.
  { rewrite Etr, Ht, !synced_app. 
    assert (Hs : forall l, synced (l ≫= handled) = l).
    { induction l as [|rq l IH]; [reflexivity|].
      rewrite bind_cons, synced_app, IH. reflexivity. }
    rewrite Hs. change (synced [LogPrintln "started"; DispatchStarted; StoreReady])
      with (@nil agentReq).
    assert (Hn : synced (Agent.shutdown_events env) = []) by reflexivity.
    rewrite Hn, app_nil_r. reflexivity. }
  split; [exact Ec|].
  unfold Agent.communicate in *.
  destruct (loop_keeps ins
              (emit [LogPrintln "started"; DispatchStarted; StoreReady] ag0))
    as [Hw _].
  destruct (Hl ins (emit [LogPrintln "started"; DispatchStarted; StoreReady] ag0))
    as (Hh & He & Hd).
  split; [rewrite Ew, Hw; reflexivity|].
  rewrite Eh, Ee, Ed, Hh, He, Hd. auto.
Qed.
